(** * The recipe execution engine of starfish

    A shallow embedding of [starfish/recipe/runnable.py] and
    [starfish/recipe/recipe.py]: the [Runnable] (one bound invocation of an
    algorithm), the [Execution] (one traversal of a recipe's tasks, with
    eviction of intermediate results) and the [Recipe] (validation of the
    designated outputs).

    Python objects that hash by identity ([Runnable]) carry an explicit
    identity [rid]; sets and dicts keyed by such objects are [gset nat] and
    [gmap nat _] keyed by [rid].  Exceptions are values of [PyExc]; a
    computation that may raise returns an [outcome]. *)

From stdpp Require Import gmap strings list fin_maps relations pretty.

Set Warnings "-register-all,-clear-no-such-hyp".

(** ** Exceptions *)

(** The exception classes the engine raises or meets.  [OtherException]
    stands for any other instance of [Exception] raised by third-party code;
    [BaseExceptionOnly] for the instances of [BaseException] that are not
    instances of [Exception] (KeyboardInterrupt, SystemExit), which
    [except Exception] does not catch.  The [cause] argument is the
    [__cause__] set by [raise ... from ex]. *)
Inductive PyExc : Type :=
| StopIteration
| KeyError
| IndexError
| TypeError
| AssertionError (msg : string)
| OtherException (name : string)
| BaseExceptionOnly (name : string)
| RecipeError (msg : string)
| TypeInferenceError (cause : PyExc)
| ConstructorError (cause : PyExc)
| ExecutionError (cause : PyExc).

Definition isinstance_Exception (e : PyExc) : bool :=
  match e with BaseExceptionOnly _ => false | _ => true end.

Definition isinstance_TypeError (e : PyExc) : bool :=
  match e with TypeError => true | _ => false end.

Definition isinstance_RecipeError (e : PyExc) : bool :=
  match e with RecipeError _ => true | _ => false end.

Definition isinstance_AssertionError (e : PyExc) : bool :=
  match e with AssertionError _ => true | _ => false end.

Definition exc_cause (e : PyExc) : option PyExc :=
  match e with
  | TypeInferenceError c | ConstructorError c | ExecutionError c => Some c
  | _ => None
  end.

Inductive outcome (A : Type) : Type :=
| Return (a : A)
| Raise (e : PyExc).
Arguments Return {A} a.
Arguments Raise {A} e.

(** ** File references *)

(** [FileProvider(path_or_url)]: a generic reference, only a location. *)
Record FileProvider := { path_or_url : string }.

(** Python type objects used as annotations, by name; [None] is
    [inspect.Parameter.empty]. *)
Definition Annotation := option string.

(** Modelled from the spec: [filesystem.py] ([TypedFileProvider],
    [FileTypes]) is not among the sources.  A typed reference is a generic
    reference bound to a target type; binding succeeds when the type->loader
    registry knows the type and raises [TypeError] otherwise; [load] decodes
    the location with the registered loader. *)
Record TypedFileProvider := {
  backing_file_provider : FileProvider;
  object_class : Annotation
}.

Section Engine.

(** Python values the engine only passes around. *)
Variable Value : Type.

(** The type->loader registry ([FileTypes], missing): a loader decodes a
    location into a value or raises. *)
Variable loaders : Annotation -> option (string -> outcome Value).

(** The type->writer registry ([FileTypes.resolve_by_instance] followed by
    [filetype.save], missing): writing a value to a destination succeeds or
    raises. *)
Variable save_value : Value -> string -> outcome unit.

(** ** Effects: the trace of a computation and its outcome *)

Inductive Event : Type :=
| EvWarn (category : string) (parameter : string)
| EvLoad (p : TypedFileProvider)
| EvSave (path : string) (v : Value).

(** A computation emits events, then returns or raises. *)
Definition M (A : Type) : Type := list Event * outcome A.

Definition ret {A} (a : A) : M A := ([], Return a).
Definition raise {A} (e : PyExc) : M A := ([], Raise e).
Definition emit (ev : Event) : M unit := ([ev], Return tt).
Definition lift {A} (o : outcome A) : M A := ([], o).
Definition bind {A B} (m : M A) (k : A -> M B) : M B :=
  match m with
  | (tr, Return a) => let '(tr', o) := k a in (tr ++ tr', o)
  | (tr, Raise e) => (tr, Raise e)
  end.

#[local] Instance M_ret : MRet M := @ret.
#[local] Instance M_bind : MBind M := fun A B k m => bind m k.

(** [try: m except C as ex: raise W from ex]. *)
Definition try_wrap {A} (m : M A) (catches : PyExc -> bool)
    (wrap : PyExc -> PyExc) : M A :=
  match m with
  | (tr, Raise e) => (tr, Raise (if catches e then wrap e else e))
  | _ => m
  end.

Fixpoint mapM {A B} (f : A -> M B) (l : list A) : M (list B) :=
  match l with
  | [] => ret []
  | a :: l' => b ← f a; bs ← mapM f l'; ret (b :: bs)
  end.

Definition TypedFileProvider_new (fp : FileProvider) (cls : Annotation)
    : M TypedFileProvider :=
  match loaders cls with
  | Some _ => ret {| backing_file_provider := fp; object_class := cls |}
  | None => raise TypeError
  end.

Definition TypedFileProvider_load (p : TypedFileProvider) : M Value :=
  emit (EvLoad p);;
  match loaders (object_class p) with
  | Some loader => lift (loader (path_or_url (backing_file_provider p)))
  | None => raise TypeError
  end.

(** ** The algorithm contract *)

(** A Python argument: a [Runnable], a file reference, or any other value.
    Raw arguments carry generic references ([F := FileProvider]), bound ones
    typed references ([F := TypedFileProvider]). *)
Inductive Arg (F R : Type) : Type :=
| ArgRunnable (r : R)
| ArgFile (f : F)
| ArgValue (v : Value).
Arguments ArgRunnable {F R} r.
Arguments ArgFile {F R} f.
Arguments ArgValue {F R} v.

(** An option passed to an algorithm's constructor: a file reference or any
    other value. *)
Inductive OptionValue : Type :=
| OptFile (fp : FileProvider)
| OptValue (v : Value).

(** An instantiated algorithm: the parameters of its [run] method as
    [inspect.signature] lists them, in order, and the method itself. *)
Record AlgorithmInstance := {
  run_parameters : list (string * Annotation);
  algorithm_run : list Value -> outcome Value
}.

(** An algorithm class: the parameters of [__init__], and the constructor
    called with keyword arguments. *)
Record AlgorithmCls := {
  init_parameters : list (string * Annotation);
  algorithm_new : list (string * OptionValue) -> outcome AlgorithmInstance
}.

(** The registry ([PipelineComponentType.get_pipeline_component_type_by_name]
    followed by [getattr], missing): raises when the names are unknown. *)
Variable registry : string -> string -> outcome AlgorithmCls.

(** ** Runnable *)

Inductive Runnable : Type :=
| MkRunnable (rid : nat)
    (_pipeline_component_name _algorithm_name : string)
    (_algorithm_instance : AlgorithmInstance)
    (_inputs : list (Arg TypedFileProvider Runnable)).

Definition rid (r : Runnable) : nat :=
  match r with MkRunnable i _ _ _ _ => i end.
Definition _pipeline_component_name (r : Runnable) : string :=
  match r with MkRunnable _ c _ _ _ => c end.
Definition _algorithm_name (r : Runnable) : string :=
  match r with MkRunnable _ _ a _ _ => a end.
Definition _algorithm_instance (r : Runnable) : AlgorithmInstance :=
  match r with MkRunnable _ _ _ a _ => a end.
Definition _inputs (r : Runnable) : list (Arg TypedFileProvider Runnable) :=
  match r with MkRunnable _ _ _ _ i => i end.

Definition RawArg := Arg FileProvider Runnable.
Definition BoundArg := Arg TypedFileProvider Runnable.

(** [signature.parameters[name]]: [KeyError] when the name is absent. *)
Definition parameters_lookup (parameters : list (string * Annotation))
    (name : string) : option Annotation :=
  (fun x => snd (snd x)) <$> list_find (fun p => fst p = name) parameters.

(** Lines 55-75 of [Runnable.__init__]: one round of the loop over the named
    options.  The result is what the round stores in
    [formatted_algorithm_options]: nothing after [continue]. *)
Definition format_option (parameters : list (string * Annotation))
    (option : string * OptionValue) : M (list (string * OptionValue)) :=
  let '(algorithm_option_name, algorithm_option_value) := option in
  match algorithm_option_value with
  | OptFile fp =>
      match parameters_lookup parameters algorithm_option_name with
      | None =>
          emit (EvWarn "ConstructorExtraParameterWarning" algorithm_option_name);;
          ret []
      | Some option_class =>
          provider ← try_wrap (TypedFileProvider_new fp option_class)
                        isinstance_TypeError TypeInferenceError;
          loaded ← TypedFileProvider_load provider;
          ret [(algorithm_option_name, OptValue loaded)]
      end
  | OptValue _ => ret [(algorithm_option_name, algorithm_option_value)]
  end.

Definition format_algorithm_options (parameters : list (string * Annotation))
    (options : list (string * OptionValue)) : M (list (string * OptionValue)) :=
  formatted ← mapM (format_option parameters) options;
  ret (concat formatted).

(** Lines 92-105: one round of the loop over [zip(self._raw_inputs, keys)];
    [signature.parameters[key].annotation] is the annotation listed with
    [key]. *)
Definition format_input (input_key : RawArg * (string * Annotation))
    : M BoundArg :=
  let '(_input, (key, annotation)) := input_key in
  match _input with
  | ArgFile fp =>
      provider ← try_wrap (TypedFileProvider_new fp annotation)
                    isinstance_TypeError TypeInferenceError;
      ret (ArgFile provider)
  | ArgRunnable r => ret (ArgRunnable r)
  | ArgValue v => ret (ArgValue v)
  end.

(** [assert parameters[0] == "self"], where an empty parameter list raises
    [on_empty] ([StopIteration] from [next(iter(..))], [IndexError] from
    [keys[0]]); returns the parameters after [self]. *)
Definition assert_self (parameters : list (string * Annotation))
    (on_empty : PyExc) : M (list (string * Annotation)) :=
  match parameters with
  | [] => raise on_empty
  | (first, _) :: keys =>
      if decide (first = "self") then ret keys else raise (AssertionError "")
  end.

(** [Runnable.__init__]; [self_id] is the identity of the object under
    construction. *)
Definition Runnable_init (self_id : nat)
    (pipeline_component_name algorithm_name : string)
    (inputs : list RawArg) (algorithm_options : list (string * OptionValue))
    : M Runnable :=
  algorithm_cls ← lift (registry pipeline_component_name algorithm_name);
  assert_self (init_parameters algorithm_cls) StopIteration;;
  formatted_algorithm_options ←
    format_algorithm_options (init_parameters algorithm_cls) algorithm_options;
  algorithm_instance ←
    try_wrap (lift (algorithm_new algorithm_cls formatted_algorithm_options))
      isinstance_Exception ConstructorError;
  keys ← assert_self (run_parameters algorithm_instance) IndexError;
  if decide (length inputs ≤ length keys) then
    formatted_inputs ← mapM format_input (zip inputs keys);
    ret (MkRunnable self_id pipeline_component_name algorithm_name
           algorithm_instance formatted_inputs)
  else raise (AssertionError "").

(** Lines 126-132 of [Runnable.run]: one bound input resolved. *)
Definition resolve_input (previous_results : gmap nat Value)
    (_input : BoundArg) : M Value :=
  match _input with
  | ArgRunnable r =>
      match previous_results !! rid r with
      | Some v => ret v
      | None => raise KeyError
      end
  | ArgFile provider => TypedFileProvider_load provider
  | ArgValue v => ret v
  end.

(** [Runnable.run]. *)
Definition Runnable_run (self : Runnable) (previous_results : gmap nat Value)
    : M Value :=
  inputs ← mapM (resolve_input previous_results) (_inputs self);
  try_wrap (lift (algorithm_run (_algorithm_instance self) inputs))
    isinstance_Exception ExecutionError.

(** The [Runnable]s among a list of inputs, in order. *)
Definition input_runnables (inputs : list BoundArg) : list Runnable :=
  omap (fun a => match a with ArgRunnable r => Some r | _ => None end) inputs.

(** A Python [set] built from a list of [Runnable]s: one element per
    identity. *)
Fixpoint set_of (seen : gset nat) (l : list Runnable) : list Runnable :=
  match l with
  | [] => []
  | r :: l' =>
      if decide (rid r ∈ seen) then set_of seen l'
      else r :: set_of ({[rid r]} ∪ seen) l'
  end.

(** The order in which Python iterates over a set of [Runnable]s: some
    rearrangement of its elements, not fixed by the language. *)
Variable ord : list Runnable -> list Runnable.

(** [Runnable.runnable_dependencies], as the list a [for] loop over the
    returned set goes through. *)
Definition runnable_dependencies (self : Runnable) : list Runnable :=
  ord (set_of ∅ (input_runnables (_inputs self))).

(** The length of the longest chain of references below a [Runnable]. *)
Fixpoint height (r : Runnable) : nat :=
  match r with
  | MkRunnable _ _ _ _ inputs =>
      S (foldr (fun a h =>
                  match a with
                  | ArgRunnable d => Nat.max (height d) h
                  | _ => h
                  end) 0 inputs)
  end.

(** ** Execution *)

(** Lines 106-108 of [build_graph]: [runnable] becomes a dependent of
    [dependency]. *)
Definition add_dependent (dependency runnable : Runnable)
    (runnable_dependents : gmap nat (gset nat)) : gmap nat (gset nat) :=
  <[rid dependency :=
      {[rid runnable]} ∪ default ∅ (runnable_dependents !! rid dependency)]>
    runnable_dependents.

(** [Execution.build_graph], the two mutated arguments as a pair.  The
    recursion goes down the references of [runnable]; [fuel] bounds its
    depth and [build_graph] below supplies enough of it. *)
Fixpoint build_graph_fuel (fuel : nat) (runnable : Runnable)
    (st : gset nat * gmap nat (gset nat)) : gset nat * gmap nat (gset nat) :=
  match fuel with
  | 0 => st
  | S fuel' =>
      if decide (rid runnable ∈ st.1) then st
      else
        foldl (fun st dependency =>
                 build_graph_fuel fuel' dependency
                   (st.1, add_dependent dependency runnable st.2))
              ({[rid runnable]} ∪ st.1, st.2)
              (runnable_dependencies runnable)
  end.

Definition build_graph (runnable : Runnable)
    (st : gset nat * gmap nat (gset nat)) : gset nat * gmap nat (gset nat) :=
  build_graph_fuel (height runnable) runnable st.

(** The state of an [Execution]; [_runnable_sequence] is what the iterator
    made in [__init__] has not yielded yet, [_output_runnables] is the same
    object as [_outputs]. *)
Record Execution := {
  _runnable_sequence : list Runnable;
  _outputs : list Runnable;
  _output_paths : list string;
  needed_runnables : gset nat;
  runnable_dependents : gmap nat (gset nat);
  _completed_runnables : gset nat;
  _completed_results : gmap nat Value;
  _incomplete_outputs : gset nat
}.

Definition _output_runnables (self : Execution) : list Runnable :=
  _outputs self.

(** [Execution.__init__]. *)
Definition Execution_init (runnable_sequence outputs : list Runnable)
    (output_paths : list string) : Execution :=
  let graph := foldl (fun st output_runnable => build_graph output_runnable st)
                 (∅, ∅) outputs in
  {| _runnable_sequence := runnable_sequence;
     _outputs := outputs;
     _output_paths := output_paths;
     needed_runnables := graph.1;
     runnable_dependents := graph.2;
     _completed_runnables := ∅;
     _completed_results := ∅;
     _incomplete_outputs := list_to_set (rid <$> outputs) |}.

(** [Execution.complete]. *)
Definition complete (self : Execution) : bool :=
  bool_decide (size (_incomplete_outputs self) = 0).

(** Lines 51-55 of [run_one_tick]: [next] is called on the iterator until it
    yields a needed runnable; the result is that runnable and what the
    iterator still holds, or [None] when the iterator runs out. *)
Fixpoint next_needed (needed : gset nat) (it : list Runnable)
    : option (Runnable * list Runnable) :=
  match it with
  | [] => None
  | candidate_runnable :: it' =>
      if decide (rid candidate_runnable ∈ needed)
      then Some (candidate_runnable, it')
      else next_needed needed it'
  end.


(** Lines 66-77: one round of the loop over the dependencies of the
    runnable just completed, on the dict of results.  The inner [for ..
    else] reaches [del] exactly when no dependent is outside the completed
    set. *)
Definition drop_if_unneeded (self : Execution) (completed : gset nat)
    (results : gmap nat Value) (dependency : Runnable)
    : outcome (gmap nat Value) :=
  if decide (rid dependency ∈ rid <$> _output_runnables self) then
    Return results
  else
    match runnable_dependents self !! rid dependency with
    | None => Raise KeyError
    | Some dependents =>
        if decide (set_Forall (fun dependent => dependent ∈ completed)
                     dependents)
        then
          match results !! rid dependency with
          | Some _ => Return (delete (rid dependency) results)
          | None => Raise KeyError
          end
        else Return results
    end.

(** The whole loop: the results left, and the exception that stopped it, if
    any. *)
Fixpoint drop_loop (self : Execution) (completed : gset nat)
    (results : gmap nat Value) (dependencies : list Runnable)
    : gmap nat Value * outcome unit :=
  match dependencies with
  | [] => (results, Return tt)
  | dependency :: rest =>
      match drop_if_unneeded self completed results dependency with
      | Return results' => drop_loop self completed results' rest
      | Raise e => (results, Raise e)
      end
  end.

Definition set_iterator (self : Execution) (it : list Runnable) : Execution :=
  {| _runnable_sequence := it;
     _outputs := _outputs self;
     _output_paths := _output_paths self;
     needed_runnables := needed_runnables self;
     runnable_dependents := runnable_dependents self;
     _completed_runnables := _completed_runnables self;
     _completed_results := _completed_results self;
     _incomplete_outputs := _incomplete_outputs self |}.

(** [Execution.run_one_tick]: the events, the outcome, and the state the
    call leaves behind, also when it raises. *)
Definition run_one_tick (self : Execution) : M unit * Execution :=
  match next_needed (needed_runnables self) (_runnable_sequence self) with
  | None => (raise StopIteration, set_iterator self [])
  | Some (candidate_runnable, it) =>
      match Runnable_run candidate_runnable (_completed_results self) with
      | (tr, Raise e) => ((tr, Raise e), set_iterator self it)
      | (tr, Return result) =>
          let completed :=
            {[rid candidate_runnable]} ∪ _completed_runnables self in
          let results :=
            <[rid candidate_runnable := result]> (_completed_results self) in
          let '(results', o) :=
            drop_loop self completed results
              (runnable_dependencies candidate_runnable) in
          ((tr, o),
           {| _runnable_sequence := it;
              _outputs := _outputs self;
              _output_paths := _output_paths self;
              needed_runnables := needed_runnables self;
              runnable_dependents := runnable_dependents self;
              _completed_runnables := completed;
              _completed_results := results';
              _incomplete_outputs :=
                _incomplete_outputs self ∖ {[rid candidate_runnable]} |})
      end
  end.

(** The runnable whose [run] a call of [run_one_tick] invokes, if any. *)
Definition tick_candidate (self : Execution) : option Runnable :=
  fst <$> next_needed (needed_runnables self) (_runnable_sequence self).

(** Lines 82-87 of [save]: one output written. *)
Definition save_one (self : Execution) (pair : Runnable * string) : M unit :=
  let '(runnable, output_path) := pair in
  match _completed_results self !! rid runnable with
  | None => raise KeyError
  | Some result =>
      match save_value result output_path with
      | Return _ => emit (EvSave output_path result)
      | Raise e => raise e
      end
  end.

(** [Execution.save]. *)
Definition save (self : Execution) : M unit :=
  if complete self then
    mapM (save_one self) (zip (_output_runnables self) (_output_paths self));;
    ret tt
  else raise (AssertionError "").

(** [Execution.run_and_save]; [None] when [fuel] rounds of the loop were not
    enough. *)
Fixpoint run_and_save_fuel (fuel : nat) (self : Execution)
    : option (M unit * Execution) :=
  if complete self then Some (save self, self)
  else
    match fuel with
    | 0 => None
    | S fuel' =>
        match run_one_tick self with
        | ((tr, Raise e), self') => Some ((tr, Raise e), self')
        | ((tr, Return _), self') =>
            match run_and_save_fuel fuel' self' with
            | Some ((tr', o), self'') => Some ((tr ++ tr', o), self'')
            | None => None
            end
        end
    end.

(** Each round takes at least one runnable from the iterator, so one more
    than its length is fuel enough. *)
Definition run_and_save (self : Execution) : option (M unit * Execution) :=
  run_and_save_fuel (S (length (_runnable_sequence self))) self.

(** What a computation wrote: the destinations and the values, in order. *)
Definition saved_outputs (tr : list Event) : list (string * Value) :=
  omap (fun ev => match ev with EvSave path v => Some (path, v) | _ => None end)
       tr.

(** ** Recipe *)

(** [OrderedSequence.__call__]: the new runnable and the sequence with it
    appended. *)
Definition OrderedSequence_call (_sequence : list Runnable) (self_id : nat)
    (pipeline_component_name algorithm_name : string)
    (inputs : list RawArg) (algorithm_options : list (string * OptionValue))
    : M (Runnable * list Runnable) :=
  result ← Runnable_init self_id pipeline_component_name algorithm_name
              inputs algorithm_options;
  ret (result, _sequence ++ [result]).

(** What a recipe script may store in [file_outputs]. *)
Inductive PyObj : Type :=
| ObjRunnable (r : Runnable)
| ObjOther (v : Value).

Record Recipe := {
  _runnable_order : list Runnable;
  _recipe_outputs : list Runnable;
  _recipe_output_paths : list string
}.

(** Lines 151-156 of [Recipe.__init__]: the loop over [range(len(outputs))]. *)
Fixpoint ordered_outputs (outputs : gmap Z PyObj) (ixs : list Z)
    : outcome (list Runnable) :=
  match ixs with
  | [] => Return []
  | ix :: ixs' =>
      match outputs !! ix with
      | None =>
          Raise (AssertionError ("file_outputs[" +:+ pretty ix +:+ "] is not set"))
      | Some (ObjOther _) =>
          Raise (AssertionError
                   ("file_outputs[" +:+ pretty ix
                      +:+ "] is not the result of a compute(..)"))
      | Some (ObjRunnable r) =>
          match ordered_outputs outputs ixs' with
          | Return l => Return (r :: l)
          | Raise e => Raise e
          end
      end
  end.

(** [Recipe.__init__] from line 146 on: [ordered_sequence] and [outputs] are
    what running the script left in [compute] and [file_outputs]. *)
Definition Recipe_init (ordered_sequence : list Runnable)
    (outputs : gmap Z PyObj) (output_paths : list string) : outcome Recipe :=
  if decide (size outputs = length output_paths) then
    match ordered_outputs outputs (Z.of_nat <$> seq 0 (size outputs)) with
    | Return ordered =>
        Return {| _runnable_order := ordered_sequence;
                  _recipe_outputs := ordered;
                  _recipe_output_paths := output_paths |}
    | Raise e => Raise e
    end
  else
    Raise (AssertionError
             "Recipe generates more outputs than output paths provided!").

(** [Recipe.execution]. *)
Definition Recipe_execution (self : Recipe) : Execution :=
  Execution_init (_runnable_order self) (_recipe_outputs self)
    (_recipe_output_paths self).

(** ** Dependency edges and reachability *)

(** The order of iteration over a set goes through each element once. *)
Hypothesis ord_perm : forall l, ord l ≡ₚ l.

(** [dep x d]: [d] is referenced among the positional inputs of [x]. *)
Definition dep (x d : Runnable) : Prop := d ∈ input_runnables (_inputs x).

(** [reach r x]: [x] is reached from [r] by following dependency edges. *)
Definition reach : Runnable -> Runnable -> Prop := rtc dep.

(** The identities reachable from a list of roots. *)
Definition reachable_from (roots : list Runnable) (t : nat) : Prop :=
  exists o x, o ∈ roots /\ reach o x /\ rid x = t.

(** The invariants of a parsed recipe (section 3 of the specification): the
    tasks of the sequence have distinct identities, a task references only
    tasks of the sequence, and the outputs are tasks of the sequence. *)
Record recipe_wf (sequence outputs : list Runnable) : Prop := {
  wf_unique : NoDup (rid <$> sequence);
  wf_closed : forall x d, x ∈ sequence -> dep x d -> d ∈ sequence;
  wf_outputs : forall o, o ∈ outputs -> o ∈ sequence
}.

(** The states an execution goes through: any number of calls of
    [run_one_tick], raising or not. *)
Inductive ticks (st0 : Execution) : Execution -> Prop :=
| ticks_refl : ticks st0 st0
| ticks_step st : ticks st0 st -> ticks st0 (run_one_tick st).2.

(** The same, every call having returned. *)
Inductive ticks_ok (st0 : Execution) : Execution -> Prop :=
| ticks_ok_refl : ticks_ok st0 st0
| ticks_ok_step st tr :
    ticks_ok st0 st ->
    (run_one_tick st).1 = (tr, Return tt) ->
    ticks_ok st0 (run_one_tick st).2.



(** The dependents recorded for an identity. *)
Definition dependents_of (self : Execution) (t : nat) : gset nat :=
  default ∅ (runnable_dependents self !! t).

(** The results hold an entry only for an output that has not completed yet
    or for a task with a dependent that has not completed. *)
Definition cache_only_pending_or_live (self : Execution) : Prop :=
  forall t, is_Some (_completed_results self !! t) ->
    t ∈ _incomplete_outputs self \/
    exists s, s ∈ dependents_of self t /\ (s ∉ _completed_runnables self).

(** The constructor is passed the file reference given for [name]. *)
Definition option_reaches_constructor (parameters : list (string * Annotation))
    (options : list (string * OptionValue)) (name : string)
    (fp : FileProvider) : Prop :=
  exists tr formatted,
    format_algorithm_options parameters options = (tr, Return formatted) /\
    (name, OptFile fp) ∈ formatted.

(** The construction of the recipe raises a [RecipeError]. *)
Definition raises_RecipeError (o : outcome Recipe) : Prop :=
  exists e, o = Raise e /\ isinstance_RecipeError e = true.

(** Every set of dependents recorded has a member. *)
Definition inhabited_sets (D : gmap nat (gset nat)) : Prop :=
  forall t X, D !! t = Some X -> X <> ∅.

(** [t] is not an output and its recorded dependents have all completed:
    the condition under which the loop deletes the result of [t]. *)
Definition droppable (self : Execution) (completed : gset nat) (t : nat)
    : Prop :=
  (t ∉ rid <$> _output_runnables self) /\
  set_Forall (fun s => s ∈ completed) (dependents_of self t).

#[local] Instance droppable_dec self completed t :
  Decision (droppable self completed t).
Proof. unfold droppable. apply _. Defined.

(** The results a returning call leaves, written without the loop: the new
    result is stored, then the entries of the droppable dependencies of the
    candidate are removed. *)
Definition results_after (self : Execution) (c : Runnable) (v : Value)
    : gmap nat Value :=
  filter (fun kv =>
            ~ (kv.1 ∈ rid <$> input_runnables (_inputs c) /\
               droppable self ({[rid c]} ∪ _completed_runnables self) kv.1))
         (<[rid c := v]> (_completed_results self)).

(** [run_one_tick] with [results_after] in place of the loop. *)
Definition tick_without_loop (self : Execution) : M unit * Execution :=
  match next_needed (needed_runnables self) (_runnable_sequence self) with
  | None => (raise StopIteration, set_iterator self [])
  | Some (c, it) =>
      match Runnable_run c (_completed_results self) with
      | (tr, Raise e) => ((tr, Raise e), set_iterator self it)
      | (tr, Return v) =>
          ((tr, Return tt),
           {| _runnable_sequence := it;
              _outputs := _outputs self;
              _output_paths := _output_paths self;
              needed_runnables := needed_runnables self;
              runnable_dependents := runnable_dependents self;
              _completed_runnables := {[rid c]} ∪ _completed_runnables self;
              _completed_results := results_after self c v;
              _incomplete_outputs := _incomplete_outputs self ∖ {[rid c]} |})
      end
  end.

(** The three ways the outputs of a script can be wrong. *)
Definition validation_fails (outputs : gmap Z PyObj)
    (output_paths : list string) : Prop :=
  size outputs <> length output_paths \/
  (exists ix : nat, ix < size outputs /\ outputs !! Z.of_nat ix = None) \/
  (exists k v, outputs !! k = Some (ObjOther v)).

(** How the construction binds one positional input to its parameter. *)
Definition bound_as (raw_key : RawArg * (string * Annotation))
    (bound : BoundArg) : Prop :=
  match raw_key.1 with
  | ArgFile fp =>
      bound = ArgFile {| backing_file_provider := fp;
                         object_class := raw_key.2.2 |}
  | ArgRunnable r => bound = ArgRunnable r
  | ArgValue v => bound = ArgValue v
  end.

(** What [run] passes to the algorithm for one bound input. *)
Definition resolves_to (previous_results : gmap nat Value)
    (_input : BoundArg) (v : Value) : Prop :=
  match _input with
  | ArgRunnable r => previous_results !! rid r = Some v
  | ArgFile provider =>
      exists loader,
        loaders (object_class provider) = Some loader /\
        loader (path_or_url (backing_file_provider provider)) = Return v
  | ArgValue w => v = w
  end.

(** The decodings [run] performs, in order. *)
Definition loads_of (inputs : list BoundArg) : list Event :=
  omap (fun a => match a with ArgFile p => Some (EvLoad p) | _ => None end)
       inputs.

Definition concat_outcome {A} (o : outcome (list (list A)))
    : outcome (list A) :=
  match o with Return bs => Return (concat bs) | Raise e => Raise e end.

(** *** Lists of dependencies *)

Lemma elem_of_input_runnables (inputs : list BoundArg) d :
  d ∈ input_runnables inputs <-> ArgRunnable d ∈ inputs.
Proof.
  unfold input_runnables. rewrite list_elem_of_omap. split.
  - intros (a & Ha & Hd). destruct a; simplify_eq. done.
  - intros H. exists (ArgRunnable d). done.
Qed.

Lemma set_of_elem seen l d : d ∈ set_of seen l -> d ∈ l /\ rid d ∉ seen.
Proof.
  revert seen. induction l as [|r l IH]; intros seen; simpl.
  - intros H. by apply elem_of_nil in H.
  - destruct (decide (rid r ∈ seen)).
    + intros [H1 H2]%IH. split; [by right | done].
    + intros [->|H]%elem_of_cons; [split; [by left | done]|].
      apply IH in H as [H1 H2]. split; [by right | set_solver].
Qed.

Lemma set_of_complete seen l d :
  d ∈ l -> rid d ∉ seen -> exists d', d' ∈ set_of seen l /\ rid d' = rid d.
Proof.
  revert seen. induction l as [|r l IH]; intros seen; simpl.
  - intros H. by apply elem_of_nil in H.
  - intros [->|H]%elem_of_cons Hs.
    + rewrite decide_False by done. exists r. split; [by left | done].
    + destruct (decide (rid r ∈ seen)); [by apply IH|].
      destruct (decide (rid d = rid r)) as [E|E].
      * exists r. split; [by left | done].
      * destruct (IH ({[rid r]} ∪ seen) H) as (d' & H1 & H2); [set_solver|].
        exists d'. split; [by right | done].
Qed.

Lemma set_of_NoDup seen l : NoDup (rid <$> set_of seen l).
Proof.
  revert seen. induction l as [|r l IH]; intros seen; simpl; [constructor|].
  destruct (decide (rid r ∈ seen)); [apply IH|].
  rewrite fmap_cons. constructor; [|apply IH].
  intros (d & Hd & Hin)%list_elem_of_fmap.
  apply set_of_elem in Hin as [_ Hin]. set_solver.
Qed.

Lemma runnable_dependencies_dep x d : d ∈ runnable_dependencies x -> dep x d.
Proof.
  unfold runnable_dependencies, dep. rewrite ord_perm.
  by intros [H _]%set_of_elem.
Qed.

Lemma runnable_dependencies_complete x d :
  dep x d -> exists d', d' ∈ runnable_dependencies x /\ rid d' = rid d.
Proof.
  unfold runnable_dependencies, dep. intros H.
  destruct (set_of_complete ∅ _ d H) as (d' & H1 & H2); [set_solver|].
  exists d'. by rewrite ord_perm.
Qed.

Lemma runnable_dependencies_NoDup x : NoDup (rid <$> runnable_dependencies x).
Proof.
  unfold runnable_dependencies. rewrite ord_perm. apply set_of_NoDup.
Qed.

Lemma height_pos r : 0 < height r.
Proof. destruct r; simpl; lia. Qed.

Lemma dep_height x d : dep x d -> height d < height x.
Proof.
  unfold dep. rewrite elem_of_input_runnables.
  destruct x as [i c a inst inputs]; simpl.
  induction inputs as [|a' inputs IH]; simpl.
  - intros H. by apply elem_of_nil in H.
  - intros [<-|H]%elem_of_cons.
    + lia.
    + specialize (IH H). destruct a'; lia.
Qed.

Lemma reach_height r x : reach r x -> height x <= height r.
Proof.
  induction 1 as [|x y z Hxy _ IH]; [lia|].
  apply dep_height in Hxy. lia.
Qed.

Lemma reach_inv r x : reach r x -> x = r \/ exists d, dep r d /\ reach d x.
Proof. intros H. destruct H as [|r d x Hd Hx]; [by left | right; eauto]. Qed.

(** *** [build_graph] has fuel enough *)

Lemma foldl_ext_in {A B} (f g : A -> B -> A) (l : list B) (a : A) :
  (forall a b, b ∈ l -> f a b = g a b) -> foldl f a l = foldl g a l.
Proof.
  revert a. induction l as [|b l IH]; intros a Hfg; simpl; [done|].
  rewrite Hfg by left. apply IH. intros a' b' Hb'. apply Hfg. by right.
Qed.

Lemma build_graph_fuel_enough n m r st :
  height r <= n -> height r <= m ->
  build_graph_fuel n r st = build_graph_fuel m r st.
Proof.
  revert m r st. induction n as [|n IH]; intros m r st Hn Hm.
  { pose proof (height_pos r). lia. }
  destruct m as [|m]; [pose proof (height_pos r); lia|].
  simpl. destruct (decide (rid r ∈ st.1)); [done|].
  apply foldl_ext_in. intros a d Hd.
  apply runnable_dependencies_dep, dep_height in Hd.
  apply IH; lia.
Qed.

(** The recursion equation of the source:
    [if runnable in needed: return]; otherwise add it and go through its
    dependencies. *)
Lemma build_graph_unfold r st :
  build_graph r st =
    if decide (rid r ∈ st.1) then st
    else foldl (fun st dependency =>
                  build_graph dependency
                    (st.1, add_dependent dependency r st.2))
               ({[rid r]} ∪ st.1, st.2) (runnable_dependencies r).
Proof.
  unfold build_graph at 1. pose proof (height_pos r) as Hr.
  destruct (height r) as [|h] eqn:E; [lia|]. simpl.
  destruct (decide (rid r ∈ st.1)); [done|].
  apply foldl_ext_in. intros a d Hd.
  apply runnable_dependencies_dep, dep_height in Hd.
  unfold build_graph. apply build_graph_fuel_enough; lia.
Qed.

Lemma add_dependent_inhabited d r D :
  inhabited_sets D -> inhabited_sets (add_dependent d r D).
Proof.
  intros HD t X. unfold add_dependent.
  destruct (decide (rid d = t)) as [<-|Hne].
  - rewrite lookup_insert_eq. intros [= <-]. set_solver.
  - rewrite lookup_insert_ne by done. apply HD.
Qed.

Lemma build_graph_fuel_inhabited fuel r st :
  inhabited_sets st.2 -> inhabited_sets (build_graph_fuel fuel r st).2.
Proof.
  revert r st. induction fuel as [|fuel IH]; intros r st Hst; [done|].
  simpl. destruct (decide (rid r ∈ st.1)); [done|].
  generalize (runnable_dependencies r). intros l.
  assert (inhabited_sets ({[rid r]} ∪ st.1, st.2).2) as Hst' by done.
  revert Hst'. generalize ({[rid r]} ∪ st.1, st.2). clear Hst.
  induction l as [|d l IHl]; intros st' Hst'; simpl; [done|].
  apply IHl, IH. simpl. by apply add_dependent_inhabited.
Qed.

Lemma dependents_inhabited (D : gmap nat (gset nat)) t :
  inhabited_sets D -> is_Some (D !! t) <-> default ∅ (D !! t) <> ∅.
Proof.
  intros HD. split.
  - intros [X HX]. rewrite HX. simpl. by eapply HD.
  - destruct (D !! t); [eauto | done].
Qed.

(** *** What [build_graph] computes *)

Section graph.

(** The runnables of a recipe: closed under references, and one object per
    identity. *)
Variable U : Runnable -> Prop.
Hypothesis U_closed : forall x d, U x -> dep x d -> U d.
Hypothesis U_coherent : forall x y, U x -> U y -> rid x = rid y -> x = y.

Lemma U_reach x y : U x -> reach x y -> U y.
Proof. intros Hx Hxy. induction Hxy; eauto. Qed.

Lemma dep_in_dependencies x d : U x -> dep x d -> d ∈ runnable_dependencies x.
Proof.
  intros Hx Hd. destruct (runnable_dependencies_complete x d Hd) as (d' & H1 & H2).
  assert (d' = d) as <-; [|done].
  apply U_coherent; eauto using runnable_dependencies_dep.
Qed.

Lemma reach_below x d y : U x -> dep x d -> reach d y -> rid y <> rid x.
Proof.
  intros Hx Hd Hy E.
  assert (y = x) as ->.
  { apply U_coherent; eauto using U_reach. }
  apply reach_height in Hy. apply dep_height in Hd. lia.
Qed.

(** [N] holds all that is reachable from its members, those in [S] (the
    runnables whose dependencies are being visited) apart. *)
Definition closed_except (N S : gset nat) : Prop :=
  forall x y, U x -> rid x ∈ N -> rid x ∉ S -> reach x y -> rid y ∈ N.

Definition reach_l (L : list Runnable) (y : Runnable) : Prop :=
  exists d, d ∈ L /\ reach d y.

(** An edge [s -> t] from a runnable reached from [L] and not in [N]. *)
Definition new_edge (L : list Runnable) (N : gset nat) (t s : nat) : Prop :=
  exists x e, reach_l L x /\ (rid x ∉ N) /\ dep x e /\ rid e = t /\ rid x = s.

(** An edge from the runnable whose dependencies [L] are. *)
Definition mark_edge (marker : option Runnable) (L : list Runnable)
    (t s : nat) : Prop :=
  exists r d, marker = Some r /\ d ∈ L /\ rid d = t /\ rid r = s.

Definition dset (D : gmap nat (gset nat)) (t : nat) : gset nat :=
  default ∅ (D !! t).

Definition graph_post (marker : option Runnable) (L : list Runnable)
    (N : gset nat) (D : gmap nat (gset nat))
    (st' : gset nat * gmap nat (gset nat)) : Prop :=
  (forall t, t ∈ st'.1 <-> t ∈ N \/ exists y, reach_l L y /\ rid y = t) /\
  (forall t s, s ∈ dset st'.2 t <->
     s ∈ dset D t \/ mark_edge marker L t s \/ new_edge L N t s).

Definition build_graph_ok (r : Runnable) : Prop :=
  forall N D S,
    closed_except N S -> (forall y, reach r y -> rid y ∉ S) ->
    graph_post None [r] N D (build_graph r (N, D)).

Definition graph_step (marker : option Runnable)
    (st : gset nat * gmap nat (gset nat)) (d : Runnable) :=
  build_graph d
    (st.1, match marker with
           | Some r => add_dependent d r st.2
           | None => st.2
           end).

Lemma dset_add_dependent d r D t s :
  s ∈ dset (add_dependent d r D) t <-> s ∈ dset D t \/ (t = rid d /\ s = rid r).
Proof.
  unfold dset, add_dependent. destruct (decide (rid d = t)) as [<-|Hne].
  - rewrite lookup_insert_eq. simpl. set_solver.
  - rewrite lookup_insert_ne by done. naive_solver.
Qed.

Lemma reach_l_cons d L y : reach_l (d :: L) y <-> reach d y \/ reach_l L y.
Proof.
  unfold reach_l. split.
  - intros (d' & [->|Hd']%elem_of_cons & Hr); [by left | right; eauto].
  - intros [Hr | (d' & Hd' & Hr)].
    + exists d. split; [left | done].
    + exists d'. split; [by right | done].
Qed.

Lemma reach_l_singleton d y : reach_l [d] y <-> reach d y.
Proof.
  rewrite reach_l_cons. split; [|by left].
  intros [H | (d' & Hd' & _)]; [done | by apply elem_of_nil in Hd'].
Qed.

Lemma fold_ok marker L :
  (forall d, d ∈ L -> U d /\ build_graph_ok d) ->
  forall N D S,
    closed_except N S ->
    (forall d y, d ∈ L -> reach d y -> rid y ∉ S) ->
    graph_post marker L N D (foldl (graph_step marker) (N, D) L).
Proof.
  induction L as [|d L IH]; intros HL N D S HN HS.
  - simpl. split.
    + intros t. split; [by left|]. intros [H | (y & (d & Hd & _) & _)]; [done|].
      by apply elem_of_nil in Hd.
    + intros t s. split; [by left|].
      intros [H | [(r & d & _ & Hd & _) | (x & e & (d & Hd & _) & _)]];
        [done | by apply elem_of_nil in Hd | by apply elem_of_nil in Hd].
  - simpl. unfold graph_step at 2. simpl.
    set (D0 := match marker with
               | Some r => add_dependent d r D
               | None => D
               end).
    destruct (HL d) as [Ud Hd]; [left|].
    specialize (Hd N D0 S HN (fun y Hy => HS d y (list_elem_of_here d L) Hy)).
    destruct (build_graph d (N, D0)) as [N1 D1]. destruct Hd as [H1a H1b].
    simpl in H1a, H1b.
    assert (closed_except N1 S) as HN1.
    { intros x y Ux Hx HxS Hxy. apply H1a.
      apply H1a in Hx as [Hx | (y0 & Hy0%reach_l_singleton & E)].
      - left. eapply HN; eauto.
      - right. assert (y0 = x) as -> by (apply U_coherent; eauto using U_reach).
        exists y. split; [|done]. apply reach_l_singleton. by etrans. }
    specialize (IH (fun d' Hd' => HL d' (list_elem_of_further d' d L Hd'))
                   N1 D1 S HN1
                   (fun d' y Hd' Hy =>
                      HS d' y (list_elem_of_further d' d L Hd') Hy)).
    destruct IH as [H2a H2b]. split.
    + intros t. rewrite H2a, H1a. setoid_rewrite reach_l_singleton.
      setoid_rewrite reach_l_cons. naive_solver.
    + intros t s. rewrite H2b, H1b.
      assert (s ∈ dset D0 t <->
              s ∈ dset D t \/ exists r, marker = Some r /\ rid d = t /\ rid r = s)
        as ->.
      { unfold D0. destruct marker as [r|].
        - rewrite dset_add_dependent. naive_solver.
        - naive_solver. }
      split.
      * intros [[[H | (r & Hm & Ht & Hs)]
                | [(r & d' & Hm & _) | (x & e & Hx%reach_l_singleton & Hrest)]]
               | [(r & d' & Hm & Hd' & Ht & Hs) | (x & e & Hx & HxN & Hrest)]].
        -- by left.
        -- right; left. exists r, d. split_and!; [done | left | done | done].
        -- done.
        -- right; right. exists x, e. split; [|done].
           apply reach_l_cons. by left.
        -- right; left. exists r, d'. split_and!; [done | by right | done | done].
        -- right; right. exists x, e. split; [apply reach_l_cons; by right|].
           split; [|done]. intros HxN'. apply HxN, H1a. by left.
      * intros [H | [(r & d' & Hm & [->|Hd']%elem_of_cons & Ht & Hs)
                    | (x & e & [Hx|Hx]%reach_l_cons & HxN & Hrest)]].
        -- left; left; by left.
        -- left; left; right. eauto.
        -- right; left. exists r, d'. done.
        -- left; right; right. exists x, e. split; [|done].
           by apply reach_l_singleton.
        -- destruct (decide (rid x ∈ N1)) as [Hin|Hout].
           ++ apply H1a in Hin as [Hin | (y0 & Hy0%reach_l_singleton & E)];
                [done|].
              assert (y0 = x) as ->.
              { destruct Hx as (d' & Hd' & Hr).
                destruct (HL d') as [Ud' _]; [by right|].
                apply U_coherent; eauto using U_reach. }
              left; right; right. exists x, e. split; [|done].
              by apply reach_l_singleton.
           ++ right; right. exists x, e. done.
Qed.

Lemma build_graph_ok_height n r : height r <= n -> U r -> build_graph_ok r.
Proof.
  revert r. induction n as [|n IH]; intros r Hn Ur.
  { pose proof (height_pos r). lia. }
  intros N D S HN HS. rewrite build_graph_unfold. simpl.
  destruct (decide (rid r ∈ N)) as [Hin|Hout].
  - assert (forall y, reach r y -> rid y ∈ N) as Hall.
    { intros y Hy. eapply HN; eauto. apply HS. apply rtc_refl. }
    split; simpl.
    + intros t. split; [by left|].
      intros [H | (y & Hy%reach_l_singleton & <-)]; [done | by apply Hall].
    + intros t s. split; [by left|].
      intros [H | [(r' & d & Hm & _) | (x & e & Hx%reach_l_singleton & HxN & _)]];
        [done | done |]. exfalso. by apply HxN, Hall.
  - pose proof (fold_ok (Some r) (runnable_dependencies r)) as Hfold.
    assert (forall d, d ∈ runnable_dependencies r -> U d /\ build_graph_ok d)
      as Hdeps.
    { intros d Hd%runnable_dependencies_dep. split; [eauto|].
      apply IH; [|eauto]. apply dep_height in Hd. lia. }
    specialize (Hfold Hdeps ({[rid r]} ∪ N) D ({[rid r]} ∪ S)).
    change (foldl _ _ _) with
      (foldl (graph_step (Some r)) ({[rid r]} ∪ N, D) (runnable_dependencies r)).
    destruct Hfold as [Ha Hb].
    + intros x y Ux Hx HxS Hxy.
      assert (rid y ∈ N); [|set_solver].
      eapply HN; eauto; set_solver.
    + intros d y Hd%runnable_dependencies_dep Hy.
      assert (rid y <> rid r) by eauto using reach_below.
      assert (rid y ∉ S); [|set_solver].
      apply HS. by eapply rtc_l.
    + split.
      * intros t. rewrite Ha.
        setoid_rewrite reach_l_singleton. split.
        -- intros [[->%elem_of_singleton|H]%elem_of_union
                  | (y & (d & Hd%runnable_dependencies_dep & Hy) & <-)].
           ++ right. exists r. split; [apply rtc_refl | done].
           ++ by left.
           ++ right. exists y. split; [by eapply rtc_l | done].
        -- intros [H | (y & [->|(d & Hd & Hy)]%reach_inv & <-)].
           ++ left. set_solver.
           ++ left. set_solver.
           ++ right. exists y. split; [|done]. exists d.
              split; [by apply dep_in_dependencies | done].
      * intros t s. rewrite Hb. split.
        -- intros [H | [(r' & d & [= <-] & Hd%runnable_dependencies_dep & Ht & Hs)
                       | (x & e & (d & Hd%runnable_dependencies_dep & Hx)
                            & HxN & Hrest)]].
           ++ by left.
           ++ right; right. exists r, d. split; [apply reach_l_singleton, rtc_refl|].
              done.
           ++ right; right. exists x, e.
              split; [apply reach_l_singleton; by eapply rtc_l|].
              split; [set_solver | done].
        -- intros [H | [(r' & d & Hm & _)
                       | (x & e & Hx%reach_l_singleton & HxN & He & Ht & Hs)]];
             [by left | done |].
           apply reach_inv in Hx as [->|(d & Hd & Hx)].
           ++ right; left. exists r, e.
              split_and!; [done | by apply dep_in_dependencies | done | done].
           ++ right; right. exists x, e. split.
              { exists d. split; [by apply dep_in_dependencies | done]. }
              assert (rid x <> rid r) by eauto using reach_below.
              split; [set_solver | done].
Qed.

(** The graph built from the outputs: the needed set is what is reachable,
    and the dependents of [t] are the reachable runnables that reference
    [t]. *)
Lemma build_graph_outputs outputs :
  (forall o, o ∈ outputs -> U o) ->
  let st := foldl (fun st o => build_graph o st) (∅, ∅) outputs in
  (forall t, t ∈ st.1 <-> reachable_from outputs t) /\
  (forall t s, s ∈ dset st.2 t <->
     exists o x e, o ∈ outputs /\ reach o x /\ dep x e /\
                   rid e = t /\ rid x = s) /\
  inhabited_sets st.2.
Proof.
  intros HU st.
  assert (st = foldl (graph_step None) (∅, ∅) outputs) as Hst.
  { unfold st. apply foldl_ext_in. intros [N D] o _. done. }
  pose proof (fold_ok None outputs) as Hfold.
  specialize (Hfold (fun o Ho =>
    conj (HU o Ho) (build_graph_ok_height (height o) o (le_n _) (HU o Ho)))).
  specialize (Hfold ∅ ∅ ∅). rewrite <-Hst in Hfold.
  destruct Hfold as [Ha Hb]; [intros x y _ Hx; set_solver | set_solver |].
  split_and!.
  - intros t. rewrite Ha. unfold reachable_from, reach_l. split.
    + intros [H | (y & (o & Ho & Hy) & E)]; [set_solver | eauto 6].
    + intros (o & x & Ho & Hx & E). right. eauto 6.
  - intros t s. rewrite Hb. unfold new_edge, reach_l, mark_edge, dset.
    rewrite lookup_empty. simpl. split.
    + intros [H | [(r & d & Hm & _) | (x & e & (o & Ho & Hx) & _ & Hrest)]];
        [set_solver | done |]. exists o, x, e. done.
    + intros (o & x & e & Ho & Hx & Hrest). right; right.
      exists x, e. split; [eauto|]. split; [set_solver | done].
  - unfold st.
    assert (forall l (st0 : gset nat * gmap nat (gset nat)),
      inhabited_sets st0.2 ->
      inhabited_sets (foldl (fun st o => build_graph o st) st0 l).2) as H.
    { induction l as [|o l IH]; intros st0 H0; simpl; [done|].
      apply IH. by apply build_graph_fuel_inhabited. }
    apply H. intros t X. simpl. by rewrite lookup_empty.
Qed.

End graph.

(** *** Computations *)

Lemma bind_Return {A B} (m : M A) (k : A -> M B) tr b :
  (m ≫= k) = (tr, Return b) ->
  exists tr1 a tr2, m = (tr1, Return a) /\ k a = (tr2, Return b) /\ tr = tr1 ++ tr2.
Proof.
  unfold mbind, M_bind, bind. destruct m as [tr1 [a|e]]; [|done].
  destruct (k a) as [tr2 o] eqn:E. intros [= <- ->]. eauto 6.
Qed.

Lemma bind_eq {A B} (m : M A) (k : A -> M B) :
  (m ≫= k) =
    match m with
    | (tr, Return a) => (tr ++ (k a).1, (k a).2)
    | (tr, Raise e) => (tr, Raise e)
    end.
Proof.
  unfold mbind, M_bind, bind. destruct m as [tr [a|e]]; [|done].
  by destruct (k a).
Qed.

Lemma mapM_Return {A B} (f : A -> M B) l tr bs :
  mapM f l = (tr, Return bs) ->
  Forall2 (fun a b => exists tr', f a = (tr', Return b)) l bs.
Proof.
  revert tr bs. induction l as [|a l IH]; intros tr bs; simpl.
  - intros [= <- <-]. constructor.
  - intros (tr1 & b & tr2 & Hb & Hrest & _)%bind_Return.
    apply bind_Return in Hrest as (tr3 & bs' & tr4 & Hbs & Hret & _).
    injection Hret as _ <-. constructor; eauto.
Qed.

Lemma Runnable_run_Return c results tr v :
  Runnable_run c results = (tr, Return v) ->
  forall d, dep c d -> is_Some (results !! rid d).
Proof.
  unfold Runnable_run.
  intros (tr1 & vs & tr2 & Hvs & _)%bind_Return d Hd.
  apply mapM_Return in Hvs. apply elem_of_input_runnables in Hd.
  induction Hvs as [|a w l ws (tr' & Hw) _ IH]; [by apply elem_of_nil in Hd|].
  apply elem_of_cons in Hd as [<-|Hd]; [|by apply IH].
  simpl in Hw. destruct (results !! rid d); [eauto | done].
Qed.

Lemma next_needed_Some needed it c it' :
  next_needed needed it = Some (c, it') ->
  exists skipped,
    it = skipped ++ c :: it' /\ rid c ∈ needed /\
    Forall (fun x => rid x ∉ needed) skipped.
Proof.
  revert c it'. induction it as [|x it IH]; intros c it'; simpl; [done|].
  destruct (decide (rid x ∈ needed)).
  - intros [= -> ->]. exists []. done.
  - intros (skipped & -> & Hc & Hs)%IH. exists (x :: skipped).
    split_and!; [done | done | by constructor].
Qed.

Lemma next_needed_None needed it :
  next_needed needed it = None <-> Forall (fun x => rid x ∉ needed) it.
Proof.
  induction it as [|x it IH]; simpl; [done|].
  destruct (decide (rid x ∈ needed)).
  - split; [done|]. by intros [? _]%Forall_cons.
  - rewrite IH. split; [by constructor | by intros [_ ?]%Forall_cons].
Qed.

(** The loop that drops results never raises when the results of the
    dependencies are there and their dependents are recorded; it deletes the
    results of the droppable dependencies. *)
Lemma drop_loop_spec self completed results L :
  NoDup (rid <$> L) ->
  (forall d, d ∈ L -> is_Some (results !! rid d) /\
                      is_Some (runnable_dependents self !! rid d)) ->
  exists results',
    drop_loop self completed results L = (results', Return tt) /\
    forall t, results' !! t =
      if decide (t ∈ rid <$> L /\ droppable self completed t) then None
      else results !! t.
Proof.
  clear save_value. revert results.
  induction L as [|d L IH]; intros results Hnd HL; cbn [drop_loop].
  - exists results. split; [done|]. intros t.
    rewrite decide_False; [done|]. intros [H _]. by apply elem_of_nil in H.
  - rewrite fmap_cons in Hnd. apply NoDup_cons in Hnd as [Hd Hnd].
    destruct (HL d) as [[v Hv] [X HX]]; [left|].
    unfold drop_if_unneeded. rewrite HX, Hv.
    assert (forall results1,
      (forall t, results1 !! t =
         if decide (t = rid d /\ droppable self completed t) then None
         else results !! t) ->
      exists results',
        drop_loop self completed results1 L = (results', Return tt) /\
        forall t, results' !! t =
          if decide (t ∈ rid <$> (d :: L) /\ droppable self completed t)
          then None else results !! t) as Hstep.
    { intros results1 H1. destruct (IH results1 Hnd) as (results' & Hr & Hl).
      - intros d' Hd'. destruct (HL d') as [[v' Hv'] HD']; [by right|].
        split; [|done]. rewrite H1. rewrite decide_False; [eauto|].
        intros [E _]. apply Hd. rewrite <-E. by apply list_elem_of_fmap_2.
      - exists results'. split; [done|]. intros t. rewrite Hl, H1, fmap_cons.
        repeat case_decide; try done; set_solver. }
    destruct (decide (rid d ∈ rid <$> _output_runnables self)) as [Ho|Ho].
    { apply Hstep. intros t. rewrite decide_False; [done|].
      intros [-> [Hno _]]. done. }
    destruct (decide (set_Forall (fun dependent => dependent ∈ completed) X))
      as [Hall|Hnot].
    + apply Hstep. intros t. destruct (decide (t = rid d)) as [->|Hne].
      * rewrite lookup_delete_eq. rewrite decide_True; [done|].
        split; [done|]. split; [done|]. unfold dependents_of. by rewrite HX.
      * rewrite lookup_delete_ne by done. rewrite decide_False; [done|].
        by intros [? _].
    + apply Hstep. intros t. rewrite decide_False; [done|].
      intros [-> [_ Hall]]. apply Hnot. unfold dependents_of in Hall.
      by rewrite HX in Hall.
Qed.


(** *** The execution of a well-formed recipe *)

Lemma NoDup_fmap_eq {A B} (f : A -> B) (l : list A) x y :
  NoDup (f <$> l) -> x ∈ l -> y ∈ l -> f x = f y -> x = y.
Proof.
  induction l as [|a l IH]; [intros _ H; by apply elem_of_nil in H|].
  rewrite fmap_cons. intros [Ha Hl]%NoDup_cons.
  intros [->|Hx]%elem_of_cons [->|Hy]%elem_of_cons E; [done | | | by apply IH].
  - exfalso. apply Ha. rewrite E. by apply list_elem_of_fmap_2.
  - exfalso. apply Ha. rewrite <-E. by apply list_elem_of_fmap_2.
Qed.

Section run.

Variables (sequence outputs : list Runnable) (output_paths : list string).
Hypothesis Hwf : recipe_wf sequence outputs.

Notation "'st0'" := (Execution_init sequence outputs output_paths).

Lemma sequence_coherent x y :
  x ∈ sequence -> y ∈ sequence -> rid x = rid y -> x = y.
Proof. apply NoDup_fmap_eq, Hwf. Qed.

Lemma sequence_reach x y : x ∈ sequence -> reach x y -> y ∈ sequence.
Proof. apply (U_reach (fun x => x ∈ sequence)). apply Hwf. Qed.

Lemma needed_spec t : t ∈ needed_runnables st0 <-> reachable_from outputs t.
Proof.
  pose proof (build_graph_outputs (fun x => x ∈ sequence) (wf_closed _ _ Hwf)
                sequence_coherent outputs (wf_outputs _ _ Hwf)) as [H _].
  apply H.
Qed.

Lemma dependents_spec t s :
  s ∈ dependents_of st0 t <->
  exists o x e, o ∈ outputs /\ reach o x /\ dep x e /\ rid e = t /\ rid x = s.
Proof.
  pose proof (build_graph_outputs (fun x => x ∈ sequence) (wf_closed _ _ Hwf)
                sequence_coherent outputs (wf_outputs _ _ Hwf)) as (_ & H & _).
  apply H.
Qed.

Lemma dependents_recorded t :
  is_Some (runnable_dependents st0 !! t) <-> dependents_of st0 t <> ∅.
Proof.
  pose proof (build_graph_outputs (fun x => x ∈ sequence) (wf_closed _ _ Hwf)
                sequence_coherent outputs (wf_outputs _ _ Hwf)) as (_ & _ & H).
  by apply dependents_inhabited.
Qed.

(** A needed runnable of the sequence is reached from an output. *)
Lemma needed_reached c :
  c ∈ sequence -> rid c ∈ needed_runnables st0 ->
  exists o, o ∈ outputs /\ reach o c.
Proof.
  intros Hc (o & x & Ho & Hx & E)%needed_spec. exists o. split; [done|].
  assert (x = c) as <-; [|done].
  apply sequence_coherent; [|done|done].
  eapply sequence_reach; [|done]. by apply Hwf.
Qed.

Lemma needed_dependency_recorded c d :
  c ∈ sequence -> rid c ∈ needed_runnables st0 -> dep c d ->
  rid c ∈ dependents_of st0 (rid d).
Proof.
  intros Hc Hn Hd. destruct (needed_reached c Hc Hn) as (o & Ho & Hr).
  apply dependents_spec. exists o, c, d. done.
Qed.

(** What holds of the state of an execution after any number of calls. *)
Record tick_inv (st : Execution) : Prop := {
  inv_outputs : _outputs st = outputs;
  inv_paths : _output_paths st = output_paths;
  inv_needed : needed_runnables st = needed_runnables st0;
  inv_dependents : runnable_dependents st = runnable_dependents st0;
  inv_iterator : exists consumed,
    sequence = consumed ++ _runnable_sequence st /\
    forall t, t ∈ _completed_runnables st ->
              t ∈ needed_runnables st0 /\ t ∈ rid <$> consumed;
  inv_results : forall t,
    is_Some (_completed_results st !! t) -> t ∈ _completed_runnables st;
  inv_closed : forall x d,
    x ∈ sequence -> rid x ∈ _completed_runnables st -> dep x d ->
    rid d ∈ _completed_runnables st;
  inv_cache : forall t,
    is_Some (_completed_results st !! t) ->
    t ∈ rid <$> outputs \/
    exists s, s ∈ dependents_of st0 t /\ s ∉ _completed_runnables st;
  inv_incomplete :
    _incomplete_outputs st =
      list_to_set (rid <$> outputs) ∖ _completed_runnables st
}.

Lemma tick_inv_init : tick_inv st0.
Proof.
  split; simpl; try done;
    try (intros t [v Hv]; by rewrite lookup_empty in Hv);
    try (exists []; split; [done|]); set_solver.
Qed.

(** A runnable still in the iterator has not completed. *)
Lemma pending_not_completed st skipped c it :
  tick_inv st -> _runnable_sequence st = skipped ++ c :: it ->
  rid c ∉ _completed_runnables st.
Proof.
  intros Hinv Hit. destruct (inv_iterator _ Hinv) as (consumed & Hseq & Hcons).
  intros Hc. apply Hcons in Hc as [_ Hc]. pose proof (wf_unique _ _ Hwf) as Hnd.
  rewrite Hseq, Hit, fmap_app in Hnd. apply NoDup_app in Hnd as (_ & Hnd & _).
  apply (Hnd _ Hc). rewrite fmap_app, fmap_cons. set_solver.
Qed.

Lemma tick_inv_set_iterator st consumed' it :
  tick_inv st ->
  (exists consumed, sequence = consumed ++ _runnable_sequence st /\
                    _runnable_sequence st = consumed' ++ it) ->
  tick_inv (set_iterator st it).
Proof.
  intros Hinv (consumed & Hseq & Hit). destruct Hinv. split; simpl; try done.
  destruct inv_iterator0 as (consumed0 & Hseq0 & Hc0).
  exists (consumed0 ++ consumed'). split.
  - rewrite Hseq0, Hit. by rewrite app_assoc.
  - intros t Ht. destruct (Hc0 t Ht) as [? ?]. split; [done|].
    rewrite fmap_app. set_solver.
Qed.

Lemma candidate_in_sequence st skipped c it :
  tick_inv st -> _runnable_sequence st = skipped ++ c :: it -> c ∈ sequence.
Proof.
  intros Hinv Hit. destruct (inv_iterator _ Hinv) as (consumed & Hseq & _).
  rewrite Hseq, Hit. set_solver.
Qed.

(** A call that finds a candidate whose [run] returns: the loop that drops
    results does not raise, and the call returns. *)
Lemma run_one_tick_Return st c it tr v :
  tick_inv st ->
  next_needed (needed_runnables st) (_runnable_sequence st) = Some (c, it) ->
  Runnable_run c (_completed_results st) = (tr, Return v) ->
  exists results',
    run_one_tick st =
      ((tr, Return tt),
       {| _runnable_sequence := it;
          _outputs := _outputs st;
          _output_paths := _output_paths st;
          needed_runnables := needed_runnables st;
          runnable_dependents := runnable_dependents st;
          _completed_runnables := {[rid c]} ∪ _completed_runnables st;
          _completed_results := results';
          _incomplete_outputs := _incomplete_outputs st ∖ {[rid c]} |}) /\
    forall t, results' !! t =
      if decide (t ∈ rid <$> runnable_dependencies c /\
                 droppable st ({[rid c]} ∪ _completed_runnables st) t)
      then None else <[rid c := v]> (_completed_results st) !! t.
Proof.
  clear save_value.
  intros Hinv Hnext Hrun. unfold run_one_tick. rewrite Hnext, Hrun.
  apply next_needed_Some in Hnext as (skipped & Hit & Hc & _).
  pose proof (candidate_in_sequence _ _ _ _ Hinv Hit) as Hcs.
  rewrite (inv_needed _ Hinv) in Hc.
  destruct (drop_loop_spec st ({[rid c]} ∪ _completed_runnables st)
              (<[rid c := v]> (_completed_results st))
              (runnable_dependencies c)) as (results' & Hloop & Hres).
  - apply runnable_dependencies_NoDup.
  - intros d Hd%runnable_dependencies_dep. split.
    + destruct (Runnable_run_Return _ _ _ _ Hrun d Hd) as [w Hw].
      destruct (decide (rid c = rid d)) as [E|E].
      * rewrite E, lookup_insert_eq. eauto.
      * rewrite lookup_insert_ne by done. eauto.
    + rewrite (inv_dependents _ Hinv). apply dependents_recorded.
      pose proof (needed_dependency_recorded c d Hcs Hc Hd). set_solver.
  - rewrite Hloop. exists results'. done.
Qed.

Lemma tick_inv_step st : tick_inv st -> tick_inv (run_one_tick st).2.
Proof.
  clear save_value. intros Hinv.
  destruct (next_needed (needed_runnables st) (_runnable_sequence st))
    as [[c it]|] eqn:Hnext.
  2:{ unfold run_one_tick. rewrite Hnext. simpl.
      apply (tick_inv_set_iterator st (_runnable_sequence st)); [done|].
      destruct (inv_iterator _ Hinv) as (consumed & Hseq & _).
      exists consumed. by rewrite app_nil_r. }
  pose proof Hnext as (skipped & Hit & Hc & _)%next_needed_Some.
  rewrite (inv_needed _ Hinv) in Hc.
  pose proof (candidate_in_sequence _ _ _ _ Hinv Hit) as Hcs.
  pose proof (pending_not_completed _ _ _ _ Hinv Hit) as Hfresh.
  destruct (Runnable_run c (_completed_results st)) as [tr [v|e]] eqn:Hrun.
  2:{ unfold run_one_tick. rewrite Hnext, Hrun. simpl.
      apply (tick_inv_set_iterator st (skipped ++ [c])); [done|].
      destruct (inv_iterator _ Hinv) as (consumed & Hseq & _).
      exists consumed. split; [done|]. by rewrite <-app_assoc. }
  destruct (run_one_tick_Return _ _ _ _ _ Hinv Hnext Hrun)
    as (results' & -> & Hres).
  assert (forall t, is_Some (results' !! t) ->
            t = rid c \/ is_Some (_completed_results st !! t)) as Hsub.
  { intros t Ht. rewrite Hres in Ht. case_decide; [by destruct Ht|].
    destruct (decide (t = rid c)) as [->|Hne]; [by left|].
    rewrite lookup_insert_ne in Ht by done. by right. }
  destruct Hinv. split; simpl; try done.
  - destruct inv_iterator0 as (consumed & Hseq & Hcons).
    exists (consumed ++ skipped ++ [c]). split.
    + rewrite Hseq, Hit. by rewrite <-!app_assoc.
    + intros t [->%elem_of_singleton|Ht]%elem_of_union.
      * split; [done|]. rewrite !fmap_app. set_solver.
      * destruct (Hcons t Ht). split; [done|]. rewrite fmap_app. set_solver.
  - intros t [->|Ht]%Hsub; [set_solver|]. apply inv_results0 in Ht. set_solver.
  - intros x d Hx [E%elem_of_singleton|Hxc]%elem_of_union Hd.
    + assert (x = c) as -> by by apply sequence_coherent.
      apply elem_of_union_r, inv_results0.
      by eapply Runnable_run_Return.
    + apply elem_of_union_r. by eapply inv_closed0.
  - intros t Ht.
    destruct (decide (t ∈ rid <$> outputs)) as [Ho|Ho]; [by left|]. right.
    pose proof Ht as [->|Hold]%Hsub.
    + destruct (needed_reached c Hcs Hc) as (o & Ho' & Hr).
      apply rtc_inv_r in Hr as [->|(p & Hop & Hpc)].
      { exfalso. apply Ho. by apply list_elem_of_fmap_2. }
      assert (p ∈ sequence) as Hps.
      { eapply sequence_reach; [|done]. by apply Hwf. }
      exists (rid p). split.
      * apply dependents_spec. exists o, p, c. done.
      * intros [E%elem_of_singleton|Hpcomp]%elem_of_union.
        -- assert (p = c) as -> by by apply sequence_coherent.
           apply dep_height in Hpc. lia.
        -- apply Hfresh. by eapply inv_closed0.
    + destruct (inv_cache0 t Hold) as [?|(s & Hs & Hsc)]; [done|].
      destruct (decide (s = rid c)) as [->|Hne].
      2:{ exists s. split; [done|]. set_solver. }
      apply dependents_spec in Hs as (o & x & e & Ho' & Hx & He & Et & Ex).
      assert (x = c) as ->.
      { apply sequence_coherent; [|done|done].
        eapply sequence_reach; [|done]. by apply Hwf. }
      destruct (runnable_dependencies_complete c e He) as (e' & He' & Ee').
      rewrite Hres in Ht. case_decide as Hdrop.
      { by destruct Ht. }
      assert (~ droppable st ({[rid c]} ∪ _completed_runnables st) t) as Hnd.
      { intros Hd. apply Hdrop. split; [|done].
        rewrite <-Et, <-Ee'. by apply list_elem_of_fmap_2. }
      unfold droppable, _output_runnables in Hnd.
      rewrite inv_outputs0 in Hnd.
      assert (~ set_Forall (fun s => s ∈ {[rid c]} ∪ _completed_runnables st)
                (dependents_of st t)) as Hex by tauto.
      apply not_set_Forall_Exists in Hex as (s' & Hs' & Hs'c); [|apply _].
      exists s'. split; [|done]. unfold dependents_of in *.
      by rewrite <-inv_dependents0.
  - rewrite inv_incomplete0. set_solver.
Qed.

Lemma ticks_inv st : ticks st0 st -> tick_inv st.
Proof.
  clear save_value.
  induction 1; [apply tick_inv_init | by apply tick_inv_step].
Qed.

Lemma ticks_ok_ticks st : ticks_ok st0 st -> ticks st0 st.
Proof. induction 1; by constructor. Qed.

Lemma completed_reach st x y :
  tick_inv st -> x ∈ sequence -> rid x ∈ _completed_runnables st ->
  reach x y -> rid y ∈ _completed_runnables st.
Proof.
  intros Hinv Hx Hc Hr. induction Hr as [|x d y Hd _ IH]; [done|].
  apply IH.
  - by eapply (wf_closed _ _ Hwf).
  - by eapply inv_closed.
Qed.

Lemma iterator_not_completed st x :
  tick_inv st -> x ∈ _runnable_sequence st -> rid x ∉ _completed_runnables st.
Proof.
  intros Hinv (l1 & l2 & Hit)%list_elem_of_split.
  by eapply pending_not_completed.
Qed.

(** After calls that all returned, what the iterator has yielded and was
    needed has completed. *)
Lemma ticks_ok_consumed st :
  ticks_ok st0 st ->
  exists consumed,
    sequence = consumed ++ _runnable_sequence st /\
    forall x, x ∈ consumed -> rid x ∈ needed_runnables st0 ->
              rid x ∈ _completed_runnables st.
Proof.
  clear save_value.
  induction 1 as [|st tr Hok (consumed & Hseq & Hcons) Hret].
  - exists []. split; [done|]. intros x Hx. by apply elem_of_nil in Hx.
  - pose proof (ticks_inv _ (ticks_ok_ticks _ Hok)) as Hinv.
    destruct (next_needed (needed_runnables st) (_runnable_sequence st))
      as [[c it]|] eqn:Hnext.
    2:{ unfold run_one_tick in Hret. by rewrite Hnext in Hret. }
    destruct (Runnable_run c (_completed_results st)) as [tr' [v|e]] eqn:Hrun.
    2:{ unfold run_one_tick in Hret. by rewrite Hnext, Hrun in Hret. }
    destruct (run_one_tick_Return _ _ _ _ _ Hinv Hnext Hrun)
      as (results' & -> & _). simpl.
    apply next_needed_Some in Hnext as (skipped & Hit & Hc & Hskip).
    exists (consumed ++ skipped ++ [c]). split.
    + rewrite Hseq, Hit. by rewrite <-!app_assoc.
    + intros x [Hx|[Hx|Hx%list_elem_of_singleton]%elem_of_app]%elem_of_app Hn.
      * apply elem_of_union_r. by apply Hcons.
      * rewrite Forall_forall in Hskip. apply Hskip in Hx.
        by rewrite (inv_needed _ Hinv) in Hx.
      * subst x. set_solver.
Qed.




Lemma run_one_tick_StopIteration st :
  next_needed (needed_runnables st) (_runnable_sequence st) = None ->
  run_one_tick st = (([], Raise StopIteration), set_iterator st []).
Proof. intros H. unfold run_one_tick. by rewrite H. Qed.

Lemma exhausted st :
  tick_inv st ->
  (forall x, x ∈ sequence -> rid x ∈ needed_runnables st ->
             rid x ∈ _completed_runnables st) ->
  next_needed (needed_runnables st) (_runnable_sequence st) = None.
Proof.
  intros Hinv Hall. apply next_needed_None, Forall_forall. intros x Hx Hn.
  apply (iterator_not_completed st x Hinv Hx). apply Hall; [|done].
  destruct (inv_iterator _ Hinv) as (consumed & Hseq & _).
  rewrite Hseq. set_solver.
Qed.

Lemma complete_all_completed st x :
  tick_inv st -> complete st = true ->
  x ∈ sequence -> rid x ∈ needed_runnables st ->
  rid x ∈ _completed_runnables st.
Proof.
  intros Hinv Hc Hx Hn. rewrite (inv_needed _ Hinv) in Hn.
  destruct (needed_reached x Hx Hn) as (o & Ho & Hr).
  eapply completed_reach; [done | by apply Hwf | | done].
  unfold complete in Hc. apply bool_decide_eq_true in Hc.
  apply size_empty_inv in Hc. rewrite (inv_incomplete _ Hinv) in Hc.
  assert (rid o ∈ (list_to_set (rid <$> outputs) : gset nat)) as Hin.
  { apply elem_of_list_to_set. by apply list_elem_of_fmap_2. }
  destruct (decide (rid o ∈ _completed_runnables st)); [done|].
  set_solver.
Qed.

(** *** The order of iteration does not matter *)

Lemma rid_runnable_dependencies c t :
  t ∈ rid <$> runnable_dependencies c <-> t ∈ rid <$> input_runnables (_inputs c).
Proof.
  rewrite !list_elem_of_fmap. split.
  - intros (d & -> & Hd%runnable_dependencies_dep). by exists d.
  - intros (d & -> & Hd).
    destruct (runnable_dependencies_complete c d Hd) as (d' & Hd' & E).
    by exists d'.
Qed.

Lemma run_one_tick_without_loop st :
  tick_inv st -> run_one_tick st = tick_without_loop st.
Proof.
  clear save_value.
  intros Hinv. unfold tick_without_loop.
  destruct (next_needed (needed_runnables st) (_runnable_sequence st))
    as [[c it]|] eqn:Hnext.
  2:{ unfold run_one_tick. by rewrite Hnext. }
  destruct (Runnable_run c (_completed_results st)) as [tr [v|e]] eqn:Hrun.
  2:{ unfold run_one_tick. by rewrite Hnext, Hrun. }
  destruct (run_one_tick_Return _ _ _ _ _ Hinv Hnext Hrun)
    as (results' & -> & Hres).
  do 2 f_equal. apply map_eq. intros t. rewrite Hres.
  unfold results_after. apply option_eq. intros w.
  rewrite map_lookup_filter_Some. simpl. rewrite <-rid_runnable_dependencies.
  case_decide; naive_solver.
Qed.

Lemma dependents_inhabited_init : inhabited_sets (runnable_dependents st0).
Proof.
  pose proof (build_graph_outputs (fun x => x ∈ sequence) (wf_closed _ _ Hwf)
                sequence_coherent outputs (wf_outputs _ _ Hwf)) as (_ & _ & H).
  apply H.
Qed.

(** The graph is determined by what it has to hold. *)
Lemma graph_unique (N : gset nat) (D : gmap nat (gset nat)) :
  (forall t, t ∈ N <-> reachable_from outputs t) ->
  (forall t s, s ∈ default ∅ (D !! t) <->
     exists o x e, o ∈ outputs /\ reach o x /\ dep x e /\
                   rid e = t /\ rid x = s) ->
  inhabited_sets D ->
  N = needed_runnables st0 /\ D = runnable_dependents st0.
Proof.
  intros HN HD Hinh. split.
  - apply set_eq. intros t. by rewrite HN, needed_spec.
  - apply map_eq. intros t.
    assert (default ∅ (D !! t) = dependents_of st0 t) as E.
    { apply set_eq. intros s. by rewrite HD, dependents_spec. }
    pose proof (dependents_inhabited D t Hinh) as H1.
    pose proof (dependents_recorded t) as H2. rewrite <-E in H2.
    unfold dependents_of in E.
    destruct (D !! t) as [X|] eqn:EX,
      (runnable_dependents st0 !! t) as [Y|] eqn:EY; simpl in *.
    + by rewrite E.
    + exfalso. assert (X <> ∅) as HX by (apply H1; eauto).
      destruct (proj2 H2 HX) as [? ?]. done.
    + exfalso. assert (is_Some (Some Y)) as HY by eauto.
      by apply (proj1 H2 HY).
    + done.
Qed.

Lemma run_one_tick_shrinks st tr :
  (run_one_tick st).1 = (tr, Return tt) ->
  length (_runnable_sequence (run_one_tick st).2)
    < length (_runnable_sequence st).
Proof.
  unfold run_one_tick.
  destruct (next_needed (needed_runnables st) (_runnable_sequence st))
    as [[c it]|] eqn:Hnext; [|done].
  apply next_needed_Some in Hnext as (skipped & -> & _).
  destruct (Runnable_run c (_completed_results st)) as [tr' [v|e]]; [|done].
  destruct (drop_loop _ _ _ _). simpl. intros _.
  rewrite length_app. simpl. lia.
Qed.

Lemma run_and_save_fuel_enough fuel st :
  length (_runnable_sequence st) < fuel -> is_Some (run_and_save_fuel fuel st).
Proof.
  revert st. induction fuel as [|fuel IH]; intros st Hlen; [lia|].
  simpl. destruct (complete st); [eauto|].
  destruct (run_one_tick st) as [[tr [[]|e]] st'] eqn:Htick; [|eauto].
  pose proof (run_one_tick_shrinks st tr) as Hs. rewrite Htick in Hs.
  simpl in Hs. destruct (IH st') as [[[tr' o] st''] ->]; [|eauto].
  specialize (Hs eq_refl). lia.
Qed.

(** *** The scheduler: needed set, cache, selection, exhaustion *)

(** C1.  For a parsed recipe (a DAG by construction), the needed set built
    by [Execution.__init__] is exactly the set of tasks reachable from the
    outputs along dependency edges; and whatever calls of [run_one_tick]
    were made, the task a call runs, and every completed task, is in that
    set. *)
Theorem C1_needed_set_is_reachable_set :
  (forall t, t ∈ needed_runnables st0 <-> reachable_from outputs t) /\
  (forall st c, ticks st0 st -> tick_candidate st = Some c ->
                reachable_from outputs (rid c)) /\
  (forall st t, ticks st0 st -> t ∈ _completed_runnables st ->
                reachable_from outputs t).
Proof.
  clear save_value.
  split_and!.
  - apply needed_spec.
  - intros st c Hst%ticks_inv Hc. unfold tick_candidate in Hc.
    destruct (next_needed _ _) as [[c' it]|] eqn:Hnext; [|done].
    injection Hc as ->.
    apply next_needed_Some in Hnext as (_ & _ & Hn & _).
    apply needed_spec. by rewrite <-(inv_needed _ Hst).
  - intros st t Hst%ticks_inv Ht. apply needed_spec.
    destruct (inv_iterator _ Hst) as (consumed & _ & Hcons).
    by apply Hcons.
Qed.

(** C2, as amended.  After any calls of [run_one_tick], a task with an
    entry in the results is a designated output (still to run or already
    completed) or has, in the index of dependents, a dependent that has not
    completed; put the other way round, a task that is not an output and
    whose dependents have all completed has no entry. *)
Theorem C2_cache_holds_outputs_and_live_results st t :
  ticks st0 st ->
  (is_Some (_completed_results st !! t) ->
   t ∈ rid <$> _output_runnables st \/
   exists s, s ∈ dependents_of st t /\ s ∉ _completed_runnables st) /\
  (t ∉ rid <$> _output_runnables st ->
   set_Forall (fun s => s ∈ _completed_runnables st) (dependents_of st t) ->
   _completed_results st !! t = None).
Proof.
  clear save_value.
  intros Hst%ticks_inv.
  assert (is_Some (_completed_results st !! t) ->
          t ∈ rid <$> _output_runnables st \/
          exists s, s ∈ dependents_of st t /\ s ∉ _completed_runnables st) as H.
  { intros Ht. unfold _output_runnables, dependents_of.
    rewrite (inv_outputs _ Hst), (inv_dependents _ Hst).
    by apply inv_cache. }
  split; [done|]. intros Ho Hall.
  destruct (_completed_results st !! t) eqn:E; [|done].
  destruct H as [?|(s & Hs & Hsc)]; [eauto | done |].
  exfalso. by apply Hsc, Hall.
Qed.


(** *** More on the scheduler: what is kept, what is run, and how often *)

(** A completed task that is an output, or that has a recorded dependent
    still to complete, has its result. *)
Definition kept (st : Execution) : Prop :=
  forall t, t ∈ _completed_runnables st ->
    (t ∈ rid <$> outputs \/
     exists s, s ∈ dependents_of st0 t /\ (s ∉ _completed_runnables st)) ->
    is_Some (_completed_results st !! t).

Lemma kept_init : kept st0.
Proof. intros t Ht. simpl in Ht. set_solver. Qed.

Lemma kept_step st : tick_inv st -> kept st -> kept (run_one_tick st).2.
Proof.
  clear save_value. intros Hinv Hkept.
  destruct (next_needed (needed_runnables st) (_runnable_sequence st))
    as [[c it]|] eqn:Hnext.
  2:{ unfold run_one_tick. by rewrite Hnext. }
  destruct (Runnable_run c (_completed_results st)) as [tr [v|e]] eqn:Hrun.
  2:{ unfold run_one_tick. by rewrite Hnext, Hrun. }
  destruct (run_one_tick_Return _ _ _ _ _ Hinv Hnext Hrun)
    as (results' & -> & Hres).
  intros t Ht Hlive. simpl in *. rewrite Hres.
  rewrite decide_False.
  - destruct (decide (t = rid c)) as [->|Hne].
    + rewrite lookup_insert_eq. eauto.
    + rewrite lookup_insert_ne by done. apply Hkept; [set_solver|].
      destruct Hlive as [?|(s & Hs & Hsc)]; [by left|].
      right. exists s. split; [done | set_solver].
  - intros [_ [Hout Hall]]. unfold _output_runnables in Hout.
    rewrite (inv_outputs _ Hinv) in Hout.
    destruct Hlive as [?|(s & Hs & Hsc)]; [done|].
    apply Hsc, Hall. unfold dependents_of in *.
    by rewrite (inv_dependents _ Hinv).
Qed.

Lemma ticks_kept st : ticks st0 st -> kept st.
Proof.
  clear save_value.
  induction 1 as [|st Hst IH]; [apply kept_init|].
  apply kept_step; [by apply ticks_inv | done].
Qed.

(** What [run_one_tick] leaves of the iterator is a final segment of it. *)
Lemma run_one_tick_suffix st :
  exists l, _runnable_sequence st = l ++ _runnable_sequence (run_one_tick st).2.
Proof.
  unfold run_one_tick.
  destruct (next_needed (needed_runnables st) (_runnable_sequence st))
    as [[c it]|] eqn:Hnext.
  2:{ exists (_runnable_sequence st). simpl. by rewrite app_nil_r. }
  apply next_needed_Some in Hnext as (skipped & -> & _).
  exists (skipped ++ [c]).
  destruct (Runnable_run c (_completed_results st)) as [tr [v|e]]; simpl.
  - destruct (drop_loop _ _ _ _). simpl. by rewrite <-app_assoc.
  - by rewrite <-app_assoc.
Qed.

Lemma ticks_suffix start st :
  ticks start st ->
  exists l, _runnable_sequence start = l ++ _runnable_sequence st.
Proof.
  induction 1 as [|st _ (l & IH)]; [by exists []|].
  destruct (run_one_tick_suffix st) as (l' & Hl').
  exists (l ++ l'). by rewrite IH, Hl', app_assoc.
Qed.

Lemma ticks_trans start st st' : ticks start st -> ticks st st' -> ticks start st'.
Proof. intros H1 H2. induction H2; [done | by constructor]. Qed.

(** What the iterator holds after a call that found the candidate [c]. *)
Lemma run_one_tick_iterator st c it :
  next_needed (needed_runnables st) (_runnable_sequence st) = Some (c, it) ->
  _runnable_sequence (run_one_tick st).2 = it.
Proof.
  intros Hnext. unfold run_one_tick. rewrite Hnext.
  destruct (Runnable_run c (_completed_results st)) as [tr [v|e]]; [|done].
  by destruct (drop_loop _ _ _ _).
Qed.

(** The completed set after a call: unchanged, or with the candidate. *)
Lemma run_one_tick_completed st :
  _completed_runnables (run_one_tick st).2 = _completed_runnables st \/
  exists c, tick_candidate st = Some c /\
    _completed_runnables (run_one_tick st).2
      = {[rid c]} ∪ _completed_runnables st.
Proof.
  unfold run_one_tick, tick_candidate.
  destruct (next_needed (needed_runnables st) (_runnable_sequence st))
    as [[c it]|]; [|by left].
  destruct (Runnable_run c (_completed_results st)) as [tr [v|e]]; [|by left].
  destruct (drop_loop _ _ _ _). right. by exists c.
Qed.

(** Once a call has selected [c], no later call selects a runnable with the
    identity of [c]. *)
Lemma selected_once st c st' c' :
  tick_inv st -> tick_candidate st = Some c ->
  ticks (run_one_tick st).2 st' -> tick_candidate st' = Some c' ->
  rid c' <> rid c.
Proof.
  intros Hinv Hc Hst' Hc'. unfold tick_candidate in Hc, Hc'.
  destruct (next_needed _ (_runnable_sequence st)) as [[c0 it]|] eqn:Hnext;
    [|done]. injection Hc as ->.
  destruct (next_needed _ (_runnable_sequence st')) as [[c1 it']|] eqn:Hnext';
    [|done]. injection Hc' as ->.
  apply ticks_suffix in Hst' as (l & Hl).
  rewrite (run_one_tick_iterator _ _ _ Hnext) in Hl.
  apply next_needed_Some in Hnext as (skipped & Hit & _).
  apply next_needed_Some in Hnext' as (skipped' & Hit' & _).
  destruct (inv_iterator _ Hinv) as (consumed & Hseq & _).
  pose proof (wf_unique _ _ Hwf) as Hnd.
  rewrite Hseq, Hit, Hl, Hit' in Hnd.
  rewrite !fmap_app, !fmap_cons, !fmap_app, !fmap_cons in Hnd.
  apply NoDup_app in Hnd as (_ & _ & Hnd).
  apply NoDup_app in Hnd as (_ & _ & Hnd).
  apply NoDup_cons in Hnd as [Hnd _]. intros E. apply Hnd. set_solver.
Qed.

(** Every dependency of a task of the sequence is declared before it. *)
Definition topological (sq : list Runnable) : Prop :=
  forall l1 x l2 d, sq = l1 ++ x :: l2 -> dep x d -> d ∈ l1.

(** [n] calls of [run_one_tick] from [start], every one having returned. *)
Inductive ticks_ok_n (start : Execution) : nat -> Execution -> Prop :=
| ticks_ok_n_O : ticks_ok_n start 0 start
| ticks_ok_n_S n st tr :
    ticks_ok_n start n st ->
    (run_one_tick st).1 = (tr, Return tt) ->
    ticks_ok_n start (S n) (run_one_tick st).2.

Lemma ticks_ok_n_ticks_ok start n st : ticks_ok_n start n st -> ticks_ok start st.
Proof. induction 1; [constructor | by econstructor]. Qed.

(** X1.  The index of dependents built by [build_graph]: the dependents
    recorded for [t] are the needed tasks that reference [t], and no others;
    a recorded dependent and the task it depends on are both needed; and [t]
    has an entry exactly when some needed task references it. *)
Theorem X1_dependents_index_holds_the_needed_referrers t s :
  (s ∈ dependents_of st0 t <->
   exists x e, x ∈ sequence /\ rid x ∈ needed_runnables st0 /\
               dep x e /\ rid e = t /\ rid x = s) /\
  (s ∈ dependents_of st0 t ->
   s ∈ needed_runnables st0 /\ t ∈ needed_runnables st0) /\
  (is_Some (runnable_dependents st0 !! t) <->
   exists s', s' ∈ dependents_of st0 t).
Proof.
  assert (s ∈ dependents_of st0 t <->
          exists x e, x ∈ sequence /\ rid x ∈ needed_runnables st0 /\
                      dep x e /\ rid e = t /\ rid x = s) as Hiff.
  { rewrite dependents_spec. split.
    - intros (o & x & e & Ho & Hx & He & Et & Es). exists x, e.
      split_and!; try done.
      + eapply sequence_reach; [|done]. by apply Hwf.
      + apply needed_spec. by exists o, x.
    - intros (x & e & Hx & Hn & He & Et & Es).
      destruct (needed_reached x Hx Hn) as (o & Ho & Hr). by exists o, x, e. }
  split_and!.
  - done.
  - rewrite dependents_spec. intros (o & x & e & Ho & Hx & He & Et & Es).
    split; apply needed_spec.
    + by exists o, x.
    + exists o, e. split_and!; [done | by eapply rtc_r | done].
  - rewrite dependents_recorded. split.
    + intros Hne. by apply set_choose_L.
    + intros [s' Hs']. set_solver.
Qed.

(** X2.  What the results hold after any calls of [run_one_tick]: a task has
    an entry exactly when it has completed and is an output or has a recorded
    dependent that has not completed.  So no result is dropped while a
    dependent still has to read it. *)
Theorem X2_results_hold_exactly_the_live_tasks st t :
  ticks st0 st ->
  (is_Some (_completed_results st !! t) <->
   t ∈ _completed_runnables st /\
   (t ∈ rid <$> _output_runnables st \/
    exists s, s ∈ dependents_of st t /\ s ∉ _completed_runnables st)).
Proof.
  clear save_value. intros Hst.
  pose proof (ticks_inv _ Hst) as Hinv. pose proof (ticks_kept _ Hst) as Hkept.
  unfold _output_runnables, dependents_of.
  rewrite (inv_outputs _ Hinv), (inv_dependents _ Hinv). split.
  - intros Ht. split; [by apply inv_results | by apply inv_cache].
  - intros [Hc Hlive]. by apply Hkept.
Qed.

(** X3.  A task is selected at most once in an execution: once a call of
    [run_one_tick] has taken it from the iterator, whether its run returned
    or raised, no later call selects it. *)
Theorem X3_task_selected_at_most_once st c st' c' :
  ticks st0 st -> tick_candidate st = Some c ->
  ticks (run_one_tick st).2 st' -> tick_candidate st' = Some c' ->
  rid c' <> rid c.
Proof.
  clear save_value. intros Hst. apply selected_once. by apply ticks_inv.
Qed.

(** X4.  After a call of [run_one_tick] in which the run of the selected
    task raised, the execution never completes, whatever further calls are
    made: the task is needed and never enters the completed set. *)
Theorem X4_failed_task_blocks_completion st c tr e st' :
  ticks st0 st -> tick_candidate st = Some c ->
  Runnable_run c (_completed_results st) = (tr, Raise e) ->
  ticks (run_one_tick st).2 st' ->
  complete st' = false /\ rid c ∉ _completed_runnables st'.
Proof.
  clear save_value. intros Hst Hc Hrun Hst'.
  pose proof (ticks_inv _ Hst) as Hinv.
  assert (rid c ∉ _completed_runnables st') as Hnot.
  { induction Hst' as [|st'' Hst'' IH].
    - unfold tick_candidate in Hc.
      destruct (next_needed _ _) as [[c0 it]|] eqn:Hnext; [|done].
      injection Hc as ->. unfold run_one_tick. rewrite Hnext, Hrun. simpl.
      apply next_needed_Some in Hnext as (skipped & Hit & _).
      by eapply pending_not_completed.
    - destruct (run_one_tick_completed st'') as [->|(c'' & Hc'' & ->)];
        [done|].
      pose proof (selected_once _ _ _ _ Hinv Hc Hst'' Hc''). set_solver. }
  split; [|done].
  destruct (complete st') eqn:Hcomplete; [|done]. exfalso. apply Hnot.
  assert (ticks st0 st') as Hall.
  { eapply ticks_trans; [|done]. by constructor. }
  pose proof (ticks_inv _ Hall) as Hinv'.
  unfold tick_candidate in Hc.
  destruct (next_needed _ _) as [[c0 it]|] eqn:Hnext; [|done].
  injection Hc as ->.
  apply next_needed_Some in Hnext as (skipped & Hit & Hn & _).
  apply complete_all_completed; [done | done | |].
  - exact (candidate_in_sequence st skipped c it Hinv Hit).
  - by rewrite (inv_needed _ Hinv'), <-(inv_needed _ Hinv).
Qed.

(** X5.  After [n] calls of [run_one_tick] that all returned, exactly [n]
    tasks have completed, all of them needed; and when the execution is
    complete, the completed tasks are exactly the needed ones, so completion
    takes as many calls as there are needed tasks. *)
Theorem X5_one_task_per_tick_and_all_needed_at_completion st n :
  ticks_ok_n st0 n st ->
  size (_completed_runnables st) = n /\
  _completed_runnables st ⊆ needed_runnables st /\
  (complete st = true ->
   _completed_runnables st = needed_runnables st /\
   n = size (needed_runnables st)).
Proof.
  clear save_value. intros Hn.
  assert (size (_completed_runnables st) = n) as Hsize.
  { induction Hn as [|n st tr Hn IH Hret]; [done|].
    pose proof (ticks_inv _ (ticks_ok_ticks _ (ticks_ok_n_ticks_ok _ _ _ Hn)))
      as Hinv.
    destruct (next_needed (needed_runnables st) (_runnable_sequence st))
      as [[c it]|] eqn:Hnext.
    2:{ unfold run_one_tick in Hret. by rewrite Hnext in Hret. }
    destruct (Runnable_run c (_completed_results st)) as [tr' [v|e]] eqn:Hrun.
    2:{ unfold run_one_tick in Hret. by rewrite Hnext, Hrun in Hret. }
    destruct (run_one_tick_Return _ _ _ _ _ Hinv Hnext Hrun)
      as (results' & -> & _). simpl.
    apply next_needed_Some in Hnext as (skipped & Hit & _).
    pose proof (pending_not_completed _ _ _ _ Hinv Hit).
    rewrite size_union by set_solver. rewrite size_singleton. lia. }
  pose proof (ticks_inv _ (ticks_ok_ticks _ (ticks_ok_n_ticks_ok _ _ _ Hn)))
    as Hinv.
  assert (_completed_runnables st ⊆ needed_runnables st) as Hsub.
  { intros t Ht. rewrite (inv_needed _ Hinv).
    destruct (inv_iterator _ Hinv) as (consumed & _ & Hcons). by apply Hcons. }
  split_and!; [done | done |]. intros Hcomplete.
  assert (_completed_runnables st = needed_runnables st) as E.
  { apply set_eq. intros t. split; [apply Hsub|]. intros Ht.
    pose proof Ht as Ht'. rewrite (inv_needed _ Hinv) in Ht'.
    apply needed_spec in Ht' as (o & x & Ho & Hx & <-).
    apply complete_all_completed; [done | done | | done].
    eapply sequence_reach; [|done]. by apply Hwf. }
  split; [done|]. by rewrite <-E.
Qed.

Lemma dependencies_cached st c d :
  topological sequence -> ticks_ok st0 st ->
  tick_candidate st = Some c -> dep c d ->
  is_Some (_completed_results st !! rid d).
Proof.
  clear save_value. intros Htopo Hok Hc Hd.
  pose proof (ticks_ok_ticks _ Hok) as Hst.
  pose proof (ticks_inv _ Hst) as Hinv.
  destruct (ticks_ok_consumed _ Hok) as (consumed & Hseq & Hcons).
  unfold tick_candidate in Hc.
  destruct (next_needed _ _) as [[c0 it]|] eqn:Hnext; [|done].
  injection Hc as ->.
  apply next_needed_Some in Hnext as (skipped & Hit & Hn & Hskip).
  rewrite (inv_needed _ Hinv) in Hn, Hskip.
  pose proof (candidate_in_sequence _ _ _ _ Hinv Hit) as Hcs.
  assert (rid d ∈ needed_runnables st0) as Hdn.
  { destruct (needed_reached c Hcs Hn) as (o & Ho & Hr).
    apply needed_spec. exists o, d. split_and!; [done | by eapply rtc_r | done]. }
  assert (d ∈ consumed ++ skipped) as Hdin.
  { apply (Htopo (consumed ++ skipped) c it d); [|done].
    by rewrite Hseq, Hit, <-app_assoc. }
  apply elem_of_app in Hdin as [Hdin|Hdin].
  2:{ rewrite Forall_forall in Hskip. by apply Hskip in Hdin. }
  apply (ticks_kept _ Hst); [by apply Hcons|].
  right. exists (rid c). split.
  - by apply needed_dependency_recorded.
  - by eapply pending_not_completed.
Qed.

(** X6.  When every task of the sequence is declared after the tasks it
    references, and the calls so far all returned, the results of all the
    dependencies of the task that [run_one_tick] selects are there: the
    scheduler never makes [run] look up a missing result. *)
Theorem X6_dependencies_cached_when_selected st c d :
  topological sequence -> ticks_ok st0 st ->
  tick_candidate st = Some c -> dep c d ->
  is_Some (_completed_results st !! rid d).
Proof. apply dependencies_cached. Qed.

(** *** Saving *)

(** The events of writing the pairs of a destination and a value. *)
Definition writes (pairs : list (string * Value)) : list Event :=
  (fun pv => EvSave pv.1 pv.2) <$> pairs.

Lemma saved_outputs_app tr1 tr2 :
  saved_outputs (tr1 ++ tr2) = saved_outputs tr1 ++ saved_outputs tr2.
Proof. unfold saved_outputs. apply omap_app. Qed.

Lemma saved_outputs_writes pairs : saved_outputs (writes pairs) = pairs.
Proof.
  induction pairs as [|[p v] pairs IH]; [done|].
  unfold saved_outputs, writes in *. rewrite fmap_cons. simpl. by f_equal.
Qed.

Lemma Runnable_run_saves_nothing c results :
  saved_outputs (Runnable_run c results).1 = [].
Proof.
  unfold Runnable_run. rewrite bind_eq.
  assert (saved_outputs (mapM (resolve_input results) (_inputs c)).1 = [])
    as Hin.
  { induction (_inputs c) as [|a l IH]; [done|]. simpl.
    rewrite bind_eq.
    assert (saved_outputs (resolve_input results a).1 = []) as Ha.
    { destruct a as [r|p|v]; simpl; [by destruct (results !! rid r) | | done].
      unfold TypedFileProvider_load. rewrite bind_eq. simpl.
      by destruct (loaders (object_class p)). }
    destruct (resolve_input results a) as [tr [w|e]]; simpl in *; [|done].
    rewrite bind_eq.
    destruct (mapM (resolve_input results) l) as [tr' [ws|e]]; simpl in *;
      rewrite ?saved_outputs_app, ?Ha, ?IH; done. }
  destruct (mapM (resolve_input results) (_inputs c)) as [tr [vs|e]];
    simpl in *; [|done].
  rewrite saved_outputs_app, Hin.
  by destruct (algorithm_run (_algorithm_instance c) vs).
Qed.

Lemma run_one_tick_saves_nothing st :
  saved_outputs (run_one_tick st).1.1 = [].
Proof.
  unfold run_one_tick.
  destruct (next_needed (needed_runnables st) (_runnable_sequence st))
    as [[c it]|]; [|done].
  pose proof (Runnable_run_saves_nothing c (_completed_results st)) as H.
  destruct (Runnable_run c (_completed_results st)) as [tr [v|e]]; [|done].
  by destruct (drop_loop _ _ _ _).
Qed.

Lemma save_all st outs vs paths :
  Forall2 (fun o v => _completed_results st !! rid o = Some v) outs vs ->
  (forall p v, (p, v) ∈ zip paths vs -> save_value v p = Return tt) ->
  exists us, mapM (save_one st) (zip outs paths)
             = (writes (zip paths vs), Return us).
Proof.
  intros HF. revert paths.
  induction HF as [|o v outs vs Hv _ IH]; intros paths Hsave.
  { exists []. by destruct paths. }
  destruct paths as [|p paths]; [by exists []|]. simpl.
  rewrite Hv, (Hsave p v) by left. destruct (IH paths) as [us Hus].
  { intros p' v' H. apply Hsave. by right. }
  exists (tt :: us). rewrite bind_eq. simpl. rewrite bind_eq, Hus. simpl.
  by rewrite app_nil_r.
Qed.

Lemma save_first_failure st outs vs paths l1 p v l2 e :
  Forall2 (fun o v => _completed_results st !! rid o = Some v) outs vs ->
  zip paths vs = l1 ++ (p, v) :: l2 ->
  (forall p' v', (p', v') ∈ l1 -> save_value v' p' = Return tt) ->
  save_value v p = Raise e ->
  mapM (save_one st) (zip outs paths) = (writes l1, Raise e).
Proof.
  intros HF. revert paths l1.
  induction HF as [|o w outs vs Hw _ IH]; intros paths l1 Hzip Hl1 Hfail.
  { destruct paths, l1; done. }
  destruct paths as [|q paths]; [by destruct l1|]. simpl in *. rewrite Hw.
  destruct l1 as [|[p1 v1] l1]; simpl in *.
  - injection Hzip as -> -> _. by rewrite Hfail.
  - injection Hzip as -> -> Hzip. rewrite (Hl1 p1 v1) by left.
    rewrite bind_eq. simpl.
    rewrite (IH paths l1 Hzip); [done | | done].
    intros p' v' H. apply Hl1. by right.
Qed.

Lemma save_inv st outs vs paths tr o :
  Forall2 (fun o v => _completed_results st !! rid o = Some v) outs vs ->
  mapM (save_one st) (zip outs paths) = (tr, o) ->
  (exists us, o = Return us /\ tr = writes (zip paths vs)) \/
  (exists e v p, o = Raise e /\ save_value v p = Raise e).
Proof.
  intros HF. revert paths tr o.
  induction HF as [|r w outs vs Hw _ IH]; intros paths tr o.
  { destruct paths; intros [= <- <-]; left; by exists []. }
  destruct paths as [|q paths]; [intros [= <- <-]; left; by exists []|].
  simpl. rewrite Hw. destruct (save_value w q) as [[]|e] eqn:Hsave.
  - rewrite bind_eq. simpl. rewrite bind_eq.
    destruct (mapM (save_one st) (zip outs paths)) as [tr' o'] eqn:Hrest.
    destruct (IH paths tr' o' Hrest)
      as [(us & -> & ->) | (e & v & p & -> & Hfail)]; simpl.
    + intros [= <- <-]. left. exists (tt :: us). by rewrite app_nil_r.
    + intros [= <- <-]. right. by exists e, v, p.
  - intros [= <- <-]. right. by exists e, w, q.
Qed.

Lemma Forall2_choice {A B} (P : A -> B -> Prop) (l : list A) :
  (forall a, a ∈ l -> exists b, P a b) -> exists k, Forall2 P l k.
Proof.
  induction l as [|a l IH]; intros H; [by exists []|].
  destruct (H a) as [b Hb]; [left|].
  destruct IH as [k Hk]; [intros a' Ha'; apply H; by right|].
  exists (b :: k). by constructor.
Qed.

(** In a complete execution every output has its result. *)
Lemma complete_outputs_cached st :
  ticks st0 st -> complete st = true ->
  exists vs, Forall2 (fun o v => _completed_results st !! rid o = Some v)
               (_output_runnables st) vs.
Proof.
  clear save_value. intros Hst Hc. pose proof (ticks_inv _ Hst) as Hinv.
  apply Forall2_choice. intros o Ho. unfold _output_runnables in Ho.
  rewrite (inv_outputs _ Hinv) in Ho.
  apply (ticks_kept _ Hst).
  - apply complete_all_completed; [done | done | by apply Hwf |].
    rewrite (inv_needed _ Hinv). apply needed_spec.
    exists o, o. split_and!; [done | apply rtc_refl | done].
  - left. by apply list_elem_of_fmap_2.
Qed.

Lemma incomplete_has_candidate st :
  ticks_ok st0 st -> complete st = false ->
  is_Some (next_needed (needed_runnables st) (_runnable_sequence st)).
Proof.
  clear save_value. intros Hok Hc.
  pose proof (ticks_inv _ (ticks_ok_ticks _ Hok)) as Hinv.
  destruct (ticks_ok_consumed _ Hok) as (consumed & Hseq & Hcons).
  unfold complete in Hc. apply bool_decide_eq_false in Hc.
  rewrite (inv_incomplete _ Hinv) in Hc.
  assert (exists t, t ∈ (list_to_set (rid <$> outputs) : gset nat)
                      ∖ _completed_runnables st) as (t & Ht).
  { apply set_choose_L. intros E. apply Hc. rewrite E. apply size_empty. }
  apply elem_of_difference in Ht as [Ht Htc].
  apply elem_of_list_to_set, list_elem_of_fmap in Ht as (o & -> & Ho).
  assert (rid o ∈ needed_runnables st0) as Hn.
  { apply needed_spec. exists o, o. split_and!; [done | apply rtc_refl | done]. }
  pose proof (wf_outputs _ _ Hwf o Ho) as Hos. rewrite Hseq in Hos.
  apply elem_of_app in Hos as [Hos|Hos]; [by apply Hcons in Hos|].
  destruct (next_needed _ _) as [p|] eqn:Hnext; [by eexists|].
  apply next_needed_None in Hnext. rewrite Forall_forall in Hnext.
  exfalso. apply (Hnext o Hos). by rewrite (inv_needed _ Hinv).
Qed.

(** X7.  [save] on a complete execution finds the result of every output:
    when every write succeeds it writes, in order, the result of each output
    to the destination paired with it and returns; when a write raises, the
    outputs before it have been written, the others have not, and the
    exception leaves [save] as it is. *)
Theorem X7_save_writes_each_output_to_its_destination st :
  ticks st0 st -> complete st = true ->
  exists vs,
    Forall2 (fun o v => _completed_results st !! rid o = Some v)
      (_output_runnables st) vs /\
    ((forall p v, (p, v) ∈ zip (_output_paths st) vs ->
                  save_value v p = Return tt) ->
     save st = (writes (zip (_output_paths st) vs), Return tt)) /\
    (forall l1 p v l2 e,
       zip (_output_paths st) vs = l1 ++ (p, v) :: l2 ->
       (forall p' v', (p', v') ∈ l1 -> save_value v' p' = Return tt) ->
       save_value v p = Raise e ->
       save st = (writes l1, Raise e)).
Proof.
  intros Hst Hc. destruct (complete_outputs_cached st Hst Hc) as [vs Hvs].
  exists vs. split_and!; [done | |].
  - intros Hall. unfold save. rewrite Hc.
    destruct (save_all st _ vs (_output_paths st) Hvs Hall) as [us Hus].
    rewrite bind_eq, Hus. simpl. by rewrite app_nil_r.
  - intros l1 p v l2 e Hzip Hl1 Hfail. unfold save. rewrite Hc.
    rewrite bind_eq.
    by rewrite (save_first_failure st _ vs _ l1 p v l2 e Hvs Hzip Hl1 Hfail).
Qed.

Lemma run_and_save_fuel_outcome fuel st1 tr o st :
  ticks_ok st0 st1 ->
  run_and_save_fuel fuel st1 = Some ((tr, o), st) ->
  match o with
  | Return _ =>
      ticks_ok st0 st /\ complete st = true /\
      exists vs,
        Forall2 (fun o v => _completed_results st !! rid o = Some v)
          (_output_runnables st) vs /\
        saved_outputs tr = zip (_output_paths st) vs
  | Raise e =>
      (exists st' c tr',
         ticks_ok st0 st' /\ complete st' = false /\
         tick_candidate st' = Some c /\
         Runnable_run c (_completed_results st') = (tr', Raise e) /\
         st = (run_one_tick st').2 /\ saved_outputs tr = []) \/
      (ticks_ok st0 st /\ complete st = true /\
       exists v p, save_value v p = Raise e)
  end.
Proof.
  revert st1 tr. induction fuel as [|fuel IH]; intros st1 tr Hok; simpl.
  - destruct (complete st1) eqn:Hc; [|done]. intros [= Hsave <-].
    pose proof (ticks_ok_ticks _ Hok) as Hst.
    destruct (complete_outputs_cached st1 Hst Hc) as [vs Hvs].
    unfold save in Hsave. rewrite Hc, bind_eq in Hsave.
    destruct (mapM (save_one st1) _) as [tr1 o1] eqn:Hm.
    destruct (save_inv st1 _ vs _ _ _ Hvs Hm)
      as [(us & -> & ->) | (e & v & p & -> & Hfail)]; simpl in Hsave.
    + injection Hsave as <- <-. split_and!; [done | done |].
      exists vs. split; [done|].
      by rewrite app_nil_r, saved_outputs_writes.
    + injection Hsave as <- <-. right. split_and!; [done | done |]. eauto.
  - destruct (complete st1) eqn:Hc.
    + intros [= Hsave <-].
      pose proof (ticks_ok_ticks _ Hok) as Hst.
      destruct (complete_outputs_cached st1 Hst Hc) as [vs Hvs].
      unfold save in Hsave. rewrite Hc, bind_eq in Hsave.
      destruct (mapM (save_one st1) _) as [tr1 o1] eqn:Hm.
      destruct (save_inv st1 _ vs _ _ _ Hvs Hm)
        as [(us & -> & ->) | (e & v & p & -> & Hfail)]; simpl in Hsave.
      * injection Hsave as <- <-. split_and!; [done | done |].
        exists vs. split; [done|].
        by rewrite app_nil_r, saved_outputs_writes.
      * injection Hsave as <- <-. right. split_and!; [done | done |]. eauto.
    + pose proof (ticks_inv _ (ticks_ok_ticks _ Hok)) as Hinv.
      destruct (incomplete_has_candidate st1 Hok Hc) as [[c it] Hnext].
      pose proof (run_one_tick_saves_nothing st1) as Hnosave.
      destruct (Runnable_run c (_completed_results st1)) as [tr1 [v|e]]
        eqn:Hrun.
      * destruct (run_one_tick_Return _ _ _ _ _ Hinv Hnext Hrun)
          as (results' & Htick & _).
        assert (ticks_ok st0 (run_one_tick st1).2) as Hok'.
        { eapply ticks_ok_step; [done|]. by rewrite Htick. }
        rewrite Htick in Hnosave, Hok' |- *. simpl in Hnosave.
        destruct (run_and_save_fuel fuel _) as [[[tr' o'] st'']|] eqn:Hrec;
          [|done].
        intros [= <- <- <-]. specialize (IH _ _ Hok' Hrec).
        destruct o' as [u|e].
        -- destruct IH as (? & ? & vs & ? & Hs). split_and!; [done | done |].
           exists vs. split; [done|]. by rewrite saved_outputs_app, Hnosave.
        -- destruct IH as [(st' & c' & tr'' & ? & ? & ? & ? & ? & Hs) | ?];
             [|by right].
           left. exists st', c', tr''. split_and!; try done.
           by rewrite saved_outputs_app, Hnosave, Hs.
      * unfold run_one_tick in Hnosave |- *. rewrite Hnext, Hrun in Hnosave |- *.
        intros [= <- <- <-]. left. exists st1, c, tr1.
        split_and!; try done.
        -- unfold tick_candidate. by rewrite Hnext.
        -- unfold run_one_tick. by rewrite Hnext, Hrun.
Qed.

(** C10.  After any calls of [run_one_tick], a further call made when the
    iterator holds no needed task any more (every needed task has been taken
    by an earlier call, whether its run returned or raised), in particular
    when every needed task of the sequence has completed or the execution is
    complete, raises [StopIteration] (the iterator is exhausted) and emits
    nothing: it is not a no-op.  [run_and_save] tests [complete] before each
    call: it only calls [run_one_tick] on an execution that is not complete
    after calls that all returned, where the iterator still holds a needed
    task.  So [run_and_save] ends without exhausting the iterator: what it
    raises, if anything, is what the run of a selected task or a write
    raised.  And in the execution it leaves when it has returned, one more
    call of [run_one_tick], as a loop without the test would make, raises
    [StopIteration]. *)
Theorem C10_tick_on_exhausted_sequence_raises :
  (forall st, ticks st0 st ->
     ((forall x, x ∈ _runnable_sequence st -> rid x ∉ needed_runnables st) ->
      run_one_tick st = (([], Raise StopIteration), set_iterator st [])) /\
     ((forall x, x ∈ sequence -> rid x ∈ needed_runnables st ->
                 rid x ∈ _completed_runnables st) ->
      run_one_tick st = (([], Raise StopIteration), set_iterator st [])) /\
     (complete st = true ->
      run_one_tick st = (([], Raise StopIteration), set_iterator st [])) /\
     (ticks_ok st0 st -> complete st = false -> is_Some (tick_candidate st))) /\
  exists tr o st,
    run_and_save st0 = Some ((tr, o), st) /\
    match o with
    | Return _ =>
        ticks_ok st0 st /\ complete st = true /\
        run_one_tick st = (([], Raise StopIteration), set_iterator st [])
    | Raise e =>
        (exists st' c tr',
           ticks_ok st0 st' /\ complete st' = false /\
           tick_candidate st' = Some c /\
           Runnable_run c (_completed_results st') = (tr', Raise e) /\
           st = (run_one_tick st').2) \/
        (ticks_ok st0 st /\ complete st = true /\
         exists v p, save_value v p = Raise e)
    end.
Proof.
  split.
  - intros st Hst. pose proof (ticks_inv _ Hst) as Hinv. split_and!.
    + intros Hnone. apply run_one_tick_StopIteration, next_needed_None.
      by apply Forall_forall.
    + intros Hall. by apply run_one_tick_StopIteration, exhausted.
    + intros Hc. apply run_one_tick_StopIteration, exhausted; [done|].
      intros x Hx Hn. by apply complete_all_completed.
    + intros Hok Hc. destruct (incomplete_has_candidate st Hok Hc) as [p Hp].
      unfold tick_candidate. rewrite Hp. by eexists.
  - destruct (run_and_save_fuel_enough (S (length (_runnable_sequence st0)))
                st0) as [[[tr o] st] Hrun]; [lia|].
    exists tr, o, st. split; [done|].
    pose proof (run_and_save_fuel_outcome _ _ _ _ _ (ticks_ok_refl _) Hrun)
      as Hout.
    destruct o as [u|e].
    + destruct Hout as (Hok & Hc & _). split_and!; [done | done |].
      pose proof (ticks_inv _ (ticks_ok_ticks _ Hok)) as Hinv.
      apply run_one_tick_StopIteration, exhausted; [done|].
      intros x Hx Hn. by apply complete_all_completed.
    + destruct Hout as [(st' & c & tr' & ? & ? & ? & ? & ? & _) | Hw].
      * left. by exists st', c, tr'.
      * by right.
Qed.

(** X8.  [run_and_save] on a fresh execution ends, and this is what it ends
    in.  When it returns, the execution is complete after calls of
    [run_one_tick] that all returned, and what has been written is, in order,
    the result of each output at the destination paired with it.  When it
    raises, either the run of the task selected by a call raised that
    exception, before anything was written, or the execution was complete
    and a write raised it: it never raises from the iterator being
    exhausted, from a missing result at [save], or from the loop that drops
    results. *)
Theorem X8_run_and_save_returns_saved_or_raises_from_a_task :
  exists tr o st,
    run_and_save st0 = Some ((tr, o), st) /\
    match o with
    | Return _ =>
        ticks_ok st0 st /\ complete st = true /\
        exists vs,
          Forall2 (fun o v => _completed_results st !! rid o = Some v)
            (_output_runnables st) vs /\
          saved_outputs tr = zip (_output_paths st) vs
    | Raise e =>
        (exists st' c tr',
           ticks_ok st0 st' /\ complete st' = false /\
           tick_candidate st' = Some c /\
           Runnable_run c (_completed_results st') = (tr', Raise e) /\
           st = (run_one_tick st').2 /\ saved_outputs tr = []) \/
        (ticks_ok st0 st /\ complete st = true /\
         exists v p, save_value v p = Raise e)
    end.
Proof.
  destruct (run_and_save_fuel_enough (S (length (_runnable_sequence st0))) st0)
    as [[[tr o] st] Hrun]; [lia|].
  exists tr, o, st. split; [done|].
  eapply run_and_save_fuel_outcome; [|done]. constructor.
Qed.

End run.

(** *** Validation of the outputs of a recipe *)

Lemma ordered_outputs_Return outputs ixs l :
  ordered_outputs outputs ixs = Return l ->
  Forall2 (fun ix r => outputs !! ix = Some (ObjRunnable r)) ixs l.
Proof.
  revert l. induction ixs as [|ix ixs IH]; intros l; simpl.
  - intros [= <-]. constructor.
  - destruct (outputs !! ix) as [[r|v]|] eqn:E; [|done|done].
    destruct (ordered_outputs outputs ixs) as [l'|e]; [|done].
    intros [= <-]. constructor; eauto.
Qed.

Lemma ordered_outputs_Raise outputs ixs e :
  ordered_outputs outputs ixs = Raise e -> isinstance_AssertionError e = true.
Proof.
  induction ixs as [|ix ixs IH]; simpl; [done|].
  destruct (outputs !! ix) as [[r|v]|]; [|by intros [= <-]|by intros [= <-]].
  destruct (ordered_outputs outputs ixs) as [l'|e']; [done|].
  intros [= <-]. by apply IH.
Qed.

(** When every index below the size is bound, the keys are those indices. *)
Lemma keys_are_indices (outputs : gmap Z PyObj) k :
  (forall ix : nat, ix < size outputs -> is_Some (outputs !! Z.of_nat ix)) ->
  is_Some (outputs !! k) -> exists ix : nat, ix < size outputs /\ k = Z.of_nat ix.
Proof.
  intros Hall Hk.
  set (ixs := Z.of_nat <$> seq 0 (size outputs)).
  assert (NoDup ixs) as Hnd.
  { apply NoDup_fmap_2; [apply _ | apply NoDup_seq]. }
  assert ((list_to_set ixs : gset Z) ⊆ dom outputs) as Hsub.
  { intros z (ix & -> & Hix%elem_of_seq)%elem_of_list_to_set%list_elem_of_fmap.
    apply elem_of_dom, Hall. lia. }
  assert (size (dom outputs) <= size (list_to_set ixs : gset Z)) as Hsize.
  { rewrite size_dom, size_list_to_set by done.
    unfold ixs. by rewrite length_fmap, length_seq. }
  pose proof (set_subseteq_size_eq _ _ Hsub Hsize) as Heq.
  apply elem_of_dom in Hk. rewrite <-Heq in Hk.
  apply elem_of_list_to_set, list_elem_of_fmap in Hk as (ix & -> & Hix%elem_of_seq).
  exists ix. split; [lia | done].
Qed.

(** C4, as amended.  When the validation after the script fails (the number
    of outputs differs from the number of destinations, an index below that
    number is not bound, or some value is not a [Runnable]), the construction
    of the recipe raises an [AssertionError], which is not a [RecipeError],
    and no recipe is produced. *)
Theorem C4_invalid_outputs_raise_AssertionError
    (ordered_sequence : list Runnable) (outputs : gmap Z PyObj)
    (output_paths : list string) :
  validation_fails outputs output_paths ->
  exists e, Recipe_init ordered_sequence outputs output_paths = Raise e /\
            isinstance_AssertionError e = true /\
            isinstance_RecipeError e = false.
Proof.
  intros Hfail. unfold Recipe_init.
  destruct (decide (size outputs = length output_paths)) as [Hsize|Hsize].
  2:{ eexists. split; [done|]. done. }
  destruct (ordered_outputs outputs (Z.of_nat <$> seq 0 (size outputs)))
    as [l|e] eqn:Hord.
  2:{ exists e. split; [done|]. apply ordered_outputs_Raise in Hord.
      split; [done|]. by destruct e. }
  exfalso. apply ordered_outputs_Return in Hord.
  assert (forall ix : nat, ix < size outputs ->
            exists r, outputs !! Z.of_nat ix = Some (ObjRunnable r)) as Hall.
  { intros ix Hix.
    assert ((Z.of_nat <$> seq 0 (size outputs)) !! ix = Some (Z.of_nat ix))
      as Hl.
    { rewrite list_lookup_fmap, lookup_seq_lt by done. done. }
    destruct (Forall2_lookup_l _ _ _ _ _ Hord Hl) as (r & _ & Hr). eauto. }
  destruct Hfail as [H | [(ix & Hix & Hnone) | (k & v & Hk)]].
  - done.
  - destruct (Hall ix Hix) as [r Hr]. congruence.
  - destruct (keys_are_indices outputs k) as (ix & Hix & ->).
    + intros ix Hix. destruct (Hall ix Hix) as [r Hr]. eauto.
    + eauto.
    + destruct (Hall ix Hix) as [r Hr]. congruence.
Qed.

(** *** Construction and run of one task *)

Lemma bind_snd {A B} (m : M A) (k : A -> M B) :
  (m ≫= k).2 = match m.2 with Return a => (k a).2 | Raise e => Raise e end.
Proof. rewrite bind_eq. by destruct m as [tr [a|e]]. Qed.

Lemma bind_snd_ext {A B} (m1 m2 : M A) (k1 k2 : A -> M B) :
  m1.2 = m2.2 -> (forall a, (k1 a).2 = (k2 a).2) ->
  (m1 ≫= k1).2 = (m2 ≫= k2).2.
Proof. intros Hm Hk. rewrite !bind_snd, Hm. by destruct (m2.2). Qed.

Lemma bind_Raise {A B} (m : M A) (k : A -> M B) tr e :
  m = (tr, Raise e) -> (m ≫= k) = (tr, Raise e).
Proof. intros ->. by rewrite bind_eq. Qed.

Lemma bind_Return_eq {A B} (m : M A) (k : A -> M B) tr a :
  m = (tr, Return a) -> (m ≫= k) = (tr ++ (k a).1, (k a).2).
Proof. intros ->. by rewrite bind_eq. Qed.

Lemma format_input_trace x : (format_input x).1 = [].
Proof.
  destruct x as [[r|fp|v] [key annotation]]; simpl; [done| |done].
  unfold TypedFileProvider_new. by destruct (loaders annotation).
Qed.

Lemma mapM_trace_nil {A B} (f : A -> M B) l :
  (forall a, (f a).1 = []) -> (mapM f l).1 = [].
Proof.
  intros Hf. induction l as [|a l IH]; simpl; [done|].
  rewrite bind_eq. specialize (Hf a). destruct (f a) as [tr [b|e]];
    simpl in Hf; subst tr; [|done].
  simpl. rewrite bind_eq. destruct (mapM f l) as [tr' [bs|e]];
    simpl in IH; subst tr'; done.
Qed.

Lemma assert_self_Return parameters on_empty tr keys :
  assert_self parameters on_empty = (tr, Return keys) ->
  tr = [] /\ exists a0, parameters = ("self", a0) :: keys.
Proof.
  unfold assert_self. destruct parameters as [|[first a0] ps]; [done|].
  destruct (decide (first = "self")) as [->|]; [|done].
  intros [= <- <-]. eauto.
Qed.

(** What a construction that returns has gone through. *)
Lemma Runnable_init_Return self_id component algorithm inputs options tr r :
  Runnable_init self_id component algorithm inputs options = (tr, Return r) ->
  exists cls formatted inst a0 keys bound,
    registry component algorithm = Return cls /\
    format_algorithm_options (init_parameters cls) options
      = (tr, Return formatted) /\
    algorithm_new cls formatted = Return inst /\
    run_parameters inst = ("self", a0) :: keys /\
    length inputs <= length keys /\
    mapM format_input (zip inputs keys) = ([], Return bound) /\
    r = MkRunnable self_id component algorithm inst bound.
Proof.
  unfold Runnable_init.
  intros (tr1 & cls & tr2 & Hreg & H & ->)%bind_Return.
  injection Hreg as <- Hreg.
  apply bind_Return in H as (tr3 & ? & tr4 & Hself & H & ->).
  apply assert_self_Return in Hself as [-> _].
  apply bind_Return in H as (tr5 & formatted & tr6 & Hfmt & H & ->).
  apply bind_Return in H as (tr7 & inst & tr8 & Hnew & H & ->).
  destruct (algorithm_new cls formatted) as [inst'|e] eqn:Hinst; [|done].
  injection Hnew as <- <-.
  apply bind_Return in H as (tr9 & keys & tr10 & Hkeys & H & ->).
  apply assert_self_Return in Hkeys as [-> [a0 Hkeys]].
  destruct (decide (length inputs <= length keys)) as [Hlen|]; [|done].
  apply bind_Return in H as (tr11 & bound & tr12 & Hbound & [= <- <-] & ->).
  pose proof (mapM_trace_nil format_input (zip inputs keys) format_input_trace)
    as Htr. rewrite Hbound in Htr. simpl in Htr. subst tr11.
  exists cls, formatted, inst', a0, keys, bound. simpl.
  rewrite !app_nil_r. done.
Qed.

Lemma format_input_Return x tr b :
  format_input x = (tr, Return b) -> bound_as x b.
Proof.
  destruct x as [[r|fp|v] [key annotation]]; unfold bound_as; simpl.
  - by intros [= _ <-].
  - unfold TypedFileProvider_new. destruct (loaders annotation); simpl; [|done].
    by intros [= _ <-].
  - by intros [= _ <-].
Qed.

Lemma resolve_inputs previous_results inputs vs :
  Forall2 (resolves_to previous_results) inputs vs ->
  mapM (resolve_input previous_results) inputs = (loads_of inputs, Return vs).
Proof.
  induction 1 as [|a v inputs vs Ha _ IH]; [done|].
  simpl. rewrite (bind_Return_eq _ _ (loads_of [a]) v).
  - rewrite IH. simpl. unfold loads_of. simpl.
    destruct a; simpl; by rewrite ?app_nil_r.
  - destruct a as [r|p|w]; simpl in *.
    + by rewrite Ha.
    + destruct Ha as (loader & Hl & Hv). unfold TypedFileProvider_load.
      rewrite Hl, Hv. done.
    + by subst.
Qed.

(** What a construction does once the class is found, its constructor is a
    method, and the options are formatted. *)
Lemma Runnable_init_after_options self_id component algorithm inputs options
    cls a ps tr formatted :
  registry component algorithm = Return cls ->
  init_parameters cls = ("self", a) :: ps ->
  format_algorithm_options (init_parameters cls) options
    = (tr, Return formatted) ->
  Runnable_init self_id component algorithm inputs options =
    match algorithm_new cls formatted with
    | Raise e =>
        (tr, Raise (if isinstance_Exception e then ConstructorError e else e))
    | Return inst =>
        match run_parameters inst with
        | [] => (tr, Raise IndexError)
        | (first, _) :: keys =>
            if decide (first = "self") then
              if decide (length inputs <= length keys) then
                (tr ++ (mapM format_input (zip inputs keys)).1,
                 match (mapM format_input (zip inputs keys)).2 with
                 | Return bound =>
                     Return (MkRunnable self_id component algorithm inst bound)
                 | Raise e => Raise e
                 end)
              else (tr, Raise (AssertionError ""))
            else (tr, Raise (AssertionError ""))
        end
    end.
Proof.
  intros Hreg Hinit Hfmt. unfold Runnable_init. rewrite Hreg.
  unfold mbind, M_bind, bind, lift, try_wrap. cbn beta iota.
  rewrite Hfmt. unfold assert_self at 1. rewrite Hinit. cbn.
  destruct (algorithm_new cls formatted) as [inst|e]; cbn.
  2:{ by rewrite app_nil_r. }
  unfold assert_self.
  destruct (run_parameters inst) as [|[first a0] keys]; cbn.
  { by rewrite app_nil_r. }
  destruct (decide (first = "self")); cbn; [|by rewrite app_nil_r].
  destruct (decide (length inputs <= length keys)); cbn;
    [|by rewrite app_nil_r].
  destruct (mapM format_input (zip inputs keys)) as [tr' [bound|e']]; cbn;
    by rewrite ?app_nil_r.
Qed.

(** C6.  A construction that returns has bound each positional input to the
    parameter of [run] at its position (a generic file reference becomes a
    typed one, anything else is kept) and has decoded none of them: its
    events are those of the options.  A run resolves each bound input (the
    previous result for a task, the value decoded then for a typed
    reference, the value itself otherwise), decodes the typed references in
    order, and calls the algorithm on the resolved inputs. *)
Theorem C6_inputs_bound_at_construction_decoded_at_run :
  (forall self_id component algorithm inputs options tr r,
     Runnable_init self_id component algorithm inputs options
       = (tr, Return r) ->
     exists cls a0 keys,
       registry component algorithm = Return cls /\
       run_parameters (_algorithm_instance r) = ("self", a0) :: keys /\
       length (_inputs r) = length inputs /\
       Forall2 bound_as (zip inputs keys) (_inputs r) /\
       tr = (format_algorithm_options (init_parameters cls) options).1) /\
  (forall r previous_results vs,
     Forall2 (resolves_to previous_results) (_inputs r) vs ->
     Runnable_run r previous_results =
       (loads_of (_inputs r),
        match algorithm_run (_algorithm_instance r) vs with
        | Return v => Return v
        | Raise e =>
            Raise (if isinstance_Exception e then ExecutionError e else e)
        end)).
Proof.
  clear ord_perm. split.
  - intros self_id component algorithm inputs options tr r Hinit.
    apply Runnable_init_Return in Hinit
      as (cls & formatted & inst & a0 & keys & bound
          & Hreg & Hfmt & Hnew & Hkeys & Hlen & Hbound & ->).
    exists cls, a0, keys. simpl. rewrite Hfmt. simpl.
    apply mapM_Return in Hbound.
    assert (Forall2 bound_as (zip inputs keys) bound) as HF.
    { eapply Forall2_impl; [exact Hbound|]. intros x b [tr' Hx]. simpl.
      by eapply format_input_Return. }
    split_and!; try done.
    apply Forall2_length in HF. rewrite length_zip_with in HF.
    unfold RawArg, BoundArg in *. lia.
  - intros r previous_results vs Hvs. unfold Runnable_run.
    rewrite (bind_Return_eq _ _ _ _ (resolve_inputs _ _ _ Hvs)).
    destruct (algorithm_run (_algorithm_instance r) vs); simpl;
      by rewrite app_nil_r.
Qed.

(** C7.  An exception (an instance of [Exception]) raised by the
    constructor of the algorithm leaves the construction as a
    [ConstructorError], one raised by the [run] operation leaves [run] as an
    [ExecutionError], both with the exception as their cause; and
    [run_one_tick] lets what [run] raises through. *)
Theorem C7_failures_are_wrapped_with_their_cause :
  (forall self_id component algorithm inputs options cls a ps tr formatted e,
     registry component algorithm = Return cls ->
     init_parameters cls = ("self", a) :: ps ->
     format_algorithm_options (init_parameters cls) options
       = (tr, Return formatted) ->
     algorithm_new cls formatted = Raise e ->
     isinstance_Exception e = true ->
     Runnable_init self_id component algorithm inputs options
       = (tr, Raise (ConstructorError e)) /\
     exc_cause (ConstructorError e) = Some e) /\
  (forall r previous_results vs e,
     Forall2 (resolves_to previous_results) (_inputs r) vs ->
     algorithm_run (_algorithm_instance r) vs = Raise e ->
     isinstance_Exception e = true ->
     Runnable_run r previous_results
       = (loads_of (_inputs r), Raise (ExecutionError e)) /\
     exc_cause (ExecutionError e) = Some e) /\
  (forall st c it tr e,
     next_needed (needed_runnables st) (_runnable_sequence st) = Some (c, it) ->
     Runnable_run c (_completed_results st) = (tr, Raise (ExecutionError e)) ->
     run_one_tick st = ((tr, Raise (ExecutionError e)), set_iterator st it)).
Proof.
  clear ord_perm. split_and!.
  - intros self_id component algorithm inputs options cls a ps tr formatted e
      Hreg Hinit Hfmt Hnew He.
    rewrite (Runnable_init_after_options _ _ _ _ _ _ _ _ _ _ Hreg Hinit Hfmt).
    by rewrite Hnew, He.
  - intros r previous_results vs e Hvs Hrun He. unfold Runnable_run.
    rewrite (bind_Return_eq _ _ _ _ (resolve_inputs _ _ _ Hvs)).
    rewrite Hrun. simpl. by rewrite He, app_nil_r.
  - intros st c it tr e Hnext Hrun. unfold run_one_tick.
    by rewrite Hnext, Hrun.
Qed.

(** C9.  A construction that returns was given no more positional inputs
    than [run] has parameters after [self]; and once the class is found and
    instantiated, a call with more inputs than that raises an
    [AssertionError] during the construction. *)
Theorem C9_too_many_inputs_fail_at_construction
    self_id component algorithm inputs options :
  (forall tr r,
     Runnable_init self_id component algorithm inputs options
       = (tr, Return r) ->
     S (length inputs) <= length (run_parameters (_algorithm_instance r))) /\
  (forall cls a ps tr formatted inst a0 keys,
     registry component algorithm = Return cls ->
     init_parameters cls = ("self", a) :: ps ->
     format_algorithm_options (init_parameters cls) options
       = (tr, Return formatted) ->
     algorithm_new cls formatted = Return inst ->
     run_parameters inst = ("self", a0) :: keys ->
     length keys < length inputs ->
     exists e,
       Runnable_init self_id component algorithm inputs options
         = (tr, Raise e) /\
       isinstance_AssertionError e = true).
Proof.
  clear ord_perm. split.
  - intros tr r Hinit.
    apply Runnable_init_Return in Hinit
      as (cls & formatted & inst & a0 & keys & bound
          & _ & _ & _ & Hkeys & Hlen & _ & ->).
    simpl. rewrite Hkeys. simpl. lia.
  - intros cls a ps tr formatted inst a0 keys Hreg Hinit Hfmt Hnew Hkeys Hlen.
    rewrite (Runnable_init_after_options _ _ _ _ _ _ _ _ _ _ Hreg Hinit Hfmt).
    rewrite Hnew, Hkeys. rewrite decide_True by done.
    rewrite decide_False by lia. eauto.
Qed.

(** *** Calls of [compute] *)

Lemma OrderedSequence_call_Return sq self_id component algorithm inputs
    options tr result sq' :
  OrderedSequence_call sq self_id component algorithm inputs options
    = (tr, Return (result, sq')) ->
  sq' = sq ++ [result] /\ rid result = self_id /\
  forall d, dep result d -> ArgRunnable d ∈ inputs.
Proof.
  unfold OrderedSequence_call.
  intros (tr1 & r & tr2 & Hinit & [= _ <- <-] & _)%bind_Return.
  apply Runnable_init_Return in Hinit
    as (cls & formatted & inst & a0 & keys & bound
        & _ & _ & _ & _ & _ & Hbound & ->).
  split_and!; [done | done |]. intros d Hd.
  apply elem_of_input_runnables in Hd. simpl in Hd.
  apply mapM_Return in Hbound. clear -Hbound Hd.
  revert keys Hbound. generalize dependent bound.
  induction inputs as [|a inputs IH]; intros bound Hd keys Hbound.
  - simpl in Hbound. inversion Hbound; subst. by apply elem_of_nil in Hd.
  - destruct keys as [|key keys]; simpl in Hbound.
    { inversion Hbound; subst. by apply elem_of_nil in Hd. }
    inversion Hbound as [|? b ? bound' [tr' Hb] Hrest]; subst.
    apply elem_of_cons in Hd as [<-|Hd].
    + apply format_input_Return in Hb. unfold bound_as in Hb.
      destruct key as [k annotation]. simpl in Hb.
      destruct a as [r|fp|v]; [|done|done]. injection Hb as <-. left.
    + right. by eapply IH.
Qed.

Lemma bind_snd_same {A B} (m : M A) (k1 k2 : A -> M B) :
  (forall a, m.2 = Return a -> (k1 a).2 = (k2 a).2) ->
  (m ≫= k1).2 = (m ≫= k2).2.
Proof. intros Hk. rewrite !bind_snd. destruct (m.2); auto. Qed.

Lemma format_algorithm_options_snd parameters options :
  (format_algorithm_options parameters options).2 =
    concat_outcome (mapM (format_option parameters) options).2.
Proof.
  unfold format_algorithm_options. rewrite bind_snd.
  by destruct (mapM _ _).2.
Qed.

Lemma mapM_snd_cons {A B} (f : A -> M B) a l :
  (mapM f (a :: l)).2 =
    match (f a).2 with
    | Return b =>
        match (mapM f l).2 with
        | Return bs => Return (b :: bs)
        | Raise e => Raise e
        end
    | Raise e => Raise e
    end.
Proof.
  simpl. rewrite bind_snd. destruct (f a).2; [|done].
  rewrite bind_snd. by destruct (mapM f l).2.
Qed.

Lemma format_drop parameters x l1 l2 :
  (format_option parameters x).2 = Return [] ->
  (format_algorithm_options parameters (l1 ++ x :: l2)).2 =
    (format_algorithm_options parameters (l1 ++ l2)).2.
Proof.
  intros Hx. rewrite !format_algorithm_options_snd.
  induction l1 as [|a l1 IH]; simpl app.
  - rewrite mapM_snd_cons, Hx. by destruct (mapM _ l2).2.
  - rewrite !mapM_snd_cons. destruct (format_option parameters a).2; [|done].
    destruct (mapM _ (l1 ++ x :: l2)).2, (mapM _ (l1 ++ l2)).2;
      simpl in *; congruence.
Qed.

Lemma mapM_app_trace {A B} (f : A -> M B) l1 x l2 tr bs :
  mapM f (l1 ++ x :: l2) = (tr, Return bs) ->
  exists tr1 tr2, tr = tr1 ++ (f x).1 ++ tr2.
Proof.
  revert tr bs. induction l1 as [|a l1 IH]; intros tr bs; simpl.
  - intros (tr1 & b & tr2 & Hb & _ & ->)%bind_Return.
    exists [], tr2. by rewrite Hb.
  - intros (tr1 & b & tr2 & Hb & Hrest & ->)%bind_Return.
    apply bind_Return in Hrest as (tr3 & bs' & tr4 & Hbs & _ & ->).
    apply IH in Hbs as (tr5 & tr6 & ->).
    exists (tr1 ++ tr5), (tr6 ++ tr4). by rewrite <-!app_assoc.
Qed.

(** C3, as amended.  A named option bound to a generic file reference whose
    name is not a parameter of the constructor makes the construction emit a
    [ConstructorExtraParameterWarning] and leave the option out of the
    arguments of the constructor: the constructor gets neither the reference
    nor a decoded value, and the construction goes on as it would without
    that option. *)
Theorem C3_untyped_file_option_is_dropped parameters name fp :
  parameters_lookup parameters name = None ->
  format_option parameters (name, OptFile fp)
    = ([EvWarn "ConstructorExtraParameterWarning" name], Return []) /\
  (forall l1 l2 tr formatted,
     format_algorithm_options parameters (l1 ++ (name, OptFile fp) :: l2)
       = (tr, Return formatted) ->
     EvWarn "ConstructorExtraParameterWarning" name ∈ tr /\
     (format_algorithm_options parameters (l1 ++ l2)).2 = Return formatted) /\
  (forall self_id component algorithm inputs l1 l2 cls,
     registry component algorithm = Return cls ->
     init_parameters cls = parameters ->
     (Runnable_init self_id component algorithm inputs
        (l1 ++ (name, OptFile fp) :: l2)).2 =
     (Runnable_init self_id component algorithm inputs (l1 ++ l2)).2).
Proof.
  clear ord_perm. intros Hlookup.
  assert (format_option parameters (name, OptFile fp)
          = ([EvWarn "ConstructorExtraParameterWarning" name], Return []))
    as Hopt.
  { unfold format_option. by rewrite Hlookup. }
  split_and!.
  - done.
  - intros l1 l2 tr formatted Hfmt. split.
    + unfold format_algorithm_options in Hfmt.
      apply bind_Return in Hfmt as (tr1 & bs & tr2 & Hbs & [= <- _] & ->).
      apply mapM_app_trace in Hbs as (tr3 & tr4 & ->).
      rewrite Hopt. simpl. set_solver.
    + rewrite <-(format_drop parameters (name, OptFile fp));
        [by rewrite Hfmt | by rewrite Hopt].
  - intros self_id component algorithm inputs l1 l2 cls Hreg <-.
    unfold Runnable_init. apply bind_snd_same. intros cls'.
    rewrite Hreg. intros [= <-]. apply bind_snd_same. intros _ _.
    apply bind_snd_ext; [|done]. apply format_drop. by rewrite Hopt.
Qed.

(** *** More on the construction and the run of one task *)

Lemma mapM_first_failure {A B} (f : A -> M B) l1 x l2 tr1 bs trx e :
  mapM f l1 = (tr1, Return bs) -> f x = (trx, Raise e) ->
  mapM f (l1 ++ x :: l2) = (tr1 ++ trx, Raise e).
Proof.
  revert tr1 bs. induction l1 as [|a l1 IH]; intros tr1 bs; simpl.
  - intros [= <- <-] Hx. by rewrite bind_eq, Hx.
  - intros (tra & b & trr & Ha & Hrest & ->)%bind_Return Hx.
    apply bind_Return in Hrest as (trl & bs' & tr0 & Hl1 & [= <- _] & ->).
    rewrite bind_eq, Ha. simpl. rewrite bind_eq, (IH _ _ Hl1 Hx). simpl.
    by rewrite app_nil_r, app_assoc.
Qed.

Lemma resolve_input_ok previous_results a v :
  resolves_to previous_results a v ->
  resolve_input previous_results a = (loads_of [a], Return v).
Proof.
  destruct a as [r|p|w]; simpl.
  - by intros ->.
  - intros (loader & Hl & Hv). unfold TypedFileProvider_load.
    by rewrite Hl, Hv.
  - by intros ->.
Qed.

Lemma loads_of_app l1 l2 : loads_of (l1 ++ l2) = loads_of l1 ++ loads_of l2.
Proof. unfold loads_of. apply omap_app. Qed.

(** How resolving one bound input fails: the result of a task is not among
    the previous results, or the decoding of a file raises. *)
Definition input_fails (previous_results : gmap nat Value)
    (_input : BoundArg) (e : PyExc) : Prop :=
  match _input with
  | ArgRunnable r => previous_results !! rid r = None /\ e = KeyError
  | ArgFile provider =>
      match loaders (object_class provider) with
      | Some loader =>
          loader (path_or_url (backing_file_provider provider)) = Raise e
      | None => e = TypeError
      end
  | ArgValue _ => False
  end.

Lemma resolve_input_fails previous_results a e :
  input_fails previous_results a e ->
  resolve_input previous_results a = (loads_of [a], Raise e).
Proof.
  destruct a as [r|p|w]; simpl; [| |done].
  - by intros [-> ->].
  - unfold TypedFileProvider_load.
    destruct (loaders (object_class p)) as [loader|]; by intros ->.
Qed.

(** X9.  [run] resolves its inputs in order, outside the [try]: at the first
    input that cannot be resolved (a task whose result is not among the
    previous results, a file whose decoding raises) it raises that exception
    as it is ([KeyError] for a missing result), not an [ExecutionError]; the
    later inputs are not decoded and the outcome does not depend on the
    algorithm. *)
Theorem X9_run_raises_at_the_first_unresolved_input
    self previous_results l1 _input l2 vs e :
  _inputs self = l1 ++ _input :: l2 ->
  Forall2 (resolves_to previous_results) l1 vs ->
  input_fails previous_results _input e ->
  Runnable_run self previous_results = (loads_of (l1 ++ [_input]), Raise e).
Proof.
  clear ord_perm. intros Hin Hl1 Hfail. unfold Runnable_run. rewrite Hin.
  rewrite (mapM_first_failure _ l1 _input l2 (loads_of l1) vs
             (loads_of [_input]) e).
  - by rewrite bind_eq, loads_of_app.
  - by apply resolve_inputs.
  - by apply resolve_input_fails.
Qed.

Lemma format_same parameters x y l1 l2 :
  (format_option parameters x).2 = (format_option parameters y).2 ->
  (format_algorithm_options parameters (l1 ++ x :: l2)).2 =
    (format_algorithm_options parameters (l1 ++ y :: l2)).2.
Proof.
  intros Hxy. rewrite !format_algorithm_options_snd.
  induction l1 as [|a l1 IH]; simpl app.
  - by rewrite !mapM_snd_cons, Hxy.
  - rewrite !mapM_snd_cons. destruct (format_option parameters a).2; [|done].
    destruct (mapM _ (l1 ++ x :: l2)).2, (mapM _ (l1 ++ y :: l2)).2;
      simpl in *; congruence.
Qed.

(** X10.  A named option bound to a generic file reference whose name is a
    parameter of the constructor, with a type that has a loader, is decoded
    during the construction, and the constructor is passed the decoded value:
    the construction ends as it would had the value been given in place of
    the reference. *)
Theorem X10_typed_file_option_is_decoded_at_construction
    parameters name fp cls loader v :
  parameters_lookup parameters name = Some cls ->
  loaders cls = Some loader ->
  loader (path_or_url fp) = Return v ->
  format_option parameters (name, OptFile fp)
    = ([EvLoad {| backing_file_provider := fp; object_class := cls |}],
       Return [(name, OptValue v)]) /\
  (forall self_id component algorithm inputs l1 l2 c,
     registry component algorithm = Return c ->
     init_parameters c = parameters ->
     (Runnable_init self_id component algorithm inputs
        (l1 ++ (name, OptFile fp) :: l2)).2 =
     (Runnable_init self_id component algorithm inputs
        (l1 ++ (name, OptValue v) :: l2)).2).
Proof.
  clear ord_perm. intros Hlookup Hloader Hv.
  assert (format_option parameters (name, OptFile fp)
          = ([EvLoad {| backing_file_provider := fp; object_class := cls |}],
             Return [(name, OptValue v)])) as Hopt.
  { unfold format_option. rewrite Hlookup.
    unfold TypedFileProvider_new, TypedFileProvider_load. rewrite Hloader.
    simpl. rewrite !bind_eq. simpl. by rewrite Hloader, Hv. }
  split; [done|].
  intros self_id component algorithm inputs l1 l2 c Hreg <-.
  unfold Runnable_init. apply bind_snd_same. intros c'.
  rewrite Hreg. intros [= <-]. apply bind_snd_same. intros _ _.
  apply bind_snd_ext; [|done]. apply format_same. by rewrite Hopt.
Qed.

Lemma Runnable_init_options_raise self_id component algorithm inputs options
    c a ps tr e :
  registry component algorithm = Return c ->
  init_parameters c = ("self", a) :: ps ->
  format_algorithm_options (init_parameters c) options = (tr, Raise e) ->
  Runnable_init self_id component algorithm inputs options = (tr, Raise e).
Proof.
  intros Hreg Hinit Hfmt. unfold Runnable_init. rewrite Hreg.
  unfold mbind, M_bind, bind, lift. cbn beta iota.
  rewrite Hfmt. unfold assert_self. by rewrite Hinit.
Qed.

(** X11.  A named option bound to a generic file reference whose name is a
    parameter of the constructor: when the type of the parameter has no
    loader the construction raises a [TypeInferenceError] caused by the
    [TypeError]; when the loader raises, the construction raises that
    exception as it is.  Either way the options after it are not decoded and
    the exception is not turned into a [ConstructorError]. *)
Theorem X11_option_that_cannot_be_decoded_stops_the_construction
    self_id component algorithm inputs c a ps name fp cls l1 l2 tr1 formatted1 :
  registry component algorithm = Return c ->
  init_parameters c = ("self", a) :: ps ->
  parameters_lookup (init_parameters c) name = Some cls ->
  mapM (format_option (init_parameters c)) l1 = (tr1, Return formatted1) ->
  (loaders cls = None ->
   Runnable_init self_id component algorithm inputs
     (l1 ++ (name, OptFile fp) :: l2)
     = (tr1, Raise (TypeInferenceError TypeError))) /\
  (forall loader e,
     loaders cls = Some loader -> loader (path_or_url fp) = Raise e ->
     Runnable_init self_id component algorithm inputs
       (l1 ++ (name, OptFile fp) :: l2)
       = (tr1 ++ [EvLoad {| backing_file_provider := fp;
                            object_class := cls |}], Raise e)).
Proof.
  clear ord_perm. intros Hreg Hinit Hlookup Hl1. split.
  - intros Hnone.
    apply (Runnable_init_options_raise _ _ _ _ _ c a ps); [done | done |].
    unfold format_algorithm_options.
    rewrite (mapM_first_failure _ l1 _ l2 tr1 formatted1 []
               (TypeInferenceError TypeError)); [|done|].
    + by rewrite bind_eq, app_nil_r.
    + unfold format_option. rewrite Hlookup.
      unfold TypedFileProvider_new. by rewrite Hnone.
  - intros loader e Hloader He.
    apply (Runnable_init_options_raise _ _ _ _ _ c a ps); [done | done |].
    unfold format_algorithm_options.
    rewrite (mapM_first_failure _ l1 _ l2 tr1 formatted1
               [EvLoad {| backing_file_provider := fp; object_class := cls |}]
               e); [|done|].
    + by rewrite bind_eq.
    + unfold format_option. rewrite Hlookup.
      unfold TypedFileProvider_new, TypedFileProvider_load. rewrite Hloader.
      simpl. rewrite !bind_eq. simpl. by rewrite Hloader, He.
Qed.

(** A positional input that the construction can bind to its parameter. *)
Definition bindable (input_key : RawArg * (string * Annotation)) : Prop :=
  match input_key.1 with
  | ArgFile _ => is_Some (loaders input_key.2.2)
  | _ => True
  end.

Lemma format_inputs_ok zl :
  Forall bindable zl -> exists bound, mapM format_input zl = ([], Return bound).
Proof.
  induction 1 as [|[x [key annotation]] zl Hx _ [bound IH]]; [by exists []|].
  unfold bindable in Hx. simpl in Hx.
  assert (exists b, format_input (x, (key, annotation)) = ([], Return b))
    as [b Hb].
  { destruct x as [r|fp|v]; simpl; [eauto | | eauto].
    destruct Hx as [loader Hl]. unfold TypedFileProvider_new. rewrite Hl.
    simpl. eauto. }
  exists (b :: bound). cbn [mapM]. rewrite bind_eq, Hb. cbn [fst snd].
  rewrite bind_eq, IH. done.
Qed.

(** X12.  A positional input that is a generic file reference, at a
    parameter of [run] whose type has no loader (or no annotation), makes the
    construction raise a [TypeInferenceError] caused by the [TypeError],
    after the algorithm has been instantiated and without any decoding of
    the inputs. *)
Theorem X12_file_input_without_loader_raises_TypeInferenceError
    self_id component algorithm inputs options c a ps tr formatted inst a0
    keys zl1 fp key annotation zl2 :
  registry component algorithm = Return c ->
  init_parameters c = ("self", a) :: ps ->
  format_algorithm_options (init_parameters c) options
    = (tr, Return formatted) ->
  algorithm_new c formatted = Return inst ->
  run_parameters inst = ("self", a0) :: keys ->
  length inputs <= length keys ->
  zip inputs keys = zl1 ++ (ArgFile fp, (key, annotation)) :: zl2 ->
  Forall bindable zl1 ->
  loaders annotation = None ->
  Runnable_init self_id component algorithm inputs options
    = (tr, Raise (TypeInferenceError TypeError)).
Proof.
  clear ord_perm.
  intros Hreg Hinit Hfmt Hnew Hkeys Hlen Hzip Hzl1 Hnone.
  rewrite (Runnable_init_after_options _ _ _ _ _ _ _ _ _ _ Hreg Hinit Hfmt).
  rewrite Hnew, Hkeys. rewrite decide_True by done.
  rewrite decide_True by done. unfold RawArg in *. rewrite Hzip.
  destruct (format_inputs_ok zl1 Hzl1) as [bound Hbound].
  rewrite (mapM_first_failure _ zl1 _ zl2 [] bound []
             (TypeInferenceError TypeError) Hbound).
  - simpl. by rewrite app_nil_r.
  - simpl. unfold TypedFileProvider_new. by rewrite Hnone.
Qed.

(** *** The sequence after a call of [compute], and runs in which every
    step succeeds *)

(** The tasks among the positional inputs given to a call, in order. *)
Definition raw_runnables (inputs : list RawArg) : list Runnable :=
  omap (fun a => match a with ArgRunnable r => Some r | _ => None end) inputs.

Lemma format_inputs_runnables (inputs : list RawArg) keys bound :
  length inputs <= length keys ->
  mapM format_input (zip inputs keys) = ([], Return bound) ->
  input_runnables bound = raw_runnables inputs.
Proof.
  intros Hlen Hbound. apply mapM_Return in Hbound.
  revert keys bound Hlen Hbound.
  induction inputs as [|a inputs IH]; intros keys bound Hlen HF.
  { simpl in HF. by inversion HF. }
  destruct keys as [|[key annotation] keys]; [simpl in Hlen; lia|].
  simpl in HF. inversion HF as [|? b ? bound' [tr Hb] Hrest]; subst.
  apply format_input_Return in Hb. unfold bound_as in Hb. simpl in Hb.
  assert (input_runnables bound' = raw_runnables inputs) as Hrec.
  { apply (IH keys); [simpl in Hlen; lia | done]. }
  assert (forall (x : BoundArg) l,
            input_runnables (x :: l)
            = match x with
              | ArgRunnable r => r :: input_runnables l
              | _ => input_runnables l
              end) as Hb' by (by intros []).
  assert (forall (x : RawArg) l,
            raw_runnables (x :: l)
            = match x with
              | ArgRunnable r => r :: raw_runnables l
              | _ => raw_runnables l
              end) as Ha' by (by intros []).
  rewrite Hb', Ha', Hrec. by destruct a as [r|fp|v]; subst b.
Qed.

Lemma compute_topological sq self_id component algorithm inputs options tr
    result sq' :
  OrderedSequence_call sq self_id component algorithm inputs options
    = (tr, Return (result, sq')) ->
  topological sq -> (forall d, ArgRunnable d ∈ inputs -> d ∈ sq) ->
  topological sq'.
Proof.
  intros Hcall Htopo Hin.
  apply OrderedSequence_call_Return in Hcall as (-> & _ & Hdeps).
  intros l1 x l2 d E Hd.
  destruct l2 as [|z l2 _] using rev_ind.
  - apply app_inj_tail in E as [<- <-]. by apply Hin, Hdeps.
  - rewrite app_comm_cons, app_assoc in E. apply app_inj_tail in E as [E _].
    by apply (Htopo l1 x l2 d).
Qed.

(** X13.  A call of [compute] that returns appends the task it has
    constructed at the end of the sequence, after the entries that were
    there, and the tasks the new one depends on are exactly the tasks given
    among its positional inputs, in order: none is lost to the [zip] with
    the parameters of [run], whose number the construction has checked.  So
    when the sequence is in dependency order and the tasks given to the call
    are in the sequence (which the code does not check), the sequence is
    still in dependency order after the call. *)
Theorem X13_compute_keeps_the_sequence_in_dependency_order
    sq self_id component algorithm inputs options tr result sq' :
  OrderedSequence_call sq self_id component algorithm inputs options
    = (tr, Return (result, sq')) ->
  sq' = sq ++ [result] /\
  input_runnables (_inputs result) = raw_runnables inputs /\
  (topological sq -> (forall d, ArgRunnable d ∈ inputs -> d ∈ sq) ->
   topological sq').
Proof.
  clear ord_perm. intros Hcall. split_and!.
  - by apply OrderedSequence_call_Return in Hcall as (-> & _).
  - unfold OrderedSequence_call in Hcall.
    apply bind_Return in Hcall
      as (tr1 & r & tr2 & Hinit & [= _ <- _] & _).
    apply Runnable_init_Return in Hinit
      as (cls & formatted & inst & a0 & keys & bound
          & _ & _ & _ & _ & Hlen & Hbound & ->).
    simpl. by apply (format_inputs_runnables inputs keys).
  - by apply (compute_topological sq self_id component algorithm inputs
                options tr result).
Qed.

(** The decoding of a typed file reference returns. *)
Definition decodes (p : TypedFileProvider) : Prop :=
  exists loader v,
    loaders (object_class p) = Some loader /\
    loader (path_or_url (backing_file_provider p)) = Return v.

Lemma inputs_resolve results (inputs : list BoundArg) :
  (forall d, ArgRunnable d ∈ inputs -> is_Some (results !! rid d)) ->
  (forall p, ArgFile p ∈ inputs -> decodes p) ->
  exists vs, Forall2 (resolves_to results) inputs vs.
Proof.
  intros Hr Hf. apply Forall2_choice. intros [d|p|w] Ha; simpl.
  - destruct (Hr d Ha) as [v Hv]. eauto.
  - destruct (Hf p Ha) as (loader & v & Hl & Hv). eauto.
  - eauto.
Qed.

Lemma Runnable_run_ok c results vs v :
  Forall2 (resolves_to results) (_inputs c) vs ->
  algorithm_run (_algorithm_instance c) vs = Return v ->
  Runnable_run c results = (loads_of (_inputs c), Return v).
Proof.
  intros Hvs Hv. unfold Runnable_run. rewrite bind_eq.
  rewrite (resolve_inputs _ _ _ Hvs). simpl. rewrite Hv. simpl.
  by rewrite app_nil_r.
Qed.

(** X14.  For a recipe in dependency order in which every file input
    decodes, every algorithm returns on the inputs it is given, and every
    write succeeds, [run_and_save] returns: no call looks up a missing
    result, the execution completes, and the result of each output has been
    written, in order, to the destination paired with it. *)
Theorem X14_run_and_save_succeeds_when_every_step_does
    sequence outputs output_paths :
  recipe_wf sequence outputs -> topological sequence ->
  (forall c p, c ∈ sequence -> ArgFile p ∈ _inputs c -> decodes p) ->
  (forall c results vs, c ∈ sequence ->
     Forall2 (resolves_to results) (_inputs c) vs ->
     exists v, algorithm_run (_algorithm_instance c) vs = Return v) ->
  (forall v p, save_value v p = Return tt) ->
  exists tr st vs,
    run_and_save (Execution_init sequence outputs output_paths)
      = Some ((tr, Return tt), st) /\
    complete st = true /\
    Forall2 (fun o v => _completed_results st !! rid o = Some v) outputs vs /\
    saved_outputs tr = zip output_paths vs.
Proof.
  intros Hwf Htopo Hfiles Halg Hsave.
  destruct (run_and_save_fuel_enough
              (S (length (_runnable_sequence
                            (Execution_init sequence outputs output_paths))))
              (Execution_init sequence outputs output_paths))
    as [[[tr o] st] Hrun]; [lia|].
  pose proof (run_and_save_fuel_outcome sequence outputs output_paths Hwf
                _ _ tr o st (ticks_ok_refl _) Hrun) as Hout.
  destruct o as [[]|e].
  - destruct Hout as (Hok & Hc & vs & Hvs & Hs).
    pose proof (ticks_inv _ _ _ Hwf _ (ticks_ok_ticks _ _ _ _ Hok)) as Hinv.
    unfold _output_runnables in Hvs.
    rewrite (inv_outputs _ _ _ _ Hinv) in Hvs.
    rewrite (inv_paths _ _ _ _ Hinv) in Hs.
    by exists tr, st, vs.
  - exfalso.
    destruct Hout as [(st' & c & tr' & Hok & _ & Hc & Hraise & _)
                     | (_ & _ & v & p & Hfail)].
    2:{ by rewrite Hsave in Hfail. }
    pose proof (ticks_inv _ _ _ Hwf _ (ticks_ok_ticks _ _ _ _ Hok)) as Hinv.
    assert (c ∈ sequence) as Hcs.
    { unfold tick_candidate in Hc.
      destruct (next_needed _ _) as [[c0 it]|] eqn:Hnext; [|done].
      injection Hc as ->.
      apply next_needed_Some in Hnext as (skipped & Hit & _).
      exact (candidate_in_sequence _ _ _ Hwf st' skipped c it Hinv Hit). }
    destruct (inputs_resolve (_completed_results st') (_inputs c))
      as [vs Hvs].
    { intros d Hd.
      apply (dependencies_cached sequence outputs output_paths Hwf st' c d);
        try done.
      by apply elem_of_input_runnables. }
    { intros p Hp. by apply (Hfiles c). }
    destruct (Halg c _ vs Hcs Hvs) as [v Hv].
    rewrite (Runnable_run_ok _ _ _ _ Hvs Hv) in Hraise. done.
Qed.

(** X15.  When there are as many outputs as destinations and every index
    below that number is bound to a task, the construction of the recipe
    returns: the recipe keeps the recorded sequence and the destinations,
    and its outputs are the tasks bound to the indices 0, 1, ..., in that
    order, so that each is paired with the destination of the same index. *)
Theorem X15_valid_outputs_give_a_recipe_in_index_order
    (ordered_sequence : list Runnable) (outputs : gmap Z PyObj)
    (output_paths : list string) :
  size outputs = length output_paths ->
  (forall ix : nat, ix < size outputs ->
     exists r, outputs !! Z.of_nat ix = Some (ObjRunnable r)) ->
  exists ordered,
    Recipe_init ordered_sequence outputs output_paths
      = Return {| _runnable_order := ordered_sequence;
                  _recipe_outputs := ordered;
                  _recipe_output_paths := output_paths |} /\
    length ordered = length output_paths /\
    forall (ix : nat) r,
      ordered !! ix = Some r <->
      ix < size outputs /\ outputs !! Z.of_nat ix = Some (ObjRunnable r).
Proof.
  clear ord_perm. intros Hsize Hall. unfold Recipe_init.
  rewrite decide_True by done.
  assert (forall n m, (forall ix : nat, m <= ix < m + n ->
                         exists r, outputs !! Z.of_nat ix = Some (ObjRunnable r)) ->
            exists ordered,
              ordered_outputs outputs (Z.of_nat <$> seq m n) = Return ordered)
    as Hret.
  { induction n as [|n IH]; intros m Hm; [by exists []|].
    destruct (Hm m) as [r Hr]; [lia|].
    destruct (IH (S m)) as [l Hl]; [intros ix Hix; apply Hm; lia|].
    exists (r :: l). change (seq m (S n)) with (m :: seq (S m) n).
    rewrite fmap_cons. cbn [ordered_outputs]. by rewrite Hr, Hl. }
  destruct (Hret (size outputs) 0) as [ordered Hord].
  { intros ix Hix. apply Hall. lia. }
  exists ordered. rewrite Hord. split; [done|].
  apply ordered_outputs_Return in Hord.
  pose proof (Forall2_length _ _ _ Hord) as Hlen.
  rewrite length_fmap, length_seq in Hlen. split; [lia|].
  intros ix r. split.
  - intros Hr.
    destruct (Forall2_lookup_r _ _ _ _ _ Hord Hr) as (z & Hz & Hout).
    pose proof (lookup_lt_Some _ _ _ Hr) as Hlt.
    rewrite list_lookup_fmap, lookup_seq_lt in Hz by lia.
    injection Hz as <-. split; [lia | done].
  - intros [Hix Hout].
    assert ((Z.of_nat <$> seq 0 (size outputs)) !! ix = Some (Z.of_nat ix))
      as Hl.
    { rewrite list_lookup_fmap, lookup_seq_lt by done. done. }
    destruct (Forall2_lookup_l _ _ _ _ _ Hord Hl) as (r' & Hr' & Hout').
    rewrite Hout in Hout'. by injection Hout' as <-.
Qed.

(** X16.  An execution without outputs is complete from the start:
    [run_and_save] returns at once, having run no task, decoded no file and
    written nothing, whatever the sequence holds. *)
Theorem X16_execution_without_outputs_runs_nothing
    (sequence : list Runnable) (output_paths : list string) :
  complete (Execution_init sequence [] output_paths) = true /\
  run_and_save (Execution_init sequence [] output_paths)
    = Some (([], Return tt), Execution_init sequence [] output_paths).
Proof.
  clear ord_perm. split; [done|]. unfold run_and_save. done.
Qed.

Lemma mapM_ext_in {A B} (f g : A -> M B) (l : list A) :
  (forall a, a ∈ l -> f a = g a) -> mapM f l = mapM g l.
Proof.
  induction l as [|a l IH]; intros Hfg; [done|]. simpl.
  rewrite (Hfg a) by left. rewrite IH; [done|].
  intros a' Ha'. apply Hfg. by right.
Qed.

End Engine.

Arguments Return {A} a.
Arguments ArgRunnable {Value F R} r.
Arguments ArgFile {Value F R} f.
Arguments ArgValue {Value F R} v.
Arguments OptFile {Value} fp.
Arguments OptValue {Value} v.
Arguments MkRunnable {Value} rid _ _ _ _inputs.
Arguments rid {Value} r.
Arguments _inputs {Value} r.
Arguments EvWarn {Value} category parameter.
Arguments EvLoad {Value} p.
Arguments EvSave {Value} path v.

Arguments ObjRunnable {Value} r.
Arguments ObjOther {Value} v.

(** ** Two executions of one recipe *)

(** Modelled from the spec: the files after an execution has written its
    outputs.  [written writes path] is the value last written to [path], if
    any; decoding a location that has been written gives that value, and the
    other locations decode as before.  Nothing is kept from one execution to
    the next: each [load] decodes the file anew. *)
Definition written {Value} (writes : list (string * Value)) (path : string)
    : option Value :=
  (fun found => found.2.2) <$>
    list_find (fun pv => pv.1 = path) (reverse writes).

Definition loaders_after {Value} (writes : list (string * Value))
    (loaders : Annotation -> option (string -> outcome Value))
    : Annotation -> option (string -> outcome Value) :=
  fun cls =>
    (fun loader path =>
       match written writes path with
       | Some v => Return v
       | None => loader path
       end) <$> loaders cls.

Section Determinism.

Variable Value : Type.

(** The orders in which the two executions iterate over sets. *)
Variables ord1 ord2 : list (Runnable Value) -> list (Runnable Value).
Hypothesis ord1_perm : forall l, ord1 l ≡ₚ l.
Hypothesis ord2_perm : forall l, ord2 l ≡ₚ l.

Variable recipe : Recipe Value.
Hypothesis Hwf :
  recipe_wf Value (_runnable_order Value recipe) (_recipe_outputs Value recipe).

(** The files at the two executions: every file input of a task of the
    recipe decodes in the same way at both. *)
Definition reads_the_same
    (loaders1 loaders2 : Annotation -> option (string -> outcome Value))
    : Prop :=
  forall c p, c ∈ _runnable_order Value recipe ->
    ArgFile p ∈ _inputs c ->
    TypedFileProvider_load Value loaders1 p
      = TypedFileProvider_load Value loaders2 p.

(** The writes at the two executions: a value is written to a destination
    of the recipe with the same outcome at both. *)
Definition writes_the_same
    (save_value1 save_value2 : Value -> string -> outcome unit) : Prop :=
  forall v path, path ∈ _recipe_output_paths Value recipe ->
    save_value1 v path = save_value2 v path.

(** The second of two executions made one after the other, with the files
    the first has left, saves what the first saved. *)
Definition saves_the_same_again
    (loaders : Annotation -> option (string -> outcome Value))
    (save_value : Value -> string -> outcome unit) : Prop :=
  forall tr1 o1 st1 tr2 o2 st2,
    run_and_save Value loaders save_value ord1
      (Recipe_execution Value ord1 recipe) = Some ((tr1, o1), st1) ->
    run_and_save Value (loaders_after (saved_outputs Value tr1) loaders)
      save_value ord2 (Recipe_execution Value ord2 recipe)
      = Some ((tr2, o2), st2) ->
    saved_outputs Value tr1 = saved_outputs Value tr2.

Lemma Recipe_execution_order :
  Recipe_execution Value ord1 recipe = Recipe_execution Value ord2 recipe.
Proof.
  unfold Recipe_execution.
  destruct (graph_unique Value ord1 ord1_perm _ _
              (_recipe_output_paths Value recipe) Hwf
              (needed_runnables Value (Recipe_execution Value ord2 recipe))
              (runnable_dependents Value (Recipe_execution Value ord2 recipe)))
    as [HN HD].
  - by apply needed_spec.
  - by apply dependents_spec.
  - by apply dependents_inhabited_init.
  - unfold Recipe_execution, Execution_init in *. simpl in *.
    by rewrite <-HN, <-HD.
Qed.

Lemma tick_inv_order st :
  tick_inv Value ord1 (_runnable_order Value recipe)
    (_recipe_outputs Value recipe) (_recipe_output_paths Value recipe) st ->
  tick_inv Value ord2 (_runnable_order Value recipe)
    (_recipe_outputs Value recipe) (_recipe_output_paths Value recipe) st.
Proof.
  pose proof Recipe_execution_order as E. unfold Recipe_execution in E.
  intros []. split; rewrite <-?E; done.
Qed.

Lemma Runnable_run_files loaders1 loaders2 c results :
  (forall p, ArgFile p ∈ _inputs c ->
     TypedFileProvider_load Value loaders1 p
       = TypedFileProvider_load Value loaders2 p) ->
  Runnable_run Value loaders1 c results = Runnable_run Value loaders2 c results.
Proof.
  intros Hsame. unfold Runnable_run.
  rewrite (mapM_ext_in Value (resolve_input Value loaders1 results)
             (resolve_input Value loaders2 results)); [done|].
  intros [r|p|v] Ha; simpl; [done | by apply Hsame | done].
Qed.

Lemma run_one_tick_files loaders1 loaders2 st :
  reads_the_same loaders1 loaders2 ->
  tick_inv Value ord1 (_runnable_order Value recipe)
    (_recipe_outputs Value recipe) (_recipe_output_paths Value recipe) st ->
  run_one_tick Value loaders1 ord1 st = run_one_tick Value loaders2 ord2 st.
Proof.
  intros Hsame Hinv.
  rewrite (run_one_tick_without_loop Value loaders1 ord1 ord1_perm
             _ _ _ Hwf st Hinv).
  rewrite (run_one_tick_without_loop Value loaders2 ord2 ord2_perm
             _ _ _ Hwf st (tick_inv_order st Hinv)).
  unfold tick_without_loop.
  destruct (next_needed _ _ _) as [[c it]|] eqn:Hnext; [|done].
  apply next_needed_Some in Hnext as (skipped & Hit & _).
  rewrite (Runnable_run_files loaders1 loaders2 c); [done|].
  intros p Hp. apply (Hsame c p); [|done].
  exact (candidate_in_sequence Value ord1 ord1_perm _ _ _ Hwf st skipped c it
           Hinv Hit).
Qed.

Lemma save_writes save_value1 save_value2 st :
  writes_the_same save_value1 save_value2 ->
  _output_paths Value st = _recipe_output_paths Value recipe ->
  save Value save_value1 st = save Value save_value2 st.
Proof.
  intros Hsame Hpaths. unfold save. destruct (complete Value st); [|done].
  rewrite (mapM_ext_in Value (save_one Value save_value1 st)
             (save_one Value save_value2 st)); [done|].
  intros [r path] Hin. simpl.
  destruct (_completed_results Value st !! rid r) as [result|]; [|done].
  rewrite (Hsame result path); [done|].
  rewrite <-Hpaths. apply elem_of_zip_r in Hin. done.
Qed.

Lemma run_and_save_fuel_worlds loaders1 loaders2 save_value1 save_value2
    fuel st :
  reads_the_same loaders1 loaders2 ->
  writes_the_same save_value1 save_value2 ->
  tick_inv Value ord1 (_runnable_order Value recipe)
    (_recipe_outputs Value recipe) (_recipe_output_paths Value recipe) st ->
  run_and_save_fuel Value loaders1 save_value1 ord1 fuel st =
    run_and_save_fuel Value loaders2 save_value2 ord2 fuel st.
Proof.
  intros Hfiles Hwrites. revert st.
  induction fuel as [|fuel IH]; intros st Hinv; simpl.
  - rewrite (save_writes save_value1 save_value2 st Hwrites); [done|].
    by destruct Hinv.
  - rewrite (save_writes save_value1 save_value2 st Hwrites)
      by by destruct Hinv.
    destruct (complete Value st); [done|].
    pose proof (tick_inv_step Value loaders1 ord1 ord1_perm
                  _ _ _ Hwf st Hinv) as Hstep.
    rewrite <-(run_one_tick_files loaders1 loaders2 st Hfiles Hinv).
    destruct (run_one_tick Value loaders1 ord1 st) as [[tr [[]|e]] st'];
      [|done].
    by rewrite IH.
Qed.

Lemma written_None (writes : list (string * Value)) path :
  path ∉ writes.*1 -> written writes path = None.
Proof.
  intros Hnot. unfold written.
  destruct (list_find _ _) as [[i [q v]]|] eqn:Hfind; [|done].
  apply list_find_Some in Hfind as (Hi & Hq & _). simpl in Hq. subst q.
  exfalso. apply Hnot. apply list_elem_of_fmap. exists (path, v).
  split; [done|]. apply elem_of_reverse. by eapply list_elem_of_lookup_2.
Qed.

Lemma loaders_after_unchanged (writes : list (string * Value)) loaders p :
  path_or_url (backing_file_provider p) ∉ writes.*1 ->
  TypedFileProvider_load Value loaders p
    = TypedFileProvider_load Value (loaders_after writes loaders) p.
Proof.
  intros Hnot. unfold TypedFileProvider_load, loaders_after.
  destruct (loaders (object_class p)) as [loader|]; [|done]. simpl.
  by rewrite (written_None writes _ Hnot).
Qed.

(** C8, as amended.  Two fresh executions of one recipe, each iterating
    over its sets in an order of its own, with algorithms that are functions
    of their inputs.  When every file input of the recipe decodes in the
    same way at both executions and the writes to the destinations behave in
    the same way, [run_and_save] ends in both with the same events, hence
    the same values written to the same destinations in the same order, the
    same outcome and the same final state.  This is so in particular for a
    second execution made with the files the first has left, when the first
    has written to no location that a file input of the recipe reads. *)
Theorem C8_executions_reading_the_same_files_save_the_same_outputs
    (loaders : Annotation -> option (string -> outcome Value))
    (save_value : Value -> string -> outcome unit) :
  (forall loaders' save_value',
     reads_the_same loaders loaders' ->
     writes_the_same save_value save_value' ->
     is_Some (run_and_save Value loaders save_value ord1
                (Recipe_execution Value ord1 recipe)) /\
     run_and_save Value loaders save_value ord1
         (Recipe_execution Value ord1 recipe) =
       run_and_save Value loaders' save_value' ord2
         (Recipe_execution Value ord2 recipe) /\
     (forall tr1 o1 st1 tr2 o2 st2,
        run_and_save Value loaders save_value ord1
          (Recipe_execution Value ord1 recipe) = Some ((tr1, o1), st1) ->
        run_and_save Value loaders' save_value' ord2
          (Recipe_execution Value ord2 recipe) = Some ((tr2, o2), st2) ->
        saved_outputs Value tr1 = saved_outputs Value tr2 /\ o1 = o2)) /\
  (forall tr1 o1 st1,
     run_and_save Value loaders save_value ord1
       (Recipe_execution Value ord1 recipe) = Some ((tr1, o1), st1) ->
     (forall c p, c ∈ _runnable_order Value recipe ->
        ArgFile p ∈ _inputs c ->
        path_or_url (backing_file_provider p)
          ∉ (saved_outputs Value tr1).*1) ->
     run_and_save Value (loaders_after (saved_outputs Value tr1) loaders)
       save_value ord2 (Recipe_execution Value ord2 recipe)
       = Some ((tr1, o1), st1)).
Proof.
  assert (forall loaders' save_value',
            reads_the_same loaders loaders' ->
            writes_the_same save_value save_value' ->
            run_and_save Value loaders save_value ord1
              (Recipe_execution Value ord1 recipe) =
            run_and_save Value loaders' save_value' ord2
              (Recipe_execution Value ord2 recipe)) as Hsame.
  { intros loaders' save_value' Hfiles Hwrites.
    unfold run_and_save. rewrite <-Recipe_execution_order.
    apply run_and_save_fuel_worlds; [done | done |]. by apply tick_inv_init. }
  split.
  - intros loaders' save_value' Hfiles Hwrites. split_and!.
    + apply run_and_save_fuel_enough. lia.
    + by apply Hsame.
    + intros tr1 o1 st1 tr2 o2 st2 H1 H2.
      rewrite (Hsame _ _ Hfiles Hwrites), H2 in H1.
      by injection H1 as <- <- _.
  - intros tr1 o1 st1 H1 Hdisjoint.
    rewrite <-(Hsame (loaders_after (saved_outputs Value tr1) loaders)
                 save_value); [done | | done].
    intros c p Hc Hp. apply loaders_after_unchanged. by apply (Hdisjoint c).
Qed.

End Determinism.

(** ** Physical coordinates of a range of pixels *)

Section PhysicalCoordinates.

(** The numbers of the source ([int] or [float]) and their arithmetic, each
    operation returning or raising; the second operand of [/] and [*] is an
    [int]. *)
Variable Number : Type.
Variables sub add : Number -> Number -> outcome Number.
Variables div mul : Number -> Z -> outcome Number.

#[local] Instance outcome_ret : MRet outcome := @Return.
#[local] Instance outcome_bind : MBind outcome := fun A B k o =>
  match o with Return a => k a | Raise e => Raise e end.

Definition _calculate_physical_pixel_size (coord_min coord_max : Number)
    (num_pixels : Z) : outcome Number :=
  extent ← sub coord_max coord_min;
  div extent num_pixels.

(** [pixel_offset] is an [Optional[int]]: [None] and 0 are false. *)
Definition _pixel_offset_to_physical_coordinate (physical_pixel_size : Number)
    (pixel_offset : option Z) (coordinates_at_pixel_offset_0 : Number)
    (dimension_size : Z) : outcome Number :=
  match pixel_offset with
  | Some offset =>
      if (offset =? 0)%Z then Return coordinates_at_pixel_offset_0
      else
        let offset :=
          if (offset <? 0)%Z then (offset + dimension_size)%Z else offset in
        product ← mul physical_pixel_size offset;
        add product coordinates_at_pixel_offset_0
  | None => Return coordinates_at_pixel_offset_0
  end.

(** An [int], or a [slice] with its [start] and [stop]. *)
Inductive Indexer : Type :=
| IndexInt (i : Z)
| IndexSlice (start stop : option Z).

Definition recalculate_physical_coordinate_range (coord_min coord_max : Number)
    (dimension_size : Z) (indexer : Indexer) : outcome (Number * Number) :=
  physical_pixel_size ←
    _calculate_physical_pixel_size coord_min coord_max dimension_size;
  let min_pixel_index :=
    match indexer with IndexInt i => Some i | IndexSlice start _ => start end in
  let max_pixel_index :=
    match indexer with IndexInt i => Some i | IndexSlice _ stop => stop end in
  let max_pixel_index :=
    match max_pixel_index with
    | Some m => if (m =? 0)%Z then dimension_size else (m + 1)%Z
    | None => dimension_size
    end in
  new_min ← _pixel_offset_to_physical_coordinate
              physical_pixel_size min_pixel_index coord_min dimension_size;
  new_max ← _pixel_offset_to_physical_coordinate
              physical_pixel_size (Some max_pixel_index) coord_min
              dimension_size;
  mret (new_min, new_max).

(** X17.  The index 0 is read as no index at all: a slice that starts at 0
    gives what the slice without a start gives (the lower end is [coord_min]
    itself, without any arithmetic), a slice that stops at 0 gives what the
    slice without a stop gives (the upper end is that of the whole
    dimension), and the integer index 0 gives the range of the whole
    dimension, not that of the first pixel. *)
Theorem X17_index_zero_is_read_as_no_index
    coord_min coord_max dimension_size start stop :
  recalculate_physical_coordinate_range coord_min coord_max dimension_size
    (IndexSlice (Some 0%Z) stop)
  = recalculate_physical_coordinate_range coord_min coord_max dimension_size
      (IndexSlice None stop) /\
  recalculate_physical_coordinate_range coord_min coord_max dimension_size
    (IndexSlice start (Some 0%Z))
  = recalculate_physical_coordinate_range coord_min coord_max dimension_size
      (IndexSlice start None) /\
  recalculate_physical_coordinate_range coord_min coord_max dimension_size
    (IndexInt 0)
  = recalculate_physical_coordinate_range coord_min coord_max dimension_size
      (IndexSlice None None).
Proof. done. Qed.

(** X18.  Negative indices count from the end: a slice whose start is
    negative and whose stop is below -1, both inside the dimension, gives
    the same range as the slice with the dimension size added to both, and
    likewise an integer index below -1. *)
Theorem X18_negative_indices_count_from_the_end
    coord_min coord_max dimension_size start stop :
  (start < 0)%Z -> (0 < start + dimension_size)%Z ->
  (stop < -1)%Z -> (0 < stop + dimension_size)%Z ->
  recalculate_physical_coordinate_range coord_min coord_max dimension_size
    (IndexSlice (Some start) (Some stop))
  = recalculate_physical_coordinate_range coord_min coord_max dimension_size
      (IndexSlice (Some (start + dimension_size)%Z)
                  (Some (stop + dimension_size)%Z)) /\
  recalculate_physical_coordinate_range coord_min coord_max dimension_size
    (IndexInt stop)
  = recalculate_physical_coordinate_range coord_min coord_max dimension_size
      (IndexInt (stop + dimension_size)).
Proof.
  intros Hs1 Hs2 Ht1 Ht2.
  assert (forall size k, (k < 0)%Z -> (0 < k + dimension_size)%Z ->
            _pixel_offset_to_physical_coordinate size (Some k) coord_min
              dimension_size
            = _pixel_offset_to_physical_coordinate size
                (Some (k + dimension_size)%Z) coord_min dimension_size)
    as Hoff.
  { intros size k Hk1 Hk2. unfold _pixel_offset_to_physical_coordinate.
    rewrite (proj2 (Z.eqb_neq k 0)) by lia.
    rewrite (proj2 (Z.eqb_neq (k + dimension_size) 0)) by lia.
    rewrite (proj2 (Z.ltb_lt k 0)) by lia.
    by rewrite (proj2 (Z.ltb_ge (k + dimension_size) 0)) by lia. }
  unfold recalculate_physical_coordinate_range.
  rewrite (proj2 (Z.eqb_neq stop 0)) by lia.
  rewrite (proj2 (Z.eqb_neq (stop + dimension_size) 0)) by lia.
  replace (stop + dimension_size + 1)%Z with (stop + 1 + dimension_size)%Z
    by lia.
  split.
  - destruct (_calculate_physical_pixel_size _ _ _) as [size|e]; [|done].
    cbn -[_pixel_offset_to_physical_coordinate].
    by rewrite (Hoff size start), (Hoff size (stop + 1)%Z) by lia.
  - destruct (_calculate_physical_pixel_size _ _ _) as [size|e]; [|done].
    cbn -[_pixel_offset_to_physical_coordinate].
    by rewrite (Hoff size stop), (Hoff size (stop + 1)%Z) by lia.
Qed.

(** X19.  The last pixel given as -1: the stop -1 plus one is 0, which is
    read as no offset, so the upper end of the range returned for the index
    -1, or for a slice that stops at -1, is the lower end of the whole
    dimension, [coord_min]. *)
Theorem X19_stop_minus_one_gives_the_lower_end
    coord_min coord_max dimension_size start :
  recalculate_physical_coordinate_range coord_min coord_max dimension_size
    (IndexSlice start (Some (-1)%Z))
  = (physical_pixel_size ←
       _calculate_physical_pixel_size coord_min coord_max dimension_size;
     new_min ← _pixel_offset_to_physical_coordinate
                 physical_pixel_size start coord_min dimension_size;
     mret (new_min, coord_min)) /\
  recalculate_physical_coordinate_range coord_min coord_max dimension_size
    (IndexInt (-1))
  = (physical_pixel_size ←
       _calculate_physical_pixel_size coord_min coord_max dimension_size;
     product ← mul physical_pixel_size (-1 + dimension_size)%Z;
     new_min ← add product coord_min;
     mret (new_min, coord_min)).
Proof.
  unfold recalculate_physical_coordinate_range. split.
  - destruct (_calculate_physical_pixel_size _ _ _) as [size|e]; [|done].
    simpl. by destruct (_pixel_offset_to_physical_coordinate _ start _ _).
  - destruct (_calculate_physical_pixel_size _ _ _) as [size|e]; [|done].
    simpl. destruct (mul size _) as [product|e]; [|done]. simpl.
    by destruct (add product coord_min).
Qed.

End PhysicalCoordinates.

(** ** A recipe: two multiplications in a row

    [t0 = compute("filter", "Multiply", file_inputs[0], factor=2)],
    [t1 = compute("filter", "Multiply", t0, factor=3)], output [t1]; values
    are integers. *)

Definition float : Annotation := Some "float".

Definition example_loaders (cls : Annotation)
    : option (string -> outcome Z) :=
  if decide (cls = float) then
    Some (fun path =>
            if decide (path = "input.json") then Return 5%Z
            else Raise (OtherException "FileNotFoundError"))
  else None.

Definition example_save (v : Z) (path : string) : outcome unit := Return tt.

Definition Multiply (factor : Z) : AlgorithmInstance Z :=
  {| run_parameters := [("self", None); ("stack", float)];
     algorithm_run := fun args =>
       match args with
       | [x] => Return (x * factor)%Z
       | _ => Raise TypeError
       end |}.

Definition MultiplyCls : AlgorithmCls Z :=
  {| init_parameters := [("self", None); ("factor", float)];
     algorithm_new := fun kwargs =>
       match kwargs with
       | [(name, OptValue factor)] =>
           if decide (name = "factor") then Return (Multiply factor)
           else Raise TypeError
       | _ => Raise TypeError
       end |}.

Definition example_registry (component algorithm : string)
    : outcome (AlgorithmCls Z) :=
  if decide (component = "filter" /\ algorithm = "Multiply")
  then Return MultiplyCls
  else Raise (OtherException "AttributeError").

Definition input0 : FileProvider := {| path_or_url := "input.json" |}.

Definition t0 : Runnable Z :=
  MkRunnable 0 "filter" "Multiply" (Multiply 2)
    [ArgFile {| backing_file_provider := input0; object_class := float |}].

Definition t1 : Runnable Z :=
  MkRunnable 1 "filter" "Multiply" (Multiply 3) [ArgRunnable t0].

Definition example_recipe : Recipe Z :=
  {| _runnable_order := [t0; t1];
     _recipe_outputs := [t1];
     _recipe_output_paths := ["output.json"] |}.

(** Sets iterated in the order of insertion, or in the opposite order. *)
Definition in_order (l : list (Runnable Z)) : list (Runnable Z) := l.
Definition backwards (l : list (Runnable Z)) : list (Runnable Z) := reverse l.

Definition ex0 : Execution Z := Recipe_execution Z in_order example_recipe.
Definition ex1 : Execution Z := (run_one_tick Z example_loaders in_order ex0).2.
Definition ex2 : Execution Z := (run_one_tick Z example_loaders in_order ex1).2.

Lemma in_order_perm l : in_order l ≡ₚ l.
Proof. done. Qed.

Lemma backwards_perm l : backwards l ≡ₚ l.
Proof. apply reverse_Permutation. Qed.

Example construct_t0 :
  Runnable_init Z example_loaders example_registry 0 "filter" "Multiply"
    [ArgFile input0] [("factor", OptValue 2%Z)] = ([], Return t0).
Proof. reflexivity. Qed.

Example construct_t1 :
  Runnable_init Z example_loaders example_registry 1 "filter" "Multiply"
    [ArgRunnable t0] [("factor", OptValue 3%Z)] = ([], Return t1).
Proof. reflexivity. Qed.

Lemma example_wf : recipe_wf Z [t0; t1] [t1].
Proof.
  split.
  - simpl. apply NoDup_cons. split; [set_solver|]. apply NoDup_singleton.
  - intros x d Hx Hd. unfold dep in Hd.
    apply elem_of_cons in Hx as [->|Hx].
    + simpl in Hd. by apply elem_of_nil in Hd.
    + apply list_elem_of_singleton in Hx as ->. simpl in Hd.
      apply list_elem_of_singleton in Hd as ->. left.
  - intros o Ho. by right.
Qed.

(** The events of the end-to-end run of section 8: the input is decoded
    when [t0] runs, and 5 * 2 * 3 = 30 is written. *)
Definition example_events : list (Event Z) :=
  [EvLoad {| backing_file_provider := input0; object_class := float |};
   EvSave "output.json" 30%Z].

(** The run ends in the state reached by two calls of [run_one_tick], where
    the result of [t0] has been dropped. *)
Example example_run :
  run_and_save Z example_loaders example_save in_order ex0
    = Some ((example_events, Return tt), ex2) /\
  _completed_results Z ex1 = {[0 := 10%Z]} /\
  _completed_results Z ex2 = {[1 := 30%Z]}.
Proof. split; [|split]; vm_compute; reflexivity. Qed.

(** ** The theorems on the example *)

Lemma ex1_ticks : ticks Z example_loaders in_order ex0 ex1.
Proof. apply ticks_step, ticks_refl. Qed.

Lemma ex2_ticks : ticks Z example_loaders in_order ex0 ex2.
Proof. apply ticks_step, ex1_ticks. Qed.

Lemma ex1_ticks_ok : ticks_ok Z example_loaders in_order ex0 ex1.
Proof. eapply ticks_ok_step; [apply ticks_ok_refl|]. vm_compute. reflexivity. Qed.

Lemma ex2_ticks_ok : ticks_ok Z example_loaders in_order ex0 ex2.
Proof. eapply ticks_ok_step; [apply ex1_ticks_ok|]. vm_compute. reflexivity. Qed.

Lemma C1_witness :
  (recipe_wf Z [t0; t1] [t1] /\
   0 ∈ needed_runnables Z ex0 /\
   ticks Z example_loaders in_order ex0 ex1 /\
   tick_candidate Z ex1 = Some t1 /\
   0 ∈ _completed_runnables Z ex1) /\
  reachable_from Z [t1] 0 /\
  reachable_from Z [t1] (rid t1) /\
  reachable_from Z [t1] 0.
Proof.
  assert (0 ∈ needed_runnables Z ex0) as Hneeded by (vm_compute; reflexivity).
  assert (0 ∈ _completed_runnables Z ex1) as Hdone by (vm_compute; reflexivity).
  split.
  { split; [exact example_wf|]. split; [exact Hneeded|].
    split; [exact ex1_ticks|]. split; [reflexivity | exact Hdone]. }
  destruct (C1_needed_set_is_reachable_set Z example_loaders in_order
              in_order_perm [t0; t1] [t1] ["output.json"] example_wf)
    as (Hset & Hrun & Hcompleted).
  split; [|split].
  - apply Hset. exact Hneeded.
  - apply (Hrun ex1 t1 ex1_ticks). reflexivity.
  - apply (Hcompleted ex1 0 ex1_ticks). exact Hdone.
Defined.

Lemma C2_witness :
  (ticks Z example_loaders in_order ex0 ex1 /\
   is_Some (_completed_results Z ex1 !! 0) /\
   ticks Z example_loaders in_order ex0 ex2 /\
   (0 ∉ rid <$> _output_runnables Z ex2) /\
   set_Forall (fun s => s ∈ _completed_runnables Z ex2)
     (dependents_of Z ex2 0)) /\
  (0 ∈ rid <$> _output_runnables Z ex1 \/
   exists s, s ∈ dependents_of Z ex1 0 /\ s ∉ _completed_runnables Z ex1) /\
  _completed_results Z ex2 !! 0 = None.
Proof.
  assert (is_Some (_completed_results Z ex1 !! 0)) as Hcached
    by (vm_compute; eauto).
  assert (0 ∉ rid <$> _output_runnables Z ex2) as Hout.
  { intros H. apply list_elem_of_singleton in H. discriminate. }
  assert (set_Forall (fun s => s ∈ _completed_runnables Z ex2)
            (dependents_of Z ex2 0)) as Hall.
  { assert (dependents_of Z ex2 0 = {[1]}) as -> by (vm_compute; reflexivity).
    intros s ->%elem_of_singleton. vm_compute. reflexivity. }
  split.
  { split; [exact ex1_ticks|]. split; [exact Hcached|].
    split; [exact ex2_ticks|]. split; [exact Hout | exact Hall]. }
  split.
  - apply (C2_cache_holds_outputs_and_live_results Z example_loaders in_order
             in_order_perm [t0; t1] [t1] ["output.json"] example_wf ex1 0
             ex1_ticks). exact Hcached.
  - apply (C2_cache_holds_outputs_and_live_results Z example_loaders in_order
             in_order_perm [t0; t1] [t1] ["output.json"] example_wf ex2 0
             ex2_ticks); [exact Hout | exact Hall].
Defined.

(** After the second call the output [t1] has completed: it is not among the
    incomplete outputs any more, nothing depends on it, and its result is
    kept, for [save]. *)
Lemma C2_counterexample :
  ticks Z example_loaders in_order ex0 ex2 /\
  ~ cache_only_pending_or_live Z ex2.
Proof.
  split; [exact ex2_ticks|]. intros H.
  destruct (H 1) as [Hin | (s & Hs & _)].
  - vm_compute. eauto.
  - vm_compute in Hin. discriminate.
  - assert (dependents_of Z ex2 1 = ∅) as E by (vm_compute; reflexivity).
    rewrite E in Hs. set_solver.
Qed.

Definition mask_option : string * OptionValue Z := ("mask", OptFile input0).

Lemma C3_witness :
  (parameters_lookup (init_parameters Z MultiplyCls) "mask" = None /\
   format_algorithm_options Z example_loaders (init_parameters Z MultiplyCls)
     ([("factor", OptValue 2%Z)] ++ mask_option :: [])
     = ([EvWarn "ConstructorExtraParameterWarning" "mask"],
        Return [("factor", OptValue 2%Z)]) /\
   example_registry "filter" "Multiply" = Return MultiplyCls) /\
  format_option Z example_loaders (init_parameters Z MultiplyCls) mask_option
    = ([EvWarn "ConstructorExtraParameterWarning" "mask"], Return []) /\
  (EvWarn "ConstructorExtraParameterWarning" "mask"
     ∈ [@EvWarn Z "ConstructorExtraParameterWarning" "mask"] /\
   (format_algorithm_options Z example_loaders (init_parameters Z MultiplyCls)
      ([("factor", OptValue 2%Z)] ++ [])).2
     = Return [("factor", OptValue 2%Z)]) /\
  (Runnable_init Z example_loaders example_registry 0 "filter" "Multiply"
     [ArgFile input0] ([("factor", OptValue 2%Z)] ++ mask_option :: [])).2 =
  (Runnable_init Z example_loaders example_registry 0 "filter" "Multiply"
     [ArgFile input0] ([("factor", OptValue 2%Z)] ++ [])).2.
Proof.
  split; [split; [reflexivity | split; reflexivity]|].
  destruct (C3_untyped_file_option_is_dropped Z example_loaders
              example_registry (init_parameters Z MultiplyCls) "mask" input0
              eq_refl) as (Hwarn & Hfmt & Hinit).
  split; [exact Hwarn|]. split.
  - apply (Hfmt [("factor", OptValue 2%Z)] []). reflexivity.
  - apply (Hinit 0 "filter" "Multiply" [ArgFile input0]
             [("factor", OptValue 2%Z)] [] MultiplyCls); reflexivity.
Defined.

(** [compute("filter", "Multiply", .., factor=2, mask=file_inputs[0])]: the
    constructor of [Multiply] has no parameter [mask]; it is called with
    [factor] alone. *)
Lemma C3_counterexample :
  parameters_lookup (init_parameters Z MultiplyCls) "mask" = None /\
  ~ option_reaches_constructor Z example_loaders
      (init_parameters Z MultiplyCls)
      [("factor", OptValue 2%Z); mask_option] "mask" input0.
Proof.
  split; [reflexivity|]. intros (tr & formatted & Hfmt & Hin).
  vm_compute in Hfmt. injection Hfmt as <- <-.
  apply list_elem_of_singleton in Hin. discriminate.
Qed.

Definition two_outputs : gmap Z (PyObj Z) :=
  {[0%Z := ObjRunnable t0; 1%Z := ObjRunnable t1]}.

Lemma two_outputs_one_path : validation_fails Z two_outputs ["output.json"].
Proof. left. vm_compute. lia. Qed.

(** An index left out: [file_outputs[0]] and [file_outputs[2]] set, two
    destinations. *)
Example missing_index :
  Recipe_init Z [t0; t1]
    {[0%Z := ObjRunnable t0; 2%Z := ObjRunnable t1]} ["a.json"; "b.json"]
    = Raise (AssertionError "file_outputs[1] is not set").
Proof. vm_compute. reflexivity. Qed.

Lemma C4_witness :
  validation_fails Z two_outputs ["output.json"] /\
  exists e, Recipe_init Z [t0; t1] two_outputs ["output.json"] = Raise e /\
            isinstance_AssertionError e = true /\
            isinstance_RecipeError e = false.
Proof.
  split; [exact two_outputs_one_path|].
  apply (C4_invalid_outputs_raise_AssertionError Z [t0; t1] two_outputs
           ["output.json"] two_outputs_one_path).
Defined.

(** Two outputs declared, one destination supplied: the [assert] on line 146
    raises an [AssertionError]. *)
Lemma C4_counterexample :
  validation_fails Z two_outputs ["output.json"] /\
  ~ raises_RecipeError Z (Recipe_init Z [t0; t1] two_outputs ["output.json"]).
Proof.
  split; [exact two_outputs_one_path|]. intros (e & He & HR).
  vm_compute in He. injection He as <-. discriminate.
Qed.



Definition example_results : gmap nat Z := {[0 := 10%Z]}.

Lemma t1_inputs_resolve :
  Forall2 (resolves_to Z example_loaders example_results) (_inputs t1) [10%Z].
Proof. repeat constructor. Qed.

Lemma C6_witness :
  (Runnable_init Z example_loaders example_registry 0 "filter" "Multiply"
     [ArgFile input0] [("factor", OptValue 2%Z)] = ([], Return t0) /\
   Forall2 (resolves_to Z example_loaders example_results) (_inputs t1)
     [10%Z]) /\
  (exists cls a0 keys,
     example_registry "filter" "Multiply" = Return cls /\
     run_parameters Z (_algorithm_instance Z t0) = ("self", a0) :: keys /\
     length (_inputs t0) = length [@ArgFile Z FileProvider (Runnable Z) input0] /\
     Forall2 (bound_as Z) (zip [ArgFile input0] keys) (_inputs t0) /\
     [] = (format_algorithm_options Z example_loaders
             (init_parameters Z cls) [("factor", OptValue 2%Z)]).1) /\
  Runnable_run Z example_loaders t1 example_results =
    (loads_of Z (_inputs t1),
     match algorithm_run Z (_algorithm_instance Z t1) [10%Z] with
     | Return v => Return v
     | Raise e =>
         Raise (if isinstance_Exception e then ExecutionError e else e)
     end).
Proof.
  destruct (C6_inputs_bound_at_construction_decoded_at_run Z example_loaders
              example_registry) as [Hinit Hrun].
  split_and!.
  - exact construct_t0.
  - exact t1_inputs_resolve.
  - exact (Hinit 0 "filter" "Multiply" [ArgFile input0]
             [("factor", OptValue 2%Z)] [] t0 construct_t0).
  - exact (Hrun t1 example_results [10%Z] t1_inputs_resolve).
Defined.

(** A task whose algorithm is called without its argument: [run] raises. *)
Definition t_bad : Runnable Z :=
  MkRunnable 2 "filter" "Multiply" (Multiply 2) [].

Definition ex_bad : Execution Z :=
  Execution_init Z in_order [t_bad] [t_bad] ["output.json"].

Lemma C7_witness :
  (Runnable_init Z example_loaders example_registry 0 "filter" "Multiply"
     [ArgFile input0] [] = ([], Raise (ConstructorError TypeError)) /\
   exc_cause (ConstructorError TypeError) = Some TypeError) /\
  (Runnable_run Z example_loaders t_bad ∅
     = (loads_of Z (_inputs t_bad), Raise (ExecutionError TypeError)) /\
   exc_cause (ExecutionError TypeError) = Some TypeError) /\
  run_one_tick Z example_loaders in_order ex_bad
    = (([], Raise (ExecutionError TypeError)),
       set_iterator Z ex_bad []).
Proof.
  destruct (C7_failures_are_wrapped_with_their_cause Z example_loaders
              example_registry in_order) as (Hnew & Hrun & Htick).
  split; [|split].
  - apply (Hnew 0 "filter" "Multiply" [ArgFile input0] [] MultiplyCls None
             [("factor", float)] [] [] TypeError); reflexivity.
  - apply (Hrun t_bad ∅ [] TypeError); [constructor | reflexivity..].
  - apply (Htick ex_bad t_bad [] [] TypeError); vm_compute; reflexivity.
Defined.

Lemma C9_witness :
  (Runnable_init Z example_loaders example_registry 0 "filter" "Multiply"
     [ArgFile input0] [("factor", OptValue 2%Z)] = ([], Return t0) /\
   algorithm_new Z MultiplyCls [("factor", OptValue 2%Z)]
     = Return (Multiply 2) /\
   length [("stack", float)]
     < length [@ArgFile Z FileProvider (Runnable Z) input0; ArgValue 1%Z]) /\
  S (length [@ArgFile Z FileProvider (Runnable Z) input0])
    <= length (run_parameters Z (_algorithm_instance Z t0)) /\
  exists e,
    Runnable_init Z example_loaders example_registry 0 "filter" "Multiply"
      [ArgFile input0; ArgValue 1%Z] [("factor", OptValue 2%Z)]
      = ([], Raise e) /\
    isinstance_AssertionError e = true.
Proof.
  split; [split; [exact construct_t0 | split; [reflexivity | simpl; lia]]|].
  split.
  - apply (proj1 (C9_too_many_inputs_fail_at_construction Z example_loaders
                    example_registry 0 "filter" "Multiply" [ArgFile input0]
                    [("factor", OptValue 2%Z)]) [] t0 construct_t0).
  - apply (proj2 (C9_too_many_inputs_fail_at_construction Z example_loaders
                    example_registry 0 "filter" "Multiply"
                    [ArgFile input0; ArgValue 1%Z] [("factor", OptValue 2%Z)])
             MultiplyCls None [("factor", float)] []
             [("factor", OptValue 2%Z)] (Multiply 2) None [("stack", float)]);
      try reflexivity.
    simpl. lia.
Defined.

Lemma ex2_all_completed x :
  x ∈ [t0; t1] -> rid x ∈ needed_runnables Z ex2 ->
  rid x ∈ _completed_runnables Z ex2.
Proof.
  intros [->|Hx]%elem_of_cons _.
  - vm_compute. reflexivity.
  - apply list_elem_of_singleton in Hx as ->. vm_compute. reflexivity.
Qed.

Lemma bad_wf : recipe_wf Z [t_bad] [t_bad].
Proof.
  split.
  - apply NoDup_singleton.
  - intros x d Hx Hd. apply list_elem_of_singleton in Hx as ->.
    unfold dep in Hd. simpl in Hd. by apply elem_of_nil in Hd.
  - done.
Qed.

(** The execution of [t_bad] alone after the call in which its run raised:
    the iterator is empty, and [t_bad] has not completed. *)
Definition ex_bad1 : Execution Z :=
  (run_one_tick Z example_loaders in_order ex_bad).2.

Lemma ex_bad1_ticks : ticks Z example_loaders in_order ex_bad ex_bad1.
Proof. apply ticks_step, ticks_refl. Qed.

Lemma ex_bad1_exhausted x :
  x ∈ _runnable_sequence Z ex_bad1 -> rid x ∉ needed_runnables Z ex_bad1.
Proof. intros Hx. by apply elem_of_nil in Hx. Qed.

Lemma C10_witness :
  (recipe_wf Z [t0; t1] [t1] /\ recipe_wf Z [t_bad] [t_bad] /\
   ticks Z example_loaders in_order ex0 ex2 /\
   (forall x, x ∈ [t0; t1] -> rid x ∈ needed_runnables Z ex2 ->
              rid x ∈ _completed_runnables Z ex2) /\
   complete Z ex2 = true /\
   ticks_ok Z example_loaders in_order ex0 ex1 /\ complete Z ex1 = false /\
   ticks Z example_loaders in_order ex_bad ex_bad1 /\
   (rid t_bad ∉ _completed_runnables Z ex_bad1) /\
   (forall x, x ∈ _runnable_sequence Z ex_bad1 ->
              rid x ∉ needed_runnables Z ex_bad1)) /\
  run_one_tick Z example_loaders in_order ex_bad1
    = (([], Raise StopIteration), set_iterator Z ex_bad1 []) /\
  run_one_tick Z example_loaders in_order ex2
    = (([], Raise StopIteration), set_iterator Z ex2 []) /\
  run_one_tick Z example_loaders in_order ex2
    = (([], Raise StopIteration), set_iterator Z ex2 []) /\
  is_Some (tick_candidate Z ex1) /\
  exists tr o st,
    run_and_save Z example_loaders example_save in_order ex0
      = Some ((tr, o), st) /\
    match o with
    | Return _ =>
        ticks_ok Z example_loaders in_order ex0 st /\ complete Z st = true /\
        run_one_tick Z example_loaders in_order st
          = (([], Raise StopIteration), set_iterator Z st [])
    | Raise e =>
        (exists st' c tr',
           ticks_ok Z example_loaders in_order ex0 st' /\
           complete Z st' = false /\
           tick_candidate Z st' = Some c /\
           Runnable_run Z example_loaders c (_completed_results Z st')
             = (tr', Raise e) /\
           st = (run_one_tick Z example_loaders in_order st').2) \/
        (ticks_ok Z example_loaders in_order ex0 st /\ complete Z st = true /\
         exists v p, example_save v p = Raise e)
    end.
Proof.
  assert (rid t_bad ∉ _completed_runnables Z ex_bad1) as Hnot.
  { vm_compute. intros H. discriminate H. }
  split.
  { split; [exact example_wf|]. split; [exact bad_wf|].
    split; [exact ex2_ticks|]. split; [exact ex2_all_completed|].
    split; [reflexivity|]. split; [exact ex1_ticks_ok|].
    split; [reflexivity|]. split; [exact ex_bad1_ticks|].
    split; [exact Hnot | exact ex_bad1_exhausted]. }
  destruct (C10_tick_on_exhausted_sequence_raises Z example_loaders
              example_save in_order in_order_perm [t0; t1] [t1]
              ["output.json"] example_wf) as [Hticks Hrun].
  destruct (C10_tick_on_exhausted_sequence_raises Z example_loaders
              example_save in_order in_order_perm [t_bad] [t_bad]
              ["output.json"] bad_wf) as [Hbad _].
  split; [|split; [|split; [|split]]].
  - apply (proj1 (Hbad ex_bad1 ex_bad1_ticks)). exact ex_bad1_exhausted.
  - apply (proj1 (proj2 (Hticks ex2 ex2_ticks))). exact ex2_all_completed.
  - apply (proj1 (proj2 (proj2 (Hticks ex2 ex2_ticks)))). reflexivity.
  - apply (proj2 (proj2 (proj2 (Hticks ex1 ex1_ticks))));
      [exact ex1_ticks_ok | reflexivity].
  - exact Hrun.
Defined.

(** A recipe where the orders matter: [t2 = compute("filter", "Add", t0,
    t1)] has two dependencies, which a set may give in either order. *)
Definition Add : AlgorithmInstance Z :=
  {| run_parameters := [("self", None); ("a", float); ("b", float)];
     algorithm_run := fun args =>
       match args with
       | [x; y] => Return (x + y)%Z
       | _ => Raise TypeError
       end |}.

Definition t2 : Runnable Z :=
  MkRunnable 2 "filter" "Add" Add [ArgRunnable t0; ArgRunnable t1].

Definition sum_recipe : Recipe Z :=
  {| _runnable_order := [t0; t1; t2];
     _recipe_outputs := [t2];
     _recipe_output_paths := ["sum.json"] |}.

Definition sum_events : list (Event Z) :=
  [EvLoad {| backing_file_provider := input0; object_class := float |};
   EvSave "sum.json" 40%Z].

Lemma sum_wf : recipe_wf Z [t0; t1; t2] [t2].
Proof.
  split.
  - simpl. repeat (apply NoDup_cons; split; [set_solver|]). apply NoDup_nil_2.
  - intros x d Hx Hd. unfold dep in Hd.
    apply elem_of_cons in Hx as [->|Hx]; [by apply elem_of_nil in Hd|].
    apply elem_of_cons in Hx as [->|Hx].
    { apply list_elem_of_singleton in Hd as ->. left. }
    apply list_elem_of_singleton in Hx as ->. simpl in Hd.
    apply elem_of_cons in Hd as [->|Hd]; [left|].
    apply list_elem_of_singleton in Hd as ->. right. left.
  - intros o Ho. apply list_elem_of_singleton in Ho as ->. set_solver.
Qed.

Lemma sum_orders_differ :
  runnable_dependencies Z in_order t2 = [t0; t1] /\
  runnable_dependencies Z backwards t2 = [t1; t0].
Proof. split; reflexivity. Qed.

Lemma sum_reads_the_same :
  reads_the_same Z sum_recipe example_loaders
    (loaders_after [("sum.json", 40%Z)] example_loaders).
Proof.
  intros c p Hc Hp. apply loaders_after_unchanged.
  apply elem_of_cons in Hc as [->|Hc].
  { apply list_elem_of_singleton in Hp. injection Hp as ->.
    intros H. apply list_elem_of_singleton in H. discriminate. }
  apply elem_of_cons in Hc as [->|Hc].
  { apply list_elem_of_singleton in Hp. discriminate. }
  apply list_elem_of_singleton in Hc as ->.
  apply elem_of_cons in Hp as [Hp|Hp]; [discriminate|].
  apply list_elem_of_singleton in Hp. discriminate.
Qed.

Lemma sum_writes_the_same :
  writes_the_same Z sum_recipe example_save example_save.
Proof. intros v path _. reflexivity. Qed.

Lemma sum_inputs_not_written c p :
  c ∈ _runnable_order Z sum_recipe -> ArgFile p ∈ _inputs c ->
  path_or_url (backing_file_provider p) ∉ (saved_outputs Z sum_events).*1.
Proof.
  intros Hc Hp. apply elem_of_cons in Hc as [->|Hc].
  { apply list_elem_of_singleton in Hp. injection Hp as ->.
    intros H. apply list_elem_of_singleton in H. discriminate. }
  apply elem_of_cons in Hc as [->|Hc].
  { apply list_elem_of_singleton in Hp. discriminate. }
  apply list_elem_of_singleton in Hc as ->.
  apply elem_of_cons in Hp as [Hp|Hp]; [discriminate|].
  apply list_elem_of_singleton in Hp. discriminate.
Qed.

Lemma C8_witness :
  ((forall l, in_order l ≡ₚ l) /\ (forall l, backwards l ≡ₚ l) /\
   runnable_dependencies Z in_order t2 = [t0; t1] /\
   runnable_dependencies Z backwards t2 = [t1; t0] /\
   recipe_wf Z (_runnable_order Z sum_recipe) (_recipe_outputs Z sum_recipe) /\
   reads_the_same Z sum_recipe example_loaders
     (loaders_after [("sum.json", 40%Z)] example_loaders) /\
   writes_the_same Z sum_recipe example_save example_save /\
   (exists st,
      run_and_save Z example_loaders example_save in_order
        (Recipe_execution Z in_order sum_recipe)
        = Some ((sum_events, Return tt), st)) /\
   (forall c p, c ∈ _runnable_order Z sum_recipe -> ArgFile p ∈ _inputs c ->
      path_or_url (backing_file_provider p)
        ∉ (saved_outputs Z sum_events).*1)) /\
  is_Some (run_and_save Z example_loaders example_save in_order
             (Recipe_execution Z in_order sum_recipe)) /\
  run_and_save Z example_loaders example_save in_order
      (Recipe_execution Z in_order sum_recipe) =
    run_and_save Z (loaders_after [("sum.json", 40%Z)] example_loaders)
      example_save backwards (Recipe_execution Z backwards sum_recipe) /\
  (exists st,
     run_and_save Z
       (loaders_after (saved_outputs Z sum_events) example_loaders)
       example_save backwards (Recipe_execution Z backwards sum_recipe)
       = Some ((sum_events, Return tt), st)).
Proof.
  assert (exists st,
            run_and_save Z example_loaders example_save in_order
              (Recipe_execution Z in_order sum_recipe)
            = Some ((sum_events, Return tt), st)) as [st H1]
    by (eexists; vm_compute; reflexivity).
  split.
  { split; [exact in_order_perm|]. split; [exact backwards_perm|].
    split; [exact (proj1 sum_orders_differ)|].
    split; [exact (proj2 sum_orders_differ)|].
    split; [exact sum_wf|]. split; [exact sum_reads_the_same|].
    split; [exact sum_writes_the_same|].
    split; [exists st; exact H1 | exact sum_inputs_not_written]. }
  destruct (C8_executions_reading_the_same_files_save_the_same_outputs Z
              in_order backwards in_order_perm backwards_perm sum_recipe
              sum_wf example_loaders example_save) as [Hsame Hagain].
  destruct (Hsame (loaders_after [("sum.json", 40%Z)] example_loaders)
              example_save sum_reads_the_same sum_writes_the_same)
    as (Hends & Heq & _).
  split; [exact Hends|]. split; [exact Heq|].
  exists st. exact (Hagain sum_events (Return tt) st H1 sum_inputs_not_written).
Defined.

(** The recipe of the example with its output written over its input:
    [Recipe(.., ["input.json"], ["input.json"])].  The first execution
    decodes 5 and writes 30 to [input.json]; the second decodes 30 and
    writes 180. *)
Definition overwriting_recipe : Recipe Z :=
  {| _runnable_order := [t0; t1];
     _recipe_outputs := [t1];
     _recipe_output_paths := ["input.json"] |}.

Lemma C8_counterexample :
  recipe_wf Z (_runnable_order Z overwriting_recipe)
    (_recipe_outputs Z overwriting_recipe) /\
  ~ saves_the_same_again Z in_order in_order overwriting_recipe
      example_loaders example_save.
Proof.
  split; [exact example_wf|]. intros Hsame.
  assert (exists st,
            run_and_save Z example_loaders example_save in_order
              (Recipe_execution Z in_order overwriting_recipe)
            = Some (([EvLoad {| backing_file_provider := input0;
                                object_class := float |};
                      EvSave "input.json" 30%Z], Return tt), st))
    as [st1 H1] by (eexists; vm_compute; reflexivity).
  assert (exists st,
            run_and_save Z
              (loaders_after [("input.json", 30%Z)] example_loaders)
              example_save in_order
              (Recipe_execution Z in_order overwriting_recipe)
            = Some (([EvLoad {| backing_file_provider := input0;
                                object_class := float |};
                      EvSave "input.json" 180%Z], Return tt), st))
    as [st2 H2] by (eexists; vm_compute; reflexivity).
  pose proof (Hsame _ _ _ _ _ _ H1 H2) as E. vm_compute in E. discriminate E.
Qed.

(** ** More theorems on the example *)

Lemma ex2_ticks_ok_n : ticks_ok_n Z example_loaders in_order ex0 2 ex2.
Proof.
  eapply (ticks_ok_n_S Z example_loaders in_order ex0 1 ex1).
  - eapply (ticks_ok_n_S Z example_loaders in_order ex0 0 ex0).
    + apply ticks_ok_n_O.
    + vm_compute. reflexivity.
  - vm_compute. reflexivity.
Qed.

Lemma t0_topological : topological Z [t0].
Proof.
  intros l1 x l2 d E Hd. destruct l1 as [|y l1].
  - injection E as <- _. unfold dep in Hd. simpl in Hd.
    by apply elem_of_nil in Hd.
  - injection E as _ E. by destruct l1.
Qed.

Lemma t1_inputs_in_sequence d :
  ArgRunnable d ∈ [@ArgRunnable Z FileProvider (Runnable Z) t0] -> d ∈ [t0].
Proof.
  intros Hd. apply list_elem_of_singleton in Hd. injection Hd as ->. left.
Qed.

Example compute_t1 :
  OrderedSequence_call Z example_loaders example_registry [t0] 1 "filter"
    "Multiply" [ArgRunnable t0] [("factor", OptValue 3%Z)]
    = ([], Return (t1, [t0; t1])).
Proof. reflexivity. Qed.

Lemma example_topological : topological Z [t0; t1].
Proof.
  exact (compute_topological Z example_loaders example_registry [t0] 1
           "filter" "Multiply" [ArgRunnable t0] [("factor", OptValue 3%Z)]
           [] t1 [t0; t1] compute_t1 t0_topological t1_inputs_in_sequence).
Qed.

Lemma t1_depends_on_t0 : dep Z t1 t0.
Proof. unfold dep. simpl. left. Qed.

Lemma X1_witness :
  recipe_wf Z [t0; t1] [t1] /\
  (1 ∈ dependents_of Z ex0 0 <->
   exists x e, x ∈ [t0; t1] /\ rid x ∈ needed_runnables Z ex0 /\
               dep Z x e /\ rid e = 0 /\ rid x = 1) /\
  (1 ∈ dependents_of Z ex0 0 ->
   1 ∈ needed_runnables Z ex0 /\ 0 ∈ needed_runnables Z ex0) /\
  (is_Some (runnable_dependents Z ex0 !! 0) <->
   exists s', s' ∈ dependents_of Z ex0 0).
Proof.
  split; [exact example_wf|].
  exact (X1_dependents_index_holds_the_needed_referrers Z in_order
           in_order_perm [t0; t1] [t1] ["output.json"] example_wf 0 1).
Defined.

Lemma X2_witness :
  ticks Z example_loaders in_order ex0 ex1 /\
  (is_Some (_completed_results Z ex1 !! 0) <->
   0 ∈ _completed_runnables Z ex1 /\
   (0 ∈ rid <$> _output_runnables Z ex1 \/
    exists s, s ∈ dependents_of Z ex1 0 /\ s ∉ _completed_runnables Z ex1)).
Proof.
  split; [exact ex1_ticks|].
  exact (X2_results_hold_exactly_the_live_tasks Z example_loaders in_order
           in_order_perm [t0; t1] [t1] ["output.json"] example_wf ex1 0
           ex1_ticks).
Defined.

Lemma X3_witness :
  (ticks Z example_loaders in_order ex0 ex0 /\
   tick_candidate Z ex0 = Some t0 /\
   ticks Z example_loaders in_order
     (run_one_tick Z example_loaders in_order ex0).2 ex1 /\
   tick_candidate Z ex1 = Some t1) /\
  rid t1 <> rid t0.
Proof.
  assert (ticks Z example_loaders in_order
            (run_one_tick Z example_loaders in_order ex0).2 ex1) as Hlater
    by apply ticks_refl.
  split.
  { split; [apply ticks_refl|]. split; [reflexivity|].
    split; [exact Hlater | reflexivity]. }
  apply (X3_task_selected_at_most_once Z example_loaders in_order
           in_order_perm [t0; t1] [t1] ["output.json"] example_wf ex0 t0 ex1
           t1); [apply ticks_refl | reflexivity | exact Hlater | reflexivity].
Defined.

Lemma X4_witness :
  (recipe_wf Z [t_bad] [t_bad] /\
   tick_candidate Z ex_bad = Some t_bad /\
   Runnable_run Z example_loaders t_bad (_completed_results Z ex_bad)
     = ([], Raise (ExecutionError TypeError))) /\
  complete Z (run_one_tick Z example_loaders in_order ex_bad).2 = false /\
  rid t_bad ∉ _completed_runnables Z
                (run_one_tick Z example_loaders in_order ex_bad).2.
Proof.
  split; [split; [exact bad_wf | split; reflexivity]|].
  apply (X4_failed_task_blocks_completion Z example_loaders in_order
           in_order_perm [t_bad] [t_bad] ["output.json"] bad_wf ex_bad t_bad
           [] (ExecutionError TypeError));
    [apply ticks_refl | reflexivity | reflexivity | apply ticks_refl].
Defined.

Lemma X5_witness :
  ticks_ok_n Z example_loaders in_order ex0 2 ex2 /\
  size (_completed_runnables Z ex2) = 2 /\
  _completed_runnables Z ex2 ⊆ needed_runnables Z ex2 /\
  (complete Z ex2 = true ->
   _completed_runnables Z ex2 = needed_runnables Z ex2 /\
   2 = size (needed_runnables Z ex2)).
Proof.
  split; [exact ex2_ticks_ok_n|].
  exact (X5_one_task_per_tick_and_all_needed_at_completion Z example_loaders
           in_order in_order_perm [t0; t1] [t1] ["output.json"] example_wf
           ex2 2 ex2_ticks_ok_n).
Defined.

Lemma X6_witness :
  (topological Z [t0; t1] /\
   ticks_ok Z example_loaders in_order ex0 ex1 /\
   tick_candidate Z ex1 = Some t1 /\ dep Z t1 t0) /\
  is_Some (_completed_results Z ex1 !! rid t0).
Proof.
  split.
  { split; [exact example_topological|]. split; [exact ex1_ticks_ok|].
    split; [reflexivity | exact t1_depends_on_t0]. }
  apply (X6_dependencies_cached_when_selected Z example_loaders in_order
           in_order_perm [t0; t1] [t1] ["output.json"] example_wf ex1 t1 t0);
    [exact example_topological | exact ex1_ticks_ok | reflexivity
    | exact t1_depends_on_t0].
Defined.

Lemma X7_witness :
  (ticks Z example_loaders in_order ex0 ex2 /\ complete Z ex2 = true) /\
  exists vs,
    Forall2 (fun o v => _completed_results Z ex2 !! rid o = Some v)
      (_output_runnables Z ex2) vs /\
    ((forall p v, (p, v) ∈ zip (_output_paths Z ex2) vs ->
                  example_save v p = Return tt) ->
     save Z example_save ex2
       = (writes Z (zip (_output_paths Z ex2) vs), Return tt)) /\
    (forall l1 p v l2 e,
       zip (_output_paths Z ex2) vs = l1 ++ (p, v) :: l2 ->
       (forall p' v', (p', v') ∈ l1 -> example_save v' p' = Return tt) ->
       example_save v p = Raise e ->
       save Z example_save ex2 = (writes Z l1, Raise e)).
Proof.
  split; [split; [exact ex2_ticks | reflexivity]|].
  apply (X7_save_writes_each_output_to_its_destination Z example_loaders
           example_save in_order in_order_perm [t0; t1] [t1] ["output.json"]
           example_wf ex2); [exact ex2_ticks | reflexivity].
Defined.

Lemma X8_witness :
  recipe_wf Z [t0; t1] [t1] /\
  exists tr o st,
    run_and_save Z example_loaders example_save in_order ex0
      = Some ((tr, o), st) /\
    match o with
    | Return _ =>
        ticks_ok Z example_loaders in_order ex0 st /\ complete Z st = true /\
        exists vs,
          Forall2 (fun o v => _completed_results Z st !! rid o = Some v)
            (_output_runnables Z st) vs /\
          saved_outputs Z tr = zip (_output_paths Z st) vs
    | Raise e =>
        (exists st' c tr',
           ticks_ok Z example_loaders in_order ex0 st' /\
           complete Z st' = false /\
           tick_candidate Z st' = Some c /\
           Runnable_run Z example_loaders c (_completed_results Z st')
             = (tr', Raise e) /\
           st = (run_one_tick Z example_loaders in_order st').2 /\
           saved_outputs Z tr = []) \/
        (ticks_ok Z example_loaders in_order ex0 st /\ complete Z st = true /\
         exists v p, example_save v p = Raise e)
    end.
Proof.
  split; [exact example_wf|].
  exact (X8_run_and_save_returns_saved_or_raises_from_a_task Z
           example_loaders example_save in_order in_order_perm [t0; t1] [t1]
           ["output.json"] example_wf).
Defined.

(** [t1] run before [t0]: the result of [t0] is missing. *)
Lemma X9_witness :
  (_inputs t1 = [] ++ ArgRunnable t0 :: [] /\
   Forall2 (resolves_to Z example_loaders ∅) [] [] /\
   input_fails Z example_loaders ∅ (ArgRunnable t0) KeyError) /\
  Runnable_run Z example_loaders t1 ∅
    = (loads_of Z ([] ++ [ArgRunnable t0]), Raise KeyError).
Proof.
  assert (input_fails Z example_loaders ∅ (ArgRunnable t0) KeyError) as Hfail
    by (split; reflexivity).
  split; [split; [reflexivity | split; [constructor | exact Hfail]]|].
  apply (X9_run_raises_at_the_first_unresolved_input Z example_loaders t1 ∅
           [] (ArgRunnable t0) [] [] KeyError);
    [reflexivity | constructor | exact Hfail].
Defined.

Definition example_loader (path : string) : outcome Z :=
  if decide (path = "input.json") then Return 5%Z
  else Raise (OtherException "FileNotFoundError").

(** [compute("filter", "Multiply", .., factor=file_inputs[0])]: the factor
    is decoded from the file. *)
Lemma X10_witness :
  (parameters_lookup (init_parameters Z MultiplyCls) "factor" = Some float /\
   example_loaders float = Some example_loader /\
   example_loader (path_or_url input0) = Return 5%Z) /\
  format_option Z example_loaders (init_parameters Z MultiplyCls)
    ("factor", OptFile input0)
    = ([EvLoad {| backing_file_provider := input0; object_class := float |}],
       Return [("factor", OptValue 5%Z)]) /\
  (Runnable_init Z example_loaders example_registry 0 "filter" "Multiply"
     [ArgFile input0] ([] ++ ("factor", OptFile input0) :: [])).2 =
  (Runnable_init Z example_loaders example_registry 0 "filter" "Multiply"
     [ArgFile input0] ([] ++ ("factor", OptValue 5%Z) :: [])).2.
Proof.
  split; [split; [reflexivity | split; reflexivity]|].
  destruct (X10_typed_file_option_is_decoded_at_construction Z
              example_loaders example_registry
              (init_parameters Z MultiplyCls) "factor" input0 float
              example_loader 5%Z eq_refl eq_refl eq_refl) as [Hopt Hinit].
  split; [exact Hopt|].
  apply (Hinit 0 "filter" "Multiply" [ArgFile input0] [] [] MultiplyCls);
    reflexivity.
Defined.

(** An algorithm whose constructor takes a mask of a type without a loader,
    and whose [run] takes an image without an annotation. *)
Definition Apply : AlgorithmInstance Z :=
  {| run_parameters := [("self", None); ("image", None)];
     algorithm_run := fun args =>
       match args with
       | [x] => Return x
       | _ => Raise TypeError
       end |}.

Definition ApplyCls : AlgorithmCls Z :=
  {| init_parameters := [("self", None); ("mask", Some "ndarray")];
     algorithm_new := fun kwargs => Return Apply |}.

Definition apply_registry (component algorithm : string)
    : outcome (AlgorithmCls Z) :=
  Return ApplyCls.

Definition missing : FileProvider := {| path_or_url := "missing.json" |}.

(** [mask=file_inputs[0]] for a mask of a type without a loader, and
    [factor=..] from a file that is not there. *)
Lemma X11_witness :
  (apply_registry "filter" "Apply" = Return ApplyCls /\
   parameters_lookup (init_parameters Z ApplyCls) "mask" = Some (Some "ndarray") /\
   example_loaders (Some "ndarray") = None /\
   example_registry "filter" "Multiply" = Return MultiplyCls /\
   parameters_lookup (init_parameters Z MultiplyCls) "factor" = Some float /\
   example_loaders float = Some example_loader /\
   example_loader (path_or_url missing)
     = Raise (OtherException "FileNotFoundError")) /\
  Runnable_init Z example_loaders apply_registry 0 "filter" "Apply" []
    ([] ++ ("mask", OptFile input0) :: [])
    = ([], Raise (TypeInferenceError TypeError)) /\
  Runnable_init Z example_loaders example_registry 0 "filter" "Multiply" []
    ([] ++ ("factor", OptFile missing) :: [])
    = ([] ++ [EvLoad {| backing_file_provider := missing;
                        object_class := float |}],
       Raise (OtherException "FileNotFoundError")).
Proof.
  split; [repeat (split; [reflexivity|]); reflexivity|].
  split.
  - apply (proj1 (X11_option_that_cannot_be_decoded_stops_the_construction Z
                    example_loaders apply_registry 0 "filter" "Apply" []
                    ApplyCls None [("mask", Some "ndarray")] "mask" input0
                    (Some "ndarray") [] [] [] []
                    eq_refl eq_refl eq_refl eq_refl)).
    reflexivity.
  - apply (proj2 (X11_option_that_cannot_be_decoded_stops_the_construction Z
                    example_loaders example_registry 0 "filter" "Multiply" []
                    MultiplyCls None [("factor", float)] "factor" missing
                    float [] [] [] []
                    eq_refl eq_refl eq_refl eq_refl) example_loader
             (OtherException "FileNotFoundError")); reflexivity.
Defined.

(** [compute("filter", "Apply", file_inputs[0])]: the parameter [image] of
    [run] has no annotation. *)
Lemma X12_witness :
  (apply_registry "filter" "Apply" = Return ApplyCls /\
   format_algorithm_options Z example_loaders (init_parameters Z ApplyCls) []
     = ([], Return []) /\
   algorithm_new Z ApplyCls [] = Return Apply /\
   length [@ArgFile Z FileProvider (Runnable Z) input0]
     <= length [("image", @None string)] /\
   zip [@ArgFile Z FileProvider (Runnable Z) input0]
     [("image", @None string)]
     = [] ++ (ArgFile input0, ("image", None)) :: [] /\
   Forall (bindable Z example_loaders) [] /\
   example_loaders None = None) /\
  Runnable_init Z example_loaders apply_registry 0 "filter" "Apply"
    [ArgFile input0] []
    = ([], Raise (TypeInferenceError TypeError)).
Proof.
  split.
  { split; [reflexivity|]. split; [reflexivity|]. split; [reflexivity|].
    split; [simpl; lia|]. split; [reflexivity|].
    split; [constructor | reflexivity]. }
  apply (X12_file_input_without_loader_raises_TypeInferenceError Z
           example_loaders apply_registry 0 "filter" "Apply" [ArgFile input0]
           [] ApplyCls None [("mask", Some "ndarray")] [] [] Apply None
           [("image", None)] [] input0 "image" None []);
    [reflexivity | reflexivity | reflexivity | reflexivity | reflexivity
    | simpl; lia | reflexivity | constructor | reflexivity].
Defined.

(** The second call of the example: [compute("filter", "Multiply", t0,
    factor=3)] on the sequence that holds [t0]. *)
Lemma X13_witness :
  (OrderedSequence_call Z example_loaders example_registry [t0] 1 "filter"
     "Multiply" [ArgRunnable t0] [("factor", OptValue 3%Z)]
     = ([], Return (t1, [t0; t1])) /\
   topological Z [t0] /\
   (forall d, ArgRunnable d ∈ [@ArgRunnable Z FileProvider (Runnable Z) t0] ->
              d ∈ [t0])) /\
  [t0; t1] = [t0] ++ [t1] /\
  input_runnables Z (_inputs t1) = raw_runnables Z [ArgRunnable t0] /\
  topological Z [t0; t1].
Proof.
  split; [split; [exact compute_t1
                 | split; [exact t0_topological
                          | exact t1_inputs_in_sequence]]|].
  destruct (X13_compute_keeps_the_sequence_in_dependency_order Z
              example_loaders example_registry [t0] 1 "filter" "Multiply"
              [ArgRunnable t0] [("factor", OptValue 3%Z)] [] t1 [t0; t1]
              compute_t1) as (Happ & Hdeps & Htopo).
  split; [exact Happ|]. split; [exact Hdeps|].
  exact (Htopo t0_topological t1_inputs_in_sequence).
Defined.

Lemma example_files_decode c p :
  c ∈ [t0; t1] -> ArgFile p ∈ _inputs c -> decodes Z example_loaders p.
Proof.
  intros [->|Hc]%elem_of_cons Hp.
  - apply list_elem_of_singleton in Hp. injection Hp as ->.
    exists example_loader, 5%Z. split; reflexivity.
  - apply list_elem_of_singleton in Hc as ->.
    apply list_elem_of_singleton in Hp. discriminate.
Qed.

Lemma example_algorithms_return c results vs :
  c ∈ [t0; t1] ->
  Forall2 (resolves_to Z example_loaders results) (_inputs c) vs ->
  exists v, algorithm_run Z (_algorithm_instance Z c) vs = Return v.
Proof.
  intros [->|Hc]%elem_of_cons Hvs.
  - inversion Hvs as [|? x ? l _ Hl]; subst. inversion Hl; subst.
    simpl. eauto.
  - apply list_elem_of_singleton in Hc as ->.
    inversion Hvs as [|? x ? l _ Hl]; subst. inversion Hl; subst.
    simpl. eauto.
Qed.

Lemma example_save_returns v p : example_save v p = Return tt.
Proof. reflexivity. Qed.

Lemma X14_witness :
  (recipe_wf Z [t0; t1] [t1] /\ topological Z [t0; t1] /\
   (forall c p, c ∈ [t0; t1] -> ArgFile p ∈ _inputs c ->
                decodes Z example_loaders p) /\
   (forall c results vs, c ∈ [t0; t1] ->
      Forall2 (resolves_to Z example_loaders results) (_inputs c) vs ->
      exists v, algorithm_run Z (_algorithm_instance Z c) vs = Return v) /\
   (forall v p, example_save v p = Return tt)) /\
  exists tr st vs,
    run_and_save Z example_loaders example_save in_order
      (Execution_init Z in_order [t0; t1] [t1] ["output.json"])
      = Some ((tr, Return tt), st) /\
    complete Z st = true /\
    Forall2 (fun o v => _completed_results Z st !! rid o = Some v) [t1] vs /\
    saved_outputs Z tr = zip ["output.json"] vs.
Proof.
  split.
  { split; [exact example_wf|]. split; [exact example_topological|].
    split; [exact example_files_decode|].
    split; [exact example_algorithms_return | exact example_save_returns]. }
  exact (X14_run_and_save_succeeds_when_every_step_does Z example_loaders
           example_save in_order in_order_perm [t0; t1] [t1] ["output.json"]
           example_wf example_topological example_files_decode
           example_algorithms_return example_save_returns).
Defined.

Definition one_output : gmap Z (PyObj Z) := {[0%Z := ObjRunnable t1]}.

Lemma one_output_bound (ix : nat) :
  ix < size one_output ->
  exists r, one_output !! Z.of_nat ix = Some (ObjRunnable r).
Proof.
  unfold one_output. rewrite map_size_singleton. intros Hix.
  assert (ix = 0) as -> by lia. exists t1. reflexivity.
Qed.

Lemma X15_witness :
  (size one_output = length ["output.json"] /\
   (forall ix : nat, ix < size one_output ->
      exists r, one_output !! Z.of_nat ix = Some (ObjRunnable r))) /\
  exists ordered,
    Recipe_init Z [t0; t1] one_output ["output.json"]
      = Return {| _runnable_order := [t0; t1];
                  _recipe_outputs := ordered;
                  _recipe_output_paths := ["output.json"] |} /\
    length ordered = length ["output.json"] /\
    forall (ix : nat) r,
      ordered !! ix = Some r <->
      ix < size one_output /\ one_output !! Z.of_nat ix = Some (ObjRunnable r).
Proof.
  assert (size one_output = length ["output.json"]) as Hsize
    by (vm_compute; reflexivity).
  split; [split; [exact Hsize | exact one_output_bound]|].
  exact (X15_valid_outputs_give_a_recipe_in_index_order Z [t0; t1] one_output
           ["output.json"] Hsize one_output_bound).
Defined.

(** Exact arithmetic on integers, where only the division by 0 raises. *)
Definition Z_sub (a b : Z) : outcome Z := Return (a - b)%Z.
Definition Z_add (a b : Z) : outcome Z := Return (a + b)%Z.
Definition Z_mul (a b : Z) : outcome Z := Return (a * b)%Z.
Definition Z_div (a b : Z) : outcome Z :=
  if (b =? 0)%Z then Raise (OtherException "ZeroDivisionError")
  else Return (a / b)%Z.

(** A dimension of 5 pixels from 0 to 10: the pixels from the third to the
    fourth from the end are those from the index 2 to the index 3. *)
Lemma X18_witness :
  ((-3 < 0)%Z /\ (0 < -3 + 5)%Z /\ (-2 < -1)%Z /\ (0 < -2 + 5)%Z) /\
  recalculate_physical_coordinate_range Z Z_sub Z_add Z_div Z_mul 0%Z 10%Z
    5%Z (IndexSlice (Some (-3)%Z) (Some (-2)%Z))
  = recalculate_physical_coordinate_range Z Z_sub Z_add Z_div Z_mul 0%Z 10%Z
      5%Z (IndexSlice (Some (-3 + 5)%Z) (Some (-2 + 5)%Z)) /\
  recalculate_physical_coordinate_range Z Z_sub Z_add Z_div Z_mul 0%Z 10%Z
    5%Z (IndexInt (-2))
  = recalculate_physical_coordinate_range Z Z_sub Z_add Z_div Z_mul 0%Z 10%Z
      5%Z (IndexInt (-2 + 5)).
Proof.
  split; [lia|].
  apply (X18_negative_indices_count_from_the_end Z Z_sub Z_add Z_div Z_mul
           0%Z 10%Z 5%Z (-3)%Z (-2)%Z); lia.
Defined.
